(** * ThingEngine core: channel virtualisation and inter-tier transport

    A shallow embedding of the JavaScript sources

    - the channel factory module ([ChannelStateBinder], [ChannelFactory]),
    - [lib/tiers/tier_connections.js] ([ClientConnection], [ServerConnection]),
    - [lib/tiers/pipes.js] ([PipeSinkChannel], [PipeManager]),
    - [lib/apps/channel_opener.js] ([ChannelOpener]),

    together with the properties the specification states about them.

    Conventions.  JavaScript objects that are shared and mutated (state
    binders, channels, connection records) live in an explicit store and
    are referred to by their address; promises are modelled by their
    outcome ([Resolved] / [Rejected]); timers by their due time on a
    logical millisecond clock; everything a function does to the outside
    world (socket writes, emitted events, console lines) is appended to
    an output trace.  Plain objects used as dictionaries are finite maps
    or association lists of their own properties; where a key comes
    from outside (a state name, an identity, a pipe name), a read also
    finds the members of [Object.prototype].  Channel ids contain a
    dash and are never the name of such a member. *)

From Stdlib Require Import ZArith Lia.
From stdpp Require Import gmap strings list sorting fin_maps pretty.

Set Default Proof Using "Type".

(** ** Promises and errors *)

Record JsError := mkError { message : string; stack : string }.

Inductive Outcome (A : Type) : Type :=
| Resolved (a : A)
| Rejected (e : JsError).
Arguments Resolved {A} a.
Arguments Rejected {A} e.

Definition is_resolved {A} (o : Outcome A) : bool :=
  match o with Resolved _ => true | Rejected _ => false end.

(** ** Plain objects used as dictionaries

    A read [obj[k]] on a plain object finds the members of
    [Object.prototype] where the object has no property of its own under
    that name; so does [k in obj].  [for (k in obj)] goes through the
    object's own properties only (the members are not enumerable),
    those named by an array index first, in ascending order, then the
    others in the order they were created. *)

Definition object_prototype_members : list string :=
  ["constructor"; "__defineGetter__"; "__defineSetter__"; "hasOwnProperty";
   "__lookupGetter__"; "__lookupSetter__"; "isPrototypeOf";
   "propertyIsEnumerable"; "toString"; "valueOf"; "__proto__";
   "toLocaleString"].

Definition inherited (k : string) : bool :=
  bool_decide (k ∈ object_prototype_members).

(** What [obj[k]] finds, given the object's own property of that name,
    if any: that property, a member of the prototype, or [undefined]. *)
Inductive Found (A : Type) : Type :=
| Own (a : A)
| Member
| Missing.
Arguments Own {A} a.
Arguments Member {A}.
Arguments Missing {A}.

Definition read {A} (k : string) (own : option A) : Found A :=
  match own with
  | Some a => Own a
  | None => if inherited k then Member else Missing
  end.

(** [obj[name] = value] on the own properties of a plain object: the
    name [__proto__] is an accessor of the prototype, and an assignment
    to it creates no property (it replaces the prototype of the object
    when the value is an object, which the model does not follow). *)
Definition assign {A} (name : string) (value : A) (own : gmap string A)
  : gmap string A :=
  if decide (name = "__proto__") then own else <[name := value]> own.

(** The number an array index is written as: decimal digits without a
    leading zero, below [2^32 - 1]. *)
Definition digit (a : Ascii.ascii) : option N :=
  let n := Ascii.N_of_ascii a in
  if ((48 <=? n) && (n <=? 57))%N then Some (n - 48)%N else None.

Fixpoint digits (s : string) (acc : N) : option N :=
  match s with
  | EmptyString => Some acc
  | String a rest =>
      match digit a with
      | Some d => digits rest (10 * acc + d)%N
      | None => None
      end
  end.

Definition array_index (s : string) : option N :=
  match s with
  | EmptyString => None
  | String a rest =>
      if decide (s = "0") then Some 0%N
      else if decide (digit a = Some 0%N) then None
      else match digits s 0 with
           | Some n => if (n <? 4294967295)%N then Some n else None
           | None => None
           end
  end.

(** ** ChannelStateBinder *)

Module Binder.

(** Modelled from the spec: the persistent key-value store behind
    [ChannelStateDatabase] ([../db/channel], not part of the sources at
    hand): [getOne(id) -> value|null] and [insertOne(id, value) -> void].
    [calls] records every [insertOne] issued, in order; an unhealthy store
    rejects its operations and keeps its rows. *)
Record Db (Value : Type) := mkDb {
  rows : gmap (option string) (gmap string Value);
  calls : list (option string * gmap string Value);
  healthy : bool
}.
Arguments mkDb {Value}.
Arguments rows {Value}.
Arguments calls {Value}.
Arguments healthy {Value}.

(** The fields of [ChannelStateBinder]; [_cached] holds the own
    properties of the cache object, [_updateTimeout] the handle
    [setTimeout] returned ([None] for [null]), and [useCount] is the
    holder count inherited from [RefCounted].  The last two components
    are not fields of the object: [timers] is the part of the runtime's
    timer table that this binder has filled, each pending timer with its
    handle and the clock value at which it is due, in the order they
    were armed, and [handles] counts the handles handed out. *)
Record t (Value : Type) := mk {
  _cached : gmap string Value;
  uniqueId : option string;
  _updateTimeout : option nat;
  useCount : nat;
  timers : list (nat * Z);
  handles : nat
}.
Arguments mk {Value}.
Arguments _cached {Value}.
Arguments uniqueId {Value}.
Arguments _updateTimeout {Value}.
Arguments useCount {Value}.
Arguments timers {Value}.
Arguments handles {Value}.

Section Ops.
Context {Value : Type}.
Implicit Types (b : t Value) (db : Db Value).

Definition insertOne (id : option string) (v : gmap string Value) db
  : Db Value * bool :=
  (mkDb (if healthy db then <[id := v]> (rows db) else rows db)
        (calls db ++ [(id, v)])
        (healthy db),
   healthy db).

Definition getOne (id : option string) db : Outcome (option (gmap string Value)) :=
  if healthy db then Resolved (rows db !! id)
  else Rejected (mkError "database error" "").

(** [constructor(db)] *)
Definition new : t Value := mk ∅ None None 0 [] 0.

(** [init(uniqueId)] *)
Definition init (id : string) b : t Value :=
  mk (_cached b) (Some id) (_updateTimeout b) (useCount b)
     (timers b) (handles b).

(** [get(name)] *)
Definition get (name : string) b : Found Value :=
  read name (_cached b !! name).

(** [clearTimeout(handle)]: the timer with this handle, if it is still
    pending, is taken out of the table. *)
Definition clearTimeout (handle : option nat) b : t Value :=
  mk (_cached b) (uniqueId b) (_updateTimeout b) (useCount b)
     (match handle with
      | Some h => filter (fun p => p.1 ≠ h) (timers b)
      | None => timers b
      end)
     (handles b).

(** [setTimeout(callback, delay)] at clock value [now]: a new timer,
    and its handle. *)
Definition setTimeout (now delay : Z) b : t Value * nat :=
  (mk (_cached b) (uniqueId b) (_updateTimeout b) (useCount b)
      (timers b ++ [(handles b, (now + delay)%Z)]) (S (handles b)),
   handles b).

(** [set(name, value)] at clock value [now]. *)
Definition set (now : Z) (name : string) (value : Value) b : t Value :=
  let b1 := mk (assign name value (_cached b)) (uniqueId b)
               (_updateTimeout b) (useCount b) (timers b) (handles b) in
  let b2 := clearTimeout (_updateTimeout b1) b1 in
  let '(b3, handle) := setTimeout now 500 b2 in
  mk (_cached b3) (uniqueId b3) (Some handle) (useCount b3)
     (timers b3) (handles b3).

(** [_flushToDisk()] ; the boolean is the outcome of the returned promise. *)
Definition _flushToDisk (w : t Value * Db Value) : t Value * Db Value * bool :=
  let '(b, db) := w in
  let b' := mk (_cached b) (uniqueId b) None (useCount b)
               (timers b) (handles b) in
  let '(db', ok) := insertOne (uniqueId b') (_cached b') db in
  (b', db', ok).

(** [_doOpen()] *)
Definition _doOpen (w : t Value * Db Value) : Outcome (t Value) :=
  let '(b, db) := w in
  match getOne (uniqueId b) db with
  | Resolved (Some value) =>
      Resolved (mk value (uniqueId b) (_updateTimeout b) (useCount b)
                   (timers b) (handles b))
  | Resolved None =>
      Resolved (mk ∅ (uniqueId b) (_updateTimeout b) (useCount b)
                   (timers b) (handles b))
  | Rejected e => Rejected e
  end.

(** [_doClose()] *)
Definition _doClose (w : t Value * Db Value) : t Value * Db Value * bool :=
  let '(b, db) := w in
  _flushToDisk (clearTimeout (_updateTimeout b) b, db).

Definition with_count (n : nat) b : t Value :=
  mk (_cached b) (uniqueId b) (_updateTimeout b) n (timers b) (handles b).

(** Modelled from the spec: [RefCounted] ([../util/ref_counted], not part
    of the sources at hand): "N logical holders may request open/close;
    the underlying open happens once and closes only when the last holder
    releases it".  A [close] without a holder does nothing. *)
Definition open (w : t Value * Db Value) : Outcome (t Value) :=
  let '(b, db) := w in
  let b' := with_count (S (useCount b)) b in
  match useCount b with
  | O => _doOpen (b', db)
  | S _ => Resolved b'
  end.

Definition close (w : t Value * Db Value) : t Value * Db Value * bool :=
  let '(b, db) := w in
  match useCount b with
  | O => (b, db, true)
  | S O => _doClose (with_count 0 b, db)
  | S n => (with_count n b, db, true)
  end.

(** *** The binder on a clock

    A world is the clock, the binder and the store.  When time passes,
    the timers that have become due fire, in the order they were armed
    (which, the delay being constant, is the order of their due times):
    a timer that fires leaves the table and its callback,
    [_flushToDisk], runs. *)
Record World := mkWorld { now : Z; binder : t Value; store : Db Value }.

Definition due (w : World) : list (nat * Z) :=
  filter (fun p => (p.2 <=? now w)%Z) (timers (binder w)).

Definition fire (w : World) (p : nat * Z) : World :=
  let b := binder w in
  let b0 := mk (_cached b) (uniqueId b) (_updateTimeout b) (useCount b)
               (filter (fun q => q.1 ≠ p.1) (timers b)) (handles b) in
  let '(b', db, _) := _flushToDisk (b0, store w) in
  mkWorld (now w) b' db.

Definition run_timers (w : World) : World := foldl fire w (due w).

Inductive Op :=
| OpSet (name : string) (value : Value)
| OpWait (dt : Z)
| OpClose.

Definition step (w : World) (o : Op) : World :=
  match o with
  | OpSet name value => mkWorld (now w) (set (now w) name value (binder w)) (store w)
  | OpWait dt => run_timers (mkWorld (now w + dt)%Z (binder w) (store w))
  | OpClose =>
      let '(b, db, _) := close (binder w, store w) in mkWorld (now w) b db
  end.

Definition run (w : World) (ops : list Op) : World := foldl step w ops.

(** A burst of [set] calls: each entry is the time elapsed since the
    previous call, then the key and the value. *)
Definition burst_ops (burst : list (Z * string * Value)) : list Op :=
  flat_map (fun '(gap, k, v) => [OpWait gap; OpSet k v]) burst.

Definition span (burst : list (Z * string * Value)) : Z :=
  foldr (fun '(gap, _, _) acc => (gap + acc)%Z) 0%Z burst.

(** Time passing in several steps, and how much in all. *)
Definition waits (ds : list Z) : list Op := map OpWait ds.

Definition total (ds : list Z) : Z := foldr Z.add 0%Z ds.

(** The value most recently passed to [set] for [name], reading the
    calls from the last one backwards. *)
Fixpoint last_set (name : string) (rev_calls : list (string * Value))
  : option Value :=
  match rev_calls with
  | [] => None
  | (k, v) :: older => if decide (k = name) then Some v else last_set name older
  end.

Definition sets_of (first : string * Value) (burst : list (Z * string * Value))
  : list (string * Value) :=
  first :: map (fun e => (e.1.2, e.2)) burst.

(** The own properties of the cache after a series of assignments
    [_cached[name] = value]. *)
Definition apply_sets (sets : list (string * Value)) (c : gmap string Value)
  : gmap string Value :=
  foldl (fun c kv => assign kv.1 kv.2 c) c sets.

(** The only timer pending, if any, is the one whose handle the binder
    holds: no [setTimeout] of the binder has been left behind. *)
Definition tidy b : Prop :=
  Forall (fun p => _updateTimeout b = Some p.1) (timers b)
  ∧ Forall (fun p => p.1 < handles b) (timers b).

(** The assignments made by a series of operations, in order, and the
    operations other than [close()]. *)
Definition sets_in (ops : list Op) : list (string * Value) :=
  omap (fun o => match o with OpSet k v => Some (k, v) | _ => None end) ops.

Definition keeps_open (o : Op) : bool :=
  match o with OpClose => false | _ => true end.

(** [set] calls, each followed by a pause, and the writes of a binder
    with id [id] whose cache [c] takes these assignments one at a time,
    each flushed before the next arrives. *)
Definition paced_ops (sets : list (string * Value * Z)) : list Op :=
  flat_map (fun '(k, v, d) => [OpSet k v; OpWait d]) sets.

Fixpoint writes_of (id : option string) (c : gmap string Value)
    (sets : list (string * Value * Z))
  : list (option string * gmap string Value) :=
  match sets with
  | [] => []
  | (k, v, _) :: rest => (id, assign k v c) :: writes_of id (assign k v c) rest
  end.

End Ops.
End Binder.

(** ** ChannelFactory *)

Module Factory.

(** Modelled from the spec: the tier names of [Tp.Tier] (the constant
    table lives in the thingpedia library): the three processes and the
    [GLOBAL] owner. *)
Inductive Tier := PHONE | SERVER | CLOUD | GLOBAL.

#[global] Instance Tier_eq_dec : EqDecision Tier.
Proof. solve_decision. Defined.

Section Env.
Context {Params Value : Type}.
(** [Protocol.params.makeString], [engine.platform.hasCapability] and
    [engine.ownTier] are supplied by the surrounding engine. *)
Variable makeString : Params → string.
Variable hasCapability : string → bool.
Variable ownTier : Tier.

(** What a device hands out for a channel kind: either a constructor
    function ([new factory(...)]) or an object with [createChannel].
    Running it yields the [filterString] of the new channel
    ([None] for [undefined]), or throws. *)
Inductive Maker :=
| NewClass (ctor : string → Params → Outcome (option string))
| WithCreateChannel (createChannel : string → Params → Outcome (option string)).

Record ChannelClass := mkClass {
  requiredCapabilities : option (list string);
  maker : Maker
}.

Record Device := mkDevice {
  dev_uniqueId : string;
  ownerTier : Tier;
  getTriggerClass : string → Outcome ChannelClass;
  getQueryClass : string → Outcome ChannelClass;
  getActionClass : string → Outcome ChannelClass
}.

(** A channel object.  [addr] is its identity: the n-th object built by
    a channel constructor has address n.  [state] is the address of the
    state binder it was given. *)
Record Channel := mkChannel {
  addr : nat;
  ch_uniqueId : string;
  filterString : option string;
  state : option nat
}.

(** The stand-in returned by [proxyManager.getProxyChannel], identified
    by the arguments of the call that produced it. *)
Record ProxyChannel := mkProxy {
  targetChannelId : string;
  targetTier : Tier;
  px_device : string;
  px_local : Channel;
  px_kind : string;
  px_mode : string;
  px_params : Params
}.

Inductive ChannelRef :=
| Local (c : Channel)
| Proxy (p : ProxyChannel).

Inductive Event :=
| EvConstruct (a : nat)
| EvLog (line : string)
| EvProxyManager (p : ProxyChannel)
| EvOpen (c : ChannelRef).

Record State := mkState {
  _cachedChannels : gmap string Channel;
  binders : list (Binder.t Value);
  _db : Binder.Db Value;
  constructed : nat;
  trace : list Event
}.

Definition M (A : Type) : Type := State → State * Outcome A.

Definition ret {A} (a : A) : M A := fun st => (st, Resolved a).
Definition throw {A} (msg : string) : M A :=
  fun st => (st, Rejected (mkError msg "")).
Definition bind {A B} (m : M A) (k : A → M B) : M B :=
  fun st => match m st with
            | (st', Resolved a) => k a st'
            | (st', Rejected e) => (st', Rejected e)
            end.
Definition lift {A} (o : Outcome A) : M A := fun st => (st, o).
Definition emit (ev : Event) : M unit :=
  fun st => (mkState (_cachedChannels st) (binders st) (_db st)
                     (constructed st) (trace st ++ [ev]), Resolved tt).

Notation "'let!' x ':=' m 'in' k" := (bind m (fun x => k))
  (at level 10, x name, m at level 100, k at level 200, only parsing).
Notation "'do!' m 'in' k" := (bind m (fun _ => k))
  (at level 10, m at level 100, k at level 200, only parsing).

(** [new ChannelStateBinder(this._db)] *)
Definition new_binder : M nat :=
  fun st => (mkState (_cachedChannels st) (binders st ++ [Binder.new])
                     (_db st) (constructed st) (trace st),
             Resolved (length (binders st))).

(** [new factory(...)] / [factory.createChannel(...)]: the constructor
    runs, and the object it returns gets the next address. *)
Definition construct (mk : Maker) (dev : string) (params : Params)
  : M (nat * option string) :=
  fun st =>
    let st' := mkState (_cachedChannels st) (binders st) (_db st)
                       (S (constructed st))
                       (trace st ++ [EvConstruct (constructed st)]) in
    match (match mk with
           | NewClass ctor => ctor dev params
           | WithCreateChannel createChannel => createChannel dev params
           end) with
    | Resolved fs => (st', Resolved (constructed st, fs))
    | Rejected e => (st', Rejected e)
    end.

(** [state.init(id)] then [state.open()] on the binder at [sa]. *)
Definition state_init_open (sa : nat) (id : string) : M unit :=
  fun st =>
    match binders st !! sa with
    | None => (st, Rejected (mkError "no such binder" ""))
    | Some b =>
        let b1 := Binder.init id b in
        let b2 := Binder.with_count (S (Binder.useCount b1)) b1 in
        match Binder.open (b1, _db st) with
        | Resolved b' =>
            (mkState (_cachedChannels st) (<[sa := b']> (binders st))
                     (_db st) (constructed st) (trace st), Resolved tt)
        | Rejected e =>
            (mkState (_cachedChannels st) (<[sa := b2]> (binders st))
                     (_db st) (constructed st) (trace st), Rejected e)
        end
    end.

(** [state.close(); // ignore errors]: the promise is dropped. *)
Definition state_close (sa : nat) : M unit :=
  fun st =>
    match binders st !! sa with
    | None => (st, Resolved tt)
    | Some b =>
        let '(b', db', _) := Binder.close (b, _db st) in
        (mkState (_cachedChannels st) (<[sa := b']> (binders st))
                 db' (constructed st) (trace st), Resolved tt)
    end.

Definition cache_lookup (id : string) : M (option Channel) :=
  fun st => (st, Resolved (_cachedChannels st !! id)).

Definition cache_store (id : string) (c : Channel) : M Channel :=
  fun st => (mkState (<[id := c]> (_cachedChannels st)) (binders st)
                     (_db st) (constructed st) (trace st), Resolved c).

(** [_checkFactoryCaps(caps)] *)
Definition _checkFactoryCaps (caps : list string) : bool :=
  forallb (fun c => if decide (c = "channel-state") then true
                    else hasCapability c) caps.

(** [_onDeviceRemoved(device)] *)
Definition _onDeviceRemoved (device : Device) (st : State) : State :=
  let prefix := dev_uniqueId device +:+ "-" in
  mkState (filter (fun kv => ¬ String.prefix prefix kv.1) (_cachedChannels st))
          (binders st) (_db st) (constructed st) (trace st).

(** [getChannel(device, kind, mode, params, forOpen)] *)
Definition getChannel (device : Device) (kind mode : string)
    (params : Params) (forOpen : bool) : M Channel :=
  let! factory := lift (if decide (mode = "r") then getTriggerClass device kind
                        else if decide (mode = "q") then getQueryClass device kind
                        else getActionClass device kind) in
  let caps := default [] (requiredCapabilities factory) in
  if forOpen && negb (_checkFactoryCaps caps) then
    throw "Channel is not supported"
  else
    let hasState := bool_decide ("channel-state" ∈ caps) in
    let! state := (if hasState then let! sa := new_binder in ret (Some sa)
                   else ret None) in
    let! obj := construct (maker factory) (dev_uniqueId device) params in
    let uniqueId :=
      match obj.2 with
      | Some fs => dev_uniqueId device +:+ "-" +:+ kind +:+ "-" +:+ fs
      | None => dev_uniqueId device +:+ "-" +:+ kind
      end in
    let channel := mkChannel obj.1 uniqueId obj.2 state in
    do! emit (EvLog ("Obtained channel " +:+ uniqueId)) in
    match state with
    | Some sa =>
        do! state_init_open sa uniqueId in
        let! cached := cache_lookup uniqueId in
        match cached with
        | Some c => ret c
        | None => do! state_close sa in cache_store uniqueId channel
        end
    | None =>
        let! cached := cache_lookup uniqueId in
        match cached with
        | Some c => ret c
        | None => cache_store uniqueId channel
        end
    end.

(** [_getOpenedChannel(promise)]: the call of [channel.open()] is
    recorded; what opening does is up to the channel's class. *)
Definition _getOpenedChannel (promise : M ChannelRef) : M ChannelRef :=
  let! channel := promise in
  do! emit (EvOpen channel) in
  ret channel.

(** [_getProxyChannel(targetTier, device, kind, mode, params)] *)
Definition _getProxyChannel (targetTier : Tier) (device : Device)
    (kind mode : string) (params : Params) : M ChannelRef :=
  let targetChannelId := dev_uniqueId device +:+ "-" +:+ kind in
  let targetChannelId :=
    if decide (mode = "r")
    then targetChannelId +:+ "-" +:+ makeString params
    else targetChannelId in
  let! local := getChannel device kind mode params false in
  let p := mkProxy targetChannelId targetTier (dev_uniqueId device)
                   local kind mode params in
  do! emit (EvProxyManager p) in
  ret (Proxy p).

(** [getOpenedChannel(device, id, mode, params)] *)
Definition getOpenedChannel (device : Device) (id mode : string)
    (params : Params) : M ChannelRef :=
  if decide (ownerTier device = ownTier ∨ ownerTier device = GLOBAL) then
    _getOpenedChannel (let! c := getChannel device id mode params true in
                       ret (Local c))
  else
    _getOpenedChannel (_getProxyChannel (ownerTier device) device id mode params).

(** *** Vocabulary of the properties *)

Definition resolveClass (device : Device) (kind mode : string)
  : Outcome ChannelClass :=
  if decide (mode = "r") then getTriggerClass device kind
  else if decide (mode = "q") then getQueryClass device kind
  else getActionClass device kind.

Definition run_maker (mk : Maker) (dev : string) (params : Params)
  : Outcome (option string) :=
  match mk with
  | NewClass ctor => ctor dev params
  | WithCreateChannel createChannel => createChannel dev params
  end.

(** The [uniqueId] a request normalizes to: the id [getChannel] assigns
    to the channel it builds for these arguments. *)
Definition normalize (device : Device) (kind mode : string) (params : Params)
  : option string :=
  match resolveClass device kind mode with
  | Resolved factory =>
      match run_maker (maker factory) (dev_uniqueId device) params with
      | Resolved (Some fs) =>
          Some (dev_uniqueId device +:+ "-" +:+ kind +:+ "-" +:+ fs)
      | Resolved None => Some (dev_uniqueId device +:+ "-" +:+ kind)
      | Rejected _ => None
      end
  | Rejected _ => None
  end.

Record Call := mkCall {
  c_device : Device;
  c_kind : string;
  c_mode : string;
  c_params : Params;
  c_forOpen : bool
}.

Definition call (c : Call) : M Channel :=
  getChannel (c_device c) (c_kind c) (c_mode c) (c_params c) (c_forOpen c).

Definition call_id (c : Call) : option string :=
  normalize (c_device c) (c_kind c) (c_mode c) (c_params c).

(** A sequence of [getChannel] calls, one after the other; the outcomes
    are returned in call order. *)
Fixpoint calls (cs : list Call) (st : State)
  : State * list (Outcome Channel) :=
  match cs with
  | [] => (st, [])
  | c :: rest =>
      let '(st1, r) := call c st in
      let '(st2, rs) := calls rest st1 in
      (st2, r :: rs)
  end.

Definition channels_of (rs : list (Outcome Channel)) : list Channel :=
  omap (fun r => match r with Resolved c => Some c | Rejected _ => None end) rs.

Definition initial : State :=
  mkState ∅ [] (Binder.mkDb ∅ [] true) 0 [].

(** The call gets as far as running the channel constructor: the class
    lookup answers and the capability check, when asked for, passes. *)
Definition reaches_constructor (c : Call) : bool :=
  match resolveClass (c_device c) (c_kind c) (c_mode c) with
  | Resolved factory =>
      negb (c_forOpen c
            && negb (_checkFactoryCaps (default [] (requiredCapabilities factory))))
  | Rejected _ => false
  end.

Definition proxy_calls (tr : list Event) : list ProxyChannel :=
  omap (fun e => match e with EvProxyManager p => Some p | _ => None end) tr.

(** A step that leaves the cache and the constructor count alone and
    does not involve the proxy manager. *)
Definition quiet {A} (m : M A) : Prop :=
  ∀ st st' r, m st = (st', r) →
    _cachedChannels st' = _cachedChannels st
    ∧ constructed st' = constructed st
    ∧ proxy_calls (trace st') = proxy_calls (trace st).

(** The id given to a channel of [kind] built for [device] whose
    constructor left [fs] as [filterString]. *)
Definition channel_id (device : Device) (kind : string) (fs : option string)
  : string :=
  match fs with
  | Some fs => dev_uniqueId device +:+ "-" +:+ kind +:+ "-" +:+ fs
  | None => dev_uniqueId device +:+ "-" +:+ kind
  end.

(** What [getChannel] writes to the store when it closes a binder it has
    just opened for [u]: the row it has read, or an empty one. *)
Definition written_back (u : string) (db : Binder.Db Value) : Binder.Db Value :=
  (Binder.insertOne (Some u) (default ∅ (Binder.rows db !! Some u)) db).1.

End Env.
End Factory.

(** ** JSON values and wire frames *)

Inductive JsVal :=
| JUndefined
| JNull
| JBool (b : bool)
| JNum (z : Z)
| JStr (s : string)
| JObj (rendering : string).

#[global] Instance JsVal_eq_dec : EqDecision JsVal.
Proof. solve_decision. Defined.

(** Truthiness and [String(v)]; an object or array carries the text
    [String] gives for it. *)
Definition truthy (v : JsVal) : bool :=
  match v with
  | JUndefined | JNull => false
  | JBool b => b
  | JNum z => negb (z =? 0)%Z
  | JStr s => negb (bool_decide (s = ""))
  | JObj _ => true
  end.

Definition to_String (v : JsVal) : string :=
  match v with
  | JUndefined => "undefined"
  | JNull => "null"
  | JBool true => "true"
  | JBool false => "false"
  | JNum z => pretty z
  | JStr s => s
  | JObj r => r
  end.

(** A frame object: the three fields the protocol reads, and the rest
    of the object as [body]. *)
Record Msg := mkMsg {
  control : JsVal;
  identity : JsVal;
  token : JsVal;
  body : string
}.

#[global] Instance Msg_eq_dec : EqDecision Msg.
Proof. solve_decision. Defined.

Definition control_frame (c : string) : Msg :=
  mkMsg (JStr c) JUndefined JUndefined "".

(** [if (msg.control === undefined) msg.control = 'data'] *)
Definition tag_data (m : Msg) : Msg :=
  if decide (control m = JUndefined)
  then mkMsg (JStr "data") (identity m) (token m) (body m)
  else m.

(** [delete msg.control] *)
Definition delete_control (m : Msg) : Msg :=
  mkMsg JUndefined (identity m) (token m) (body m).

(** What arrives on a socket: text [JSON.parse] rejects, the text
    [null] (every property read on it throws), or anything else, read
    through its three fields. *)
Inductive Wire :=
| Unparsable
| ParsedNull
| Parsed (m : Msg).

(** ** ServerConnection *)

Module Server.

(** [pingTimeout]: absent on the records the constructor makes for the
    expected peers, [-1] on a fresh connection, then the interval id. *)
Inductive PingT := PingUndefined | PingOff | PingTimer (id : nat).

#[global] Instance PingT_eq_dec : EqDecision PingT.
Proof. solve_decision. Defined.

(** A connection record.  Sockets are numbered in the order they
    connect; [closeCallback] tells whether a callback is installed. *)
Record Conn := mkConn {
  socket : option nat;
  dataOk : bool;
  closeOk : bool;
  closeCallback : bool;
  pingTimeout : PingT;
  outgoingBuffer : list Msg;
  c_identity : option string
}.

Inductive Out :=
| SockSend (s : nat) (m : Msg)
| SockTerminate (s : nat)
| SetInterval (timer : nat) (conn : nat)
| ClearInterval (t : PingT)
| EmitMessage (m : Msg) (from : option string)
| EmitConnected (id : string)
| Console (line : string)
| CloseCallback
| Throw (msg : string).

#[global] Instance Out_eq_dec : EqDecision Out.
Proof. solve_decision. Defined.

(** The server: [_connections] holds the own properties of the table, an
    identity and the address of its record in [heap], in the order they
    were created; [closure] gives, for each socket, the address of the
    [connection] variable its handlers have captured; [authToken] is
    what [platform.getAuthToken()] returns; [timers] numbers the
    intervals. *)
Record t := mk {
  _connections : list (string * nat);
  heap : list Conn;
  closure : list nat;
  authToken : option string;
  timers : nat
}.

Fixpoint table_get (k : string) (tbl : list (string * nat)) : option nat :=
  match tbl with
  | [] => None
  | (k', a) :: rest => if decide (k' = k) then Some a else table_get k rest
  end.

(** [this._connections[k] = connection].  Under the identity
    [__proto__] the assignment installs the record as the prototype of
    the table: a read of [__proto__] then finds that record, as it does
    here, and [for .. in] passes over the name; the names the table
    would inherit from the record's own fields are not followed. *)
Fixpoint table_set (k : string) (a : nat) (tbl : list (string * nat))
  : list (string * nat) :=
  match tbl with
  | [] => [(k, a)]
  | (k', a') :: rest =>
      if decide (k' = k) then (k, a) :: rest else (k', a') :: table_set k a rest
  end.

Definition set_conn (a : nat) (c : Conn) (st : t) : t :=
  mk (_connections st) (<[a := c]> (heap st)) (closure st)
     (authToken st) (timers st).

Definition set_table (tbl : list (string * nat)) (st : t) : t :=
  mk tbl (heap st) (closure st) (authToken st) (timers st).

(** [constructor(platform, expected)] *)
Definition expected_record : Conn :=
  mkConn None false false false PingUndefined [] None.

Definition create (configured : option string) (expected : list string) : t :=
  foldl (fun st from =>
           mk (table_set from (length (heap st)) (_connections st))
              (heap st ++ [expected_record]) (closure st)
              (authToken st) (timers st))
        (mk [] [] [] configured 0) expected.

(** [for (var id in this._connections)]: the identities written as an
    array index come first, by ascending value, then the others in the
    order they were registered. *)
Definition by_index (x y : N * (string * nat)) : Prop := (x.1 ≤ y.1)%N.

#[global] Instance by_index_dec x y : Decision (by_index x y).
Proof. unfold by_index. apply _. Defined.

Definition index_keys (tbl : list (string * nat))
  : list (N * (string * nat)) :=
  omap (fun e => (fun n => (n, e)) <$> array_index e.1) tbl.

Definition named (e : string * nat) : bool :=
  match array_index e.1 with
  | Some _ => false
  | None => negb (bool_decide (e.1 = "__proto__"))
  end.

Definition enumerate (tbl : list (string * nat)) : list (string * nat) :=
  (merge_sort by_index (index_keys tbl)).*2 ++ filter (fun e => named e) tbl.

(** [isConnected(remote)]: a member of [Object.prototype] is defined
    and its [socket] is [undefined], which is not [null]. *)
Definition isConnected (remote : string) (st : t) : bool :=
  match read remote (table_get remote (_connections st)) with
  | Own a => match heap st !! a with
             | Some c => bool_decide (socket c ≠ None)
             | None => false
             end
  | Member => true
  | Missing => false
  end.

(** [_findConnection(socket)]: the address of the first record, in the
    order of [for .. in], whose [socket] is this one. *)
Fixpoint find_in (s : nat) (h : list Conn) (tbl : list (string * nat))
  : option nat :=
  match tbl with
  | [] => None
  | (_, a) :: rest =>
      match h !! a with
      | Some c => if decide (socket c = Some s) then Some a else find_in s h rest
      | None => find_in s h rest
      end
  end.

Definition _findConnection (s : nat) (st : t) : option nat :=
  find_in s (heap st) (enumerate (_connections st)).

(** [_sendTo(msg, to)].  The last component is the message object after
    the call ([msg.control] may have been set), or [None] when the call
    threw.  A member of [Object.prototype] is not [undefined]; it has no
    [socket] and no [outgoingBuffer], and the [push] throws. *)
Definition _sendTo (msg : Msg) (to : string) (st : t)
  : t * list Out * option Msg :=
  match read to (table_get to (_connections st)) with
  | Missing => (st, [Throw "Invalid destination for server message"], None)
  | Member => (st, [Throw "TypeError"], None)
  | Own a =>
      match heap st !! a with
      | None => (st, [Throw "TypeError"], None)
      | Some connection =>
          match socket connection with
          | Some s =>
              if dataOk connection then
                (st, [SockSend s (tag_data msg)], Some (tag_data msg))
              else
                (set_conn a (mkConn (socket connection) (dataOk connection)
                               (closeOk connection) (closeCallback connection)
                               (pingTimeout connection)
                               (outgoingBuffer connection ++ [msg])
                               (c_identity connection)) st,
                 [], Some msg)
          | None =>
              (set_conn a (mkConn (socket connection) (dataOk connection)
                             (closeOk connection) (closeCallback connection)
                             (pingTimeout connection)
                             (outgoingBuffer connection ++ [msg])
                             (c_identity connection)) st,
               [], Some msg)
          end
      end
  end.

Fixpoint sendTo_each (msg : Msg) (ids : list string) (st : t)
  : t * list Out * option Msg :=
  match ids with
  | [] => (st, [], Some msg)
  | id :: rest =>
      match _sendTo msg id st with
      | (st1, o1, Some msg1) =>
          let '(st2, o2, r) := sendTo_each msg1 rest st1 in (st2, o1 ++ o2, r)
      | (st1, o1, None) => (st1, o1, None)
      end
  end.

(** [send(msg, to)]; [to = None] is the broadcast ([to] omitted). *)
Definition send (msg : Msg) (to : option string) (st : t)
  : t * list Out * option Msg :=
  match to with
  | Some id => _sendTo msg id st
  | None => sendTo_each msg (map fst (enumerate (_connections st))) st
  end.

(** [sendMany(buffer, to)]; the boolean tells whether it returned
    normally. *)
Fixpoint sendMany (buffer : list Msg) (to : option string) (st : t)
  : t * list Out * bool :=
  match buffer with
  | [] => (st, [], true)
  | msg :: rest =>
      match send msg to st with
      | (st1, o1, Some _) =>
          let '(st2, o2, ok) := sendMany rest to st1 in (st2, o1 ++ o2, ok)
      | (st1, o1, None) => (st1, o1, false)
      end
  end.

(** [_handleConnection(socket)]: a fresh record, captured by the
    handlers of the new socket. *)
Definition fresh_record (s : nat) : Conn :=
  mkConn (Some s) false false false PingOff [] None.

Definition _handleConnection (st : t) : t * list Out :=
  let s := length (closure st) in
  (mk (_connections st) (heap st ++ [fresh_record s])
      (closure st ++ [length (heap st)]) (authToken st) (timers st),
   [Console "New connection from client"]).

(** [msg.token !== this._platform.getAuthToken()] negated. *)
Definition strict_eq_token (v : JsVal) (configured : option string) : bool :=
  match v, configured with
  | JStr s, Some t => bool_decide (s = t)
  | JUndefined, None => true
  | _, _ => false
  end.

Definition is_string (v : JsVal) : bool :=
  match v with JStr _ => true | _ => false end.

(** The test that sends an [auth] frame to the rejection branch. *)
Definition auth_rejected (msg : Msg) (configured : option string) : bool :=
  negb (bool_decide (control msg = JStr "auth"))
  || negb (is_string (identity msg))
  || bool_decide (token msg = JUndefined)
  || negb (strict_eq_token (token msg) configured).


(** What the reads of the authentication branch find on a member of
    [Object.prototype]: its [socket], [pingTimeout] and [outgoingBuffer]
    are [undefined]. *)
Definition member_record : Conn :=
  mkConn None false false false PingUndefined [] None.

(** [var oldConnection = this._connections[connection.identity]], read
    through the heap [h]: the record is looked up once and its fields
    are read as they are at the time. *)
Definition oldConnection (id : string) (tbl : list (string * nat))
    (h : list Conn) : option Conn :=
  match read id (table_get id tbl) with
  | Own ao => h !! ao
  | Member => Some member_record
  | Missing => None
  end.

Section Platform.
(** [platform.setAuthToken(token)], given the token configured so far:
    the token configured afterwards and the boolean it returns. *)
Variable setAuthToken : string → option string → option string * bool.

(** The success branch of the pre-authentication handler, for the
    socket [s] whose handlers captured the record at [a]. *)
Definition authenticate (s a : nat) (id : string) (st : t) : t * list Out :=
  match heap st !! a with
  | None => (st, [])
  | Some connection =>
    let st1 := set_conn a (mkConn (socket connection) true (closeOk connection)
                             (closeCallback connection) (pingTimeout connection)
                             (outgoingBuffer connection) (Some id)) st in
    let old := oldConnection id (_connections st1) in
    let outs_old :=
      match old (heap st1) with
      | Some oc =>
          (match socket oc with Some s' => [SockTerminate s'] | None => [] end)
          ++ (if decide (pingTimeout oc = PingOff) then []
              else [ClearInterval (pingTimeout oc)])
      | None => []
      end in
    let st2 := set_table (table_set id a (_connections st1)) st1 in
    let timer := timers st2 in
    let st3 :=
      match heap st2 !! a with
      | Some c => mk (_connections st2)
                     (<[a := mkConn (socket c) (dataOk c) (closeOk c)
                               (closeCallback c) (PingTimer timer)
                               (outgoingBuffer c) (c_identity c)]> (heap st2))
                     (closure st2) (authToken st2) (S timer)
      | None => st2
      end in
    let '(st4, outs_send, ok) :=
      match old (heap st3) with
      | Some oc => sendMany (outgoingBuffer oc) (Some id) st3
      | None => (st3, [], true)
      end in
    (st4, [Console "Client successfully authenticated"] ++ outs_old
          ++ [SetInterval timer a] ++ outs_send
          ++ (if ok then [EmitConnected id] else []))
  end.

(** The ['message'] handler of socket [s]. *)
Definition on_message (s : nat) (data : Wire) (st : t) : t * list Out :=
  match closure st !! s with
  | None => (st, [])
  | Some a =>
    match heap st !! a with
    | None => (st, [])
    | Some connection =>
      match data with
      | Unparsable => (st, [Console "Error parsing client message"])
      | ParsedNull =>
          if negb (dataOk connection) then (st, [Throw "TypeError"])
          else match _findConnection s st with
               | None => (st, [])
               | Some _ => (st, [Throw "TypeError"])
               end
      | Parsed msg =>
          if negb (dataOk connection) then
            if decide (control msg = JStr "set-auth-token") then
              let '(configured, accepted) :=
                if truthy (token msg)
                then setAuthToken (to_String (token msg)) (authToken st)
                else (authToken st, false) in
              let detached :=
                mkConn None false true false (pingTimeout connection)
                       (outgoingBuffer connection) (c_identity connection) in
              (mk (_connections st) (<[a := detached]> (heap st))
                  (closure st) configured (timers st),
               if accepted
               then [Console "Received auth token from client";
                     SockSend s (control_frame "auth-token-ok")]
               else [Console "Invalid initial setup message";
                     SockSend s (control_frame "auth-token-error")])
            else if auth_rejected msg (authToken st) then
              (st, [Console "Invalid authentication message"; SockTerminate s])
            else
              match identity msg with
              | JStr id => authenticate s a id st
              | _ => (st, [])
              end
          else
            match _findConnection s st with
            | None => (st, [])
            | Some _ =>
                if decide (control msg = JStr "data") then
                  (st, [EmitMessage (delete_control msg) (c_identity connection)])
                else
                  (st, [Console ("Invalid control message "
                                 +:+ to_String (control msg))])
            end
      end
    end
  end.

(** The ['close'] handler of socket [s]. *)
Definition on_close (s : nat) (st : t) : t * list Out :=
  match _findConnection s st with
  | None => (st, [])
  | Some a =>
    match heap st !! a with
    | None => (st, [])
    | Some connection =>
        let cleared := if decide (pingTimeout connection = PingOff) then []
                       else [ClearInterval (pingTimeout connection)] in
        if closeOk connection then
          (st, cleared ++ (if closeCallback connection then [CloseCallback] else []))
        else
          (set_conn a (mkConn None false false (closeCallback connection)
                         (pingTimeout connection) (outgoingBuffer connection)
                         (c_identity connection)) st,
           cleared ++ [Console ("Lost connection from client with identity "
                                +:+ default "undefined" (c_identity connection))])
    end
  end.

(** [closeOne(identity)], up to the point where it waits for the peer
    (the ten-second timer is not part of the model).  A member of
    [Object.prototype] passes the test [!connection]; its [socket] is
    not [null] and the [send] throws inside the promise, which rejects
    with that error. *)
Definition closeOne (id : string) (st : t) : t * list Out :=
  match read id (table_get id (_connections st)) with
  | Missing => (st, [])
  | Member => (st, [Throw "TypeError"])
  | Own a =>
    match heap st !! a with
    | None => (st, [])
    | Some connection =>
        match socket connection with
        | Some s =>
            (set_conn a (mkConn (socket connection) (dataOk connection) true true
                           (pingTimeout connection) (outgoingBuffer connection)
                           (c_identity connection)) st,
             [SockSend s (control_frame "close")])
        | None =>
            (set_conn a (mkConn (socket connection) (dataOk connection) false false
                           (pingTimeout connection) (outgoingBuffer connection)
                           (c_identity connection)) st, [])
        end
    end
  end.

(** *** The server as a reactive system *)

Inductive Input :=
| InConnect
| InFrame (s : nat) (data : Wire)
| InSocketClose (s : nat)
| InSend (msg : Msg) (to : option string)
| InCloseOne (id : string).

Definition step (i : Input) (st : t) : t * list Out :=
  match i with
  | InConnect => _handleConnection st
  | InFrame s data => on_message s data st
  | InSocketClose s => on_close s st
  | InSend msg to => let '(st', outs, _) := send msg to st in (st', outs)
  | InCloseOne id => closeOne id st
  end.

(** One entry of a run: the state an input met, the input, and what the
    server did in response. *)
Record Entry := mkEntry { pre : t; input : Input; outs : list Out }.

Fixpoint exec (st : t) (ins : list Input) : list Entry :=
  match ins with
  | [] => []
  | i :: rest => let '(st', o) := step i st in mkEntry st i o :: exec st' rest
  end.

Fixpoint final (st : t) (ins : list Input) : t :=
  match ins with
  | [] => st
  | i :: rest => final (step i st).1 rest
  end.

(** An entry in which socket [s] presented an [auth] frame with a string
    identity and the token configured at that moment, and the server
    took the success branch. *)
Definition accepted_auth (s : nat) (e : Entry) : Prop :=
  ∃ msg id tok a c,
    input e = InFrame s (Parsed msg) ∧
    control msg = JStr "auth" ∧ identity msg = JStr id ∧
    token msg = JStr tok ∧ authToken (pre e) = Some tok ∧
    closure (pre e) !! s = Some a ∧ heap (pre e) !! a = Some c ∧
    dataOk c = false ∧
    Console "Client successfully authenticated" ∈ outs e.

Definition delivers (e : Entry) : Prop :=
  ∃ m from, EmitMessage m from ∈ outs e.

Definition authed_before (s : nat) (h : list Entry) : Prop :=
  ∃ e, e ∈ h ∧ accepted_auth s e.

(** Two records that differ at most in their [outgoingBuffer]. *)
Definition same_but_buffer (c c' : Conn) : Prop :=
  socket c' = socket c ∧ dataOk c' = dataOk c ∧ closeOk c' = closeOk c
  ∧ closeCallback c' = closeCallback c ∧ pingTimeout c' = pingTimeout c
  ∧ c_identity c' = c_identity c.

(** A transition that can only have appended to outgoing buffers. *)
Definition buffers_only (st st' : t) : Prop :=
  _connections st' = _connections st ∧ closure st' = closure st
  ∧ authToken st' = authToken st ∧ timers st' = timers st
  ∧ Forall2 same_but_buffer (heap st) (heap st').

(** Outputs that are socket writes or exceptions. *)
Definition is_wire (o : Out) : Prop :=
  match o with SockSend _ _ | Throw _ => True | _ => False end.

(** The state is well formed and every socket whose record says
    [dataOk] has authenticated earlier in the run [h]. *)
Definition gate_invariant (st : t) (h : list Entry) : Prop :=
  NoDup (closure st)
  ∧ (∀ s a, closure st !! s = Some a → a < length (heap st))
  ∧ (∀ s a c, closure st !! s = Some a → heap st !! a = Some c →
              dataOk c = true → authed_before s h).

(** The frames written to socket [s]. *)
Definition sent_on (s : nat) (os : list Out) : list Msg :=
  omap (fun o => match o with
                 | SockSend s' m => if decide (s' = s) then Some m else None
                 | _ => None
                 end) os.

(** Messages sent to one identity, one call each. *)
Definition sends_to (id : string) (msgs : list Msg) : list Input :=
  map (fun m => InSend m (Some id)) msgs.


(** The socket of the record registered under [id], if it has one. *)
Definition socket_of (id : string) (st : t) : option nat :=
  match table_get id (_connections st) with
  | Some a => match heap st !! a with
              | Some c => socket c
              | None => None
              end
  | None => None
  end.

(** [close()], up to the point where it waits for the peers: the
    identities of the table are gone through in the order of
    [for .. in], and each record is treated as [closeOne] treats it. *)
Definition close_next (acc : t * list Out) (id : string) : t * list Out :=
  let '(st', o) := closeOne id acc.1 in (st', acc.2 ++ o).

Definition close (st : t) : t * list Out :=
  foldl close_next (st, []) (map fst (enumerate (_connections st))).

(** The flags [close()] and [closeOne] leave on a record: it waits for
    the peer exactly when it holds a socket. *)
Definition asked_to_close (c : Conn) : Prop :=
  closeOk c = bool_decide (socket c ≠ None) ∧ closeCallback c = closeOk c.

(** Two heaps whose records hold the same sockets. *)
Definition same_sockets (h h' : list Conn) : Prop :=
  Forall2 (fun c c' => socket c' = socket c ∧ dataOk c' = dataOk c
                       ∧ outgoingBuffer c' = outgoingBuffer c) h h'.




End Platform.
End Server.

(** ** ClientConnection *)

Module Client.

Inductive Out :=
| SockConnect (n : nat)
| SockSend (s : nat) (m : Msg)
| SockSendObject (s : nat) (m : Msg)
| SockClose (s : nat)
| EmitFailed (unsent : list Msg)
| EmitMessage (m : Msg)
| Console (line : string)
| Throw (msg : string).

#[global] Instance Out_eq_dec : EqDecision Out.
Proof. solve_decision. Defined.

(** The fields of [ClientConnection].  Sockets are numbered by the
    connection attempt that created them; [attempts] counts the
    [new WebSocket] calls so far and [awaiting] lists the attempts whose
    promise is still pending. *)
Record t := mk {
  _identity : string;
  _authToken : option string;
  _closeOk : bool;
  _socket : option nat;
  _outgoingBuffer : list Msg;
  _ratelimitTimer : option Z;
  _retryAttempts : Z;
  attempts : nat;
  awaiting : list nat
}.

(** [constructor(serverAddress, identity, targetIdentity, authToken)] *)
Definition create (id : string) (tok : option string) : t :=
  mk id tok false None [] None 3 0 [].

(** [open()], up to the point where the promise is pending. *)
Definition open (st : t) : t * list Out :=
  let retry := (_retryAttempts st - 1)%Z in
  (mk (_identity st) (_authToken st) (_closeOk st) (_socket st)
      (_outgoingBuffer st) (_ratelimitTimer st) retry
      (S (attempts st)) (awaiting st ++ [attempts st]),
   [Console ("Attempting connection to the server, try "
             +:+ pretty (3 - retry)%Z +:+ " of 3");
    SockConnect (attempts st)]).

(** [_onConnected(socket)] at clock value [now]. *)
Definition _onConnected (s : nat) (now : Z) (st : t) : t * list Out :=
  (mk (_identity st) (_authToken st) (_closeOk st) (Some s)
      [] (Some now) (_retryAttempts st) (attempts st) (awaiting st),
   [Console "Successfully connected to server"]
   ++ (match _authToken st with
       | Some tok => [SockSend s (mkMsg (JStr "auth") (JStr (_identity st))
                                        (JStr tok) "")]
       | None => []
       end)
   ++ map (fun msg => SockSendObject s (tag_data msg)) (_outgoingBuffer st)).

(** The rejection handler chained to the connection promise in [open]. *)
Definition connect_failed (st : t) : t * list Out :=
  if (0 <? _retryAttempts st)%Z then
    let '(st', o) := open st in
    (st', Console "Failed to connect to server" :: o)
  else
    (st, [Console "Failed to connect to server";
          EmitFailed (_outgoingBuffer st)]).

(** [_onConnectionLost()] at clock value [now]. *)
Definition _onConnectionLost (now : Z) (st : t) : t * list Out :=
  if _closeOk st then (st, [])
  else
    let st1 := mk (_identity st) (_authToken st) (_closeOk st) None
                  (_outgoingBuffer st) (_ratelimitTimer st)
                  (_retryAttempts st) (attempts st) (awaiting st) in
    match _ratelimitTimer st1 with
    | None => (st1, [Console "Lost connection to the server"; Throw "TypeError"])
    | Some since =>
        let '(retry, st2, o2) :=
          if (now - since <? 60000)%Z then
            (if (0 <? _retryAttempts st1)%Z then true else false, st1, [])
          else
            (true,
             mk (_identity st1) (_authToken st1) (_closeOk st1) (_socket st1)
                (_outgoingBuffer st1) (_ratelimitTimer st1) 3
                (attempts st1) (awaiting st1),
             [Console "Resetting retry limit"]) in
        if retry then
          let '(st3, o3) := open st2 in
          (st3, [Console "Lost connection to the server"] ++ o2 ++ o3)
        else
          (st2, [Console "Lost connection to the server"] ++ o2
                ++ [EmitFailed (_outgoingBuffer st2)])
    end.

(** [close()] *)
Definition close (st : t) : t * list Out :=
  match _socket st with
  | None => (st, [Throw "TypeError"])
  | Some s =>
      (mk (_identity st) (_authToken st) true None (_outgoingBuffer st)
          (_ratelimitTimer st) (_retryAttempts st) (attempts st) (awaiting st),
       [SockClose s])
  end.

(** [send(msg)] *)
Definition send (msg : Msg) (st : t) : t * list Out :=
  match _socket st with
  | Some s => (st, [SockSend s (tag_data msg)])
  | None =>
      (mk (_identity st) (_authToken st) (_closeOk st) (_socket st)
          (_outgoingBuffer st ++ [msg]) (_ratelimitTimer st)
          (_retryAttempts st) (attempts st) (awaiting st), [])
  end.

(** [sendMany(buffer)] *)
Fixpoint sendMany (buffer : list Msg) (st : t) : t * list Out :=
  match buffer with
  | [] => (st, [])
  | msg :: rest =>
      let '(st1, o1) := send msg st in
      let '(st2, o2) := sendMany rest st1 in (st2, o1 ++ o2)
  end.

Definition expected_control (v : JsVal) : bool :=
  bool_decide (v ∈ [JStr "auth-token-ok"; JStr "auth-token-error";
                    JStr "data"; JStr "close"]).

(** The ['message'] handler installed by [_onConnected] on socket [s]. *)
Definition on_message (s : nat) (data : Wire) (st : t) : t * list Out :=
  if decide (_socket st = Some s) then
    match data with
    | Unparsable => (st, [Console "Error parsing server message"])
    | ParsedNull => (st, [Throw "TypeError"])
    | Parsed msg =>
        if negb (expected_control (control msg)) then
          (st, [Console ("Invalid control message " +:+ to_String (control msg))])
        else if decide (control msg = JStr "close") then
          let '(st', o) := close st in
          (st', [Console "Server requested connection shutdown"] ++ o
                ++ [EmitFailed (_outgoingBuffer st')])
        else if decide (control msg = JStr "data") then
          (st, [EmitMessage (delete_control msg)])
        else (st, [EmitMessage msg])
    end
  else (st, []).

(** The ['close'] handler installed by [_onConnected] on socket [s]. *)
Definition on_close (s : nat) (now : Z) (st : t) : t * list Out :=
  if decide (_socket st = Some s) then _onConnectionLost now st else (st, []).

Definition settle (n : nat) (st : t) : t :=
  mk (_identity st) (_authToken st) (_closeOk st) (_socket st)
     (_outgoingBuffer st) (_ratelimitTimer st) (_retryAttempts st)
     (attempts st) (filter (fun m => m ≠ n) (awaiting st)).

(** *** The client as a reactive system

    [ConnectOk n now] and [ConnectFail n] settle the promise of attempt
    [n] (the socket opened at clock value [now]; an error or the
    ten-second timeout); a promise settles once. *)
Inductive Input :=
| UserOpen
| UserSend (msg : Msg)
| UserClose
| ConnectOk (n : nat) (now : Z)
| ConnectFail (n : nat)
| SocketClosed (s : nat) (now : Z)
| Frame (s : nat) (data : Wire).

Definition step (i : Input) (st : t) : t * list Out :=
  match i with
  | UserOpen => open st
  | UserSend msg => send msg st
  | UserClose => close st
  | ConnectOk n now =>
      if bool_decide (n ∈ awaiting st) then _onConnected n now (settle n st)
      else (st, [])
  | ConnectFail n =>
      if bool_decide (n ∈ awaiting st) then connect_failed (settle n st)
      else (st, [])
  | SocketClosed s now => on_close s now st
  | Frame s data => on_message s data st
  end.

Record Entry := mkEntry { pre : t; input : Input; outs : list Out; post : t }.

Fixpoint exec (st : t) (ins : list Input) : list Entry :=
  match ins with
  | [] => []
  | i :: rest =>
      let '(st', o) := step i st in mkEntry st i o st' :: exec st' rest
  end.

Definition all_outs (h : list Entry) : list Out := flat_map outs h.

Definition is_attempt (o : Out) : bool :=
  match o with SockConnect _ => true | _ => false end.

Definition is_failure (o : Out) : bool :=
  bool_decide (o = Console "Failed to connect to server"
               ∨ o = Console "Lost connection to the server").

Definition count_attempts (os : list Out) : nat := length (filter is_attempt os).
Definition count_failures (os : list Out) : nat := length (filter is_failure os).

Definition connection_attempts (h : list Entry) : nat :=
  count_attempts (all_outs h).

Definition connection_failures (h : list Entry) : nat :=
  count_failures (all_outs h).

(** Where a client that was opened once stands after [k] failures: the
    budget left, and whether an attempt is pending, a session is up, or
    the client has given up. *)
Definition budget_state (k : nat) (st : t) : Prop :=
  _closeOk st = false
  ∧ _retryAttempts st = Z.of_nat (2 - k)
  ∧ ((k ≤ 2 ∧ _socket st = None ∧ ∃ n, awaiting st = [n])
     ∨ (k ≤ 2 ∧ awaiting st = [] ∧ is_Some (_ratelimitTimer st)
        ∧ ∃ n, _socket st = Some n)
     ∨ (k = 3 ∧ awaiting st = [] ∧ _socket st = None)).

(** A client as the constructor leaves it, up to messages already
    handed to [send]. *)
Definition unopened (st : t) : Prop :=
  _closeOk st = false ∧ _socket st = None ∧ _retryAttempts st = 3%Z
  ∧ awaiting st = [].

(** The client with its socket dropped and its retry budget back at 3. *)
Definition replenished (st : t) : t :=
  mk (_identity st) (_authToken st) (_closeOk st) None (_outgoingBuffer st)
     (_ratelimitTimer st) 3 (attempts st) (awaiting st).

(** The entry reports ['failed'] with the whole outgoing buffer, and
    leaves the buffer as it was. *)
Definition gives_up (e : Entry) : Prop :=
  last (outs e) = Some (EmitFailed (_outgoingBuffer (pre e)))
  ∧ _outgoingBuffer (post e) = _outgoingBuffer (pre e).

(** The socket drop of this entry, if it is one, ends a session that
    lasted less than sixty seconds. *)
Definition immediate (e : Entry) : bool :=
  match input e with
  | SocketClosed s now =>
      match _ratelimitTimer (pre e) with
      | Some since => (now - since <? 60000)%Z
      | None => true
      end
  | _ => true
  end.

(** Inputs that come from the network or from [send]: no further
    [open()] or [close()] by the caller, no inbound frames. *)
Definition unattended (i : Input) : bool :=
  match i with
  | UserSend _ | ConnectOk _ _ | ConnectFail _ | SocketClosed _ _ => true
  | _ => false
  end.

(** The entry leaves the client closed; a socket drop does nothing at
    all, and no entry asks for a connection unless the caller opens the
    client again. *)
Definition stays_closed (e : Entry) : Prop :=
  _closeOk (post e) = true
  ∧ match input e with
    | SocketClosed _ _ => outs e = [] ∧ post e = pre e
    | UserOpen | ConnectFail _ => True
    | _ => count_attempts (outs e) = 0
    end.

(** What the socket of attempt [n] is handed when it opens: the
    authentication frame, if the client has a token, as text; then the
    messages, tagged, as the objects they are. *)
Definition greeting (n : nat) (st : t) (msgs : list Msg) : list Out :=
  match _authToken st with
  | Some tok => [SockSend n (mkMsg (JStr "auth") (JStr (_identity st))
                                   (JStr tok) "")]
  | None => []
  end ++ map (fun msg => SockSendObject n (tag_data msg)) msgs.

End Client.

(** ** PipeSinkChannel *)

Module Pipe.
Section Sink.
Context {Ev : Type}.

(** The sink end of a pipe.  Sources are objects, named by their
    address; [timeouts] holds the events of the [setTimeout(.., 0)]
    callbacks [sendEvent] has scheduled and that have not run yet. *)
Record Sink := mkSink {
  _sources : list nat;
  timeouts : list Ev
}.

(** [_init(name, pipeManager)] *)
Definition new : Sink := mkSink [] [].

(** [addSource(source)] *)
Definition addSource (source : nat) (k : Sink) : Sink :=
  mkSink (_sources k ++ [source]) (timeouts k).

(** [removeSource(source)] *)
Definition removeSource (source : nat) (k : Sink) : Sink :=
  mkSink (filter (fun s => s ≠ source) (_sources k)) (timeouts k).

(** [hasSources()] *)
Definition hasSources (k : Sink) : bool :=
  bool_decide (0 < length (_sources k)).

(** [sendEvent(event)]: only schedules the fan-out. *)
Definition sendEvent (event : Ev) (k : Sink) : Sink :=
  mkSink (_sources k) (timeouts k ++ [event]).

(** The scheduled callback: [source.emitEvent(event)] for every source
    attached when it runs.  The result lists the calls made. *)
Definition fan_out (event : Ev) (k : Sink) : list (nat * Ev) :=
  map (fun source => (source, event)) (_sources k).

(** The event loop runs the oldest pending callback. *)
Definition tick (k : Sink) : Sink * list (nat * Ev) :=
  match timeouts k with
  | [] => (k, [])
  | event :: later => (mkSink (_sources k) later, fan_out event k)
  end.

Inductive Op :=
| AddSource (source : nat)
| RemoveSource (source : nat)
| SendEvent (event : Ev)
| Tick.

Definition step (o : Op) (k : Sink) : Sink * list (nat * Ev) :=
  match o with
  | AddSource s => (addSource s k, [])
  | RemoveSource s => (removeSource s k, [])
  | SendEvent e => (sendEvent e k, [])
  | Tick => tick k
  end.

Fixpoint exec (ops : list Op) (k : Sink) : Sink * list (nat * Ev) :=
  match ops with
  | [] => (k, [])
  | o :: rest =>
      let '(k1, d1) := step o k in
      let '(k2, d2) := exec rest k1 in (k2, d1 ++ d2)
  end.


(** The events a given source received, in order. *)
Definition received (source : nat) (ds : list (nat * Ev)) : list Ev :=
  omap (fun d => if decide (d.1 = source) then Some d.2 else None) ds.

(** The events handed to [sendEvent] by a series of operations, and
    whether an operation attaches or detaches the source [s]. *)
Definition sent (ops : list Op) : list Ev :=
  omap (fun o => match o with SendEvent e => Some e | _ => None end) ops.

Definition touches (s : nat) (o : Op) : bool :=
  match o with
  | AddSource s' | RemoveSource s' => bool_decide (s' = s)
  | _ => false
  end.


End Sink.
Arguments Sink : clear implicits.
Arguments Op : clear implicits.
End Pipe.

(** ** PipeManager

    The registry of [lib/tiers/pipes.js] that wires the ends of named
    pipes together.  Channel objects are named by their address, the
    number of objects built before them.  The three tables are plain
    objects: [name in table] holds for the names the table has a
    property for and for the names of the members of
    [Object.prototype]. *)

Module PipeManager.
Section Manager.
Context {Ev : Type}.
(** [tierManager.getOtherTiers()] *)
Variable otherTiers : list Factory.Tier.

(** A proxy channel obtained from [proxyManager.getProxyChannel], known
    by the arguments of the call that made it. *)
Record ProxyCall := mkProxyCall {
  pc_targetChannelId : string;
  pc_targetTier : Factory.Tier;
  pc_device : string;
  pc_kind : string;
  pc_mode : string
}.

(** The three tables of the manager; [sinks] holds the sink objects
    and [proxies_of] the [_proxies] of each [PipeLocalSourceChannel]. *)
Record t := mk {
  _pipeSinks : gmap string nat;
  _pipeLocalSources : gmap string nat;
  _pipeProxySources : gmap string nat;
  sinks : gmap nat (Pipe.Sink Ev);
  proxies_of : gmap nat (list ProxyCall);
  objects : nat
}.

(** [constructor(tierManager, proxyManager)] *)
Definition new : t := mk ∅ ∅ ∅ ∅ ∅ 0.

(** What a request for an end returns: the channel itself when it has
    just been built, a promise for it when it was registered already,
    and a promise for the member of [Object.prototype] when the name is
    that of a member. *)
Inductive Handed :=
| Plain (channel : nat)
| Promised (channel : nat)
| PromisedMember.

Definition channel_of (h : Handed) : option nat :=
  match h with
  | Plain a | Promised a => Some a
  | PromisedMember => None
  end.

(** How a call ends. *)
Inductive Ended :=
| Done
| TypeError.

(** [removeSink(name)]: [delete] removes a property of the table's own
    and nothing else. *)
Definition removeSink (name : string) (st : t) : t :=
  mk (delete name (_pipeSinks st)) (_pipeLocalSources st)
     (_pipeProxySources st) (sinks st) (proxies_of st) (objects st).

(** [removeSource(name, source)]: a member of [Object.prototype] is
    never the source, and has no [removeSource] to call. *)
Definition removeSource (name : string) (source : nat) (st : t) : t * Ended :=
  (mk (_pipeSinks st)
      (if decide (_pipeLocalSources st !! name = Some source)
       then delete name (_pipeLocalSources st) else _pipeLocalSources st)
      (if decide (_pipeProxySources st !! name = Some source)
       then delete name (_pipeProxySources st) else _pipeProxySources st)
      (match _pipeSinks st !! name with
       | Some k => alter (Pipe.removeSource source) k (sinks st)
       | None => sinks st
       end)
      (proxies_of st) (objects st),
   match read name (_pipeSinks st !! name) with
   | Member => TypeError
   | _ => Done
   end).

(** [getProxyNamedPipe(name)].  Past the first test the name is not
    that of a member, and [name in this._pipeSinks] asks for a property
    of the table's own. *)
Definition getProxyNamedPipe (name : string) (st : t) : t * Handed :=
  match read name (_pipeProxySources st !! name) with
  | Own p => (st, Promised p)
  | Member => (st, PromisedMember)
  | Missing =>
      let proxyPipe := objects st in
      (mk (_pipeSinks st) (_pipeLocalSources st)
          (<[name := proxyPipe]> (_pipeProxySources st))
          (match _pipeSinks st !! name with
           | Some k => alter (Pipe.addSource proxyPipe) k (sinks st)
           | None => sinks st
           end)
          (proxies_of st) (S (objects st)),
       Plain proxyPipe)
  end.

(** [getLocalSourceNamedPipe(name)] *)
Definition getLocalSourceNamedPipe (name : string) (st : t) : t * Handed :=
  match read name (_pipeLocalSources st !! name) with
  | Own l => (st, Promised l)
  | Member => (st, PromisedMember)
  | Missing =>
      let proxies :=
        map (fun tier => mkProxyCall ("pipe-" +:+ name +:+ "-source") tier
                           "thingengine-pipe-system" name "r") otherTiers in
      let sourcePipe := objects st in
      (mk (_pipeSinks st) (<[name := sourcePipe]> (_pipeLocalSources st))
          (_pipeProxySources st)
          (match _pipeSinks st !! name with
           | Some k => alter (Pipe.addSource sourcePipe) k (sinks st)
           | None => sinks st
           end)
          (<[sourcePipe := proxies]> (proxies_of st)) (S (objects st)),
       Plain sourcePipe)
  end.

(** [getLocalSinkNamedPipe(name)] *)
Definition getLocalSinkNamedPipe (name : string) (st : t) : t * Handed :=
  match read name (_pipeSinks st !! name) with
  | Own k => (st, Promised k)
  | Member => (st, PromisedMember)
  | Missing =>
      let sinkPipe := Pipe.new in
      let sinkPipe :=
        match _pipeLocalSources st !! name with
        | Some l => Pipe.addSource l sinkPipe
        | None => sinkPipe
        end in
      let sinkPipe :=
        match _pipeProxySources st !! name with
        | Some p => Pipe.addSource p sinkPipe
        | None => sinkPipe
        end in
      (mk (<[name := objects st]> (_pipeSinks st)) (_pipeLocalSources st)
          (_pipeProxySources st) (<[objects st := sinkPipe]> (sinks st))
          (proxies_of st) (S (objects st)),
       Plain (objects st))
  end.

(** [sendEvent(event)] on the sink object at [k], and the deferred
    callback of that sink running. *)
Definition sendEvent (k : nat) (event : Ev) (st : t) : t :=
  mk (_pipeSinks st) (_pipeLocalSources st) (_pipeProxySources st)
     (alter (Pipe.sendEvent event) k (sinks st)) (proxies_of st) (objects st).

Definition tick (k : nat) (st : t) : t * list (nat * Ev) :=
  match sinks st !! k with
  | Some sink =>
      let '(sink', calls) := Pipe.tick sink in
      (mk (_pipeSinks st) (_pipeLocalSources st) (_pipeProxySources st)
          (<[k := sink']> (sinks st)) (proxies_of st) (objects st), calls)
  | None => (st, [])
  end.

(** *** The manager in use

    Ends are requested and closed in any order.  Closing the sink of
    [name] runs its [_doClose], which is [removeSink(name)]; closing a
    source object runs [removeSource(name, this)] with the name the
    object was built for. *)
Inductive Op :=
| GetProxy (name : string)
| GetLocalSource (name : string)
| GetSink (name : string)
| CloseSink (name : string)
| CloseSource (name : string) (source : nat)
| Send (k : nat) (event : Ev)
| Tick (k : nat).

Definition step (st : t) (o : Op) : t :=
  match o with
  | GetProxy name => (getProxyNamedPipe name st).1
  | GetLocalSource name => (getLocalSourceNamedPipe name st).1
  | GetSink name => (getLocalSinkNamedPipe name st).1
  | CloseSink name => removeSink name st
  | CloseSource name source => (removeSource name source st).1
  | Send k event => sendEvent k event st
  | Tick k => (tick k st).1
  end.

Definition run (ops : list Op) : t := foldl step new ops.

(** The source ends registered for [name]. *)
Definition ends (name : string) (st : t) : list nat :=
  option_list (_pipeLocalSources st !! name)
  ++ option_list (_pipeProxySources st !! name).

(** Every registered object has been built, and no sink object is
    registered under two names. *)
Definition well_formed (st : t) : Prop :=
  (∀ name k, _pipeSinks st !! name = Some k → k < objects st)
  ∧ (∀ name l, _pipeLocalSources st !! name = Some l → l < objects st)
  ∧ (∀ name p, _pipeProxySources st !! name = Some p → p < objects st)
  ∧ (∀ n1 n2 k, _pipeSinks st !! n1 = Some k → _pipeSinks st !! n2 = Some k →
                n1 = n2).

(** The registered sink of every name pushes to the registered sources
    of that name, and to nothing else. *)
Definition wired (st : t) : Prop :=
  ∀ name k, _pipeSinks st !! name = Some k →
    ∃ sink, sinks st !! k = Some sink ∧ Pipe._sources sink ≡ₚ ends name st.

(** No table has a property of its own under the name of a member of
    [Object.prototype]. *)
Definition plain_names (st : t) : Prop :=
  ∀ name, inherited name = true →
    _pipeSinks st !! name = None ∧ _pipeLocalSources st !! name = None
    ∧ _pipeProxySources st !! name = None.

End Manager.
Arguments t : clear implicits.
Arguments Op : clear implicits.
End PipeManager.

(** ** ChannelOpener *)

Module Opener.

(** A channel as the opener sees it: its [uniqueId] and its identity. *)
Record Chan := mkChan { ch_uniqueId : string; ch_obj : nat }.

#[global] Instance Chan_eq_dec : EqDecision Chan.
Proof. solve_decision. Defined.

(** What a call can do: throw synchronously, or return a promise. *)
Inductive Completion (A : Type) :=
| Threw (e : JsError)
| Returned (p : Outcome A).
Arguments Threw {A} e.
Arguments Returned {A} p.

Section WithParams.
Context {Params : Type}.

(** A member of the device view: the three methods return promises. *)
Record Device := mkDevice {
  uniqueId : string;
  getTrigger : string → Params → Outcome Chan;
  getQuery : string → Outcome Chan;
  getAction : string → Outcome Chan
}.

Record t := mk {
  _mode : string;
  _channelName : string;
  _params : Params;
  _view : list Device;
  _set : list Chan;
  console : list string
}.

(** Modelled from the spec: [ObjectSet.Simple] of the thingpedia library
    (not part of the sources at hand), the "observable set" the opener
    exposes: [addOne] of a promise adds what the promise resolves to and
    rejects when it rejects; [null] stands for "no channel" and adds
    nothing; a member is identified by its [uniqueId]. *)
Definition set_has (id : string) (s : list Chan) : bool :=
  bool_decide (id ∈ map ch_uniqueId s).

Definition addOne (o : Outcome (option Chan)) (s : list Chan)
  : list Chan * Outcome unit :=
  match o with
  | Rejected e => (s, Rejected e)
  | Resolved None => (s, Resolved tt)
  | Resolved (Some c) =>
      if set_has (ch_uniqueId c) s then (s, Resolved tt)
      else (s ++ [c], Resolved tt)
  end.

Definition removeIf (p : Chan → bool) (s : list Chan) : list Chan * list Chan :=
  (filter (fun c => ¬ p c) s, filter (fun c => p c) s).

Definition log (lines : list string) (st : t) : t :=
  mk (_mode st) (_channelName st) (_params st) (_view st) (_set st)
     (console st ++ lines).

Definition with_set (s : list Chan) (st : t) : t :=
  mk (_mode st) (_channelName st) (_params st) (_view st) s (console st).

(** The promise the device returns for the opener's mode, or [None]
    for a mode that is none of ['r'], ['q'], ['w']. *)
Definition request (device : Device) (st : t) : option (Outcome Chan) :=
  if decide (_mode st = "r") then
    Some (getTrigger device (_channelName st) (_params st))
  else if decide (_mode st = "q") then Some (getQuery device (_channelName st))
  else if decide (_mode st = "w") then Some (getAction device (_channelName st))
  else None.

(** [_openOneChannel(device)] of [lib/apps/channel_opener.js]: the
    rejection handler is attached to the device's promise before the
    result goes to [addOne]. *)
Definition _openOneChannel (device : Device) (st : t) : t * Completion unit :=
  match request device st with
  | None => (st, Threw (mkError "Invalid mode" ""))
  | Some promise =>
      let '(st1, caught) :=
        match promise with
        | Resolved c => (st, Resolved (Some c))
        | Rejected e =>
            (log ["Failed to get channel " +:+ _channelName st
                  +:+ " in device " +:+ uniqueId device +:+ ": " +:+ message e;
                  stack e] st,
             Resolved None)
        end in
      let '(s', r) := addOne caught (_set st1) in
      (with_set s' st1, Returned r)
  end.

(** [devices.map(...)]: a throw inside the callback leaves [map];
    otherwise the promises are collected in order. *)
Fixpoint open_each (devices : list Device) (st : t)
  : t * (JsError + list (Outcome unit)) :=
  match devices with
  | [] => (st, inr [])
  | device :: rest =>
      match _openOneChannel device st with
      | (st1, Threw e) => (st1, inl e)
      | (st1, Returned p) =>
          match open_each rest st1 with
          | (st2, inr ps) => (st2, inr (p :: ps))
          | (st2, inl e) => (st2, inl e)
          end
      end
  end.

(** [Q.all(promises)] rejects with the rejection that comes first in
    time, if any.  [order] gives the positions of the promises in the
    order in which they settle; the promises it leaves out settle after
    those, in the order of the list. *)
Definition settling (order : list nat) (ps : list (Outcome unit))
  : list (Outcome unit) :=
  omap (fun i => ps !! i) (order ++ seq 0 (length ps)).

Definition Q_all (order : list nat) (ps : list (Outcome unit)) : Outcome unit :=
  match list_find (fun p => is_resolved p = false) (settling order ps) with
  | Some (_, Rejected e) => Rejected e
  | _ => Resolved tt
  end.

(** [_openChannels()]; [order] is the order in which the promises of
    the devices settle. *)
Definition _openChannels (order : list nat) (st : t) : t * Completion unit :=
  match open_each (_view st) st with
  | (st', inr ps) => (st', Returned (Q_all order ps))
  | (st', inl e) => (st', Threw e)
  end.

(** [start()] *)
Definition start (order : list nat) (st : t) : t * Completion unit :=
  _openChannels order st.

(** [_onDeviceAdded(device)] *)
Definition _onDeviceAdded (device : Device) (st : t) : t :=
  (_openOneChannel device st).1.

(** [_onDeviceRemoved(device)]: the removed channels are closed. *)
Definition _onDeviceRemoved (device : Device) (st : t) : t * list Chan :=
  let '(kept, removed) :=
    removeIf (fun ch => String.prefix (uniqueId device +:+ "-") (ch_uniqueId ch))
             (_set st) in
  (with_set kept st, removed).

Definition valid_mode (m : string) : Prop := m = "r" ∨ m = "q" ∨ m = "w".

(** Among [devices], the channels of those whose request resolves, and
    those whose request rejects, with the error. *)
Definition obtained_from (devices : list Device) (st : t) : list Chan :=
  omap (fun d => match request d st with
                 | Some (Resolved c) => Some c
                 | _ => None
                 end) devices.

Definition failing_from (devices : list Device) (st : t)
  : list (Device * JsError) :=
  omap (fun d => match request d st with
                 | Some (Rejected e) => Some (d, e)
                 | _ => None
                 end) devices.

(** The two console lines written for a device whose request failed. *)
Definition failure_report (st : t) (f : Device * JsError) : list string :=
  ["Failed to get channel " +:+ _channelName st
   +:+ " in device " +:+ uniqueId f.1 +:+ ": " +:+ message f.2;
   stack f.2].

(** Two openers that issue the same requests. *)
Definition same_request (st st' : t) : Prop :=
  _mode st' = _mode st ∧ _channelName st' = _channelName st
  ∧ _params st' = _params st ∧ _view st' = _view st.

(** *** The earlier opener kept next to the factory

    Its [_openOneChannel] hands the device's promise to [addOne] as it
    is; only [_onDeviceAdded] attaches a rejection handler. *)
Definition legacy_openOneChannel (device : Device) (st : t)
  : t * Completion unit :=
  match request device st with
  | None => (st, Threw (mkError "Invalid mode" ""))
  | Some promise =>
      let '(s', r) :=
        addOne (match promise with
                | Resolved c => Resolved (Some c)
                | Rejected e => Rejected e
                end) (_set st) in
      (with_set s' st, Returned r)
  end.

Fixpoint legacy_open_each (devices : list Device) (st : t)
  : t * (JsError + list (Outcome unit)) :=
  match devices with
  | [] => (st, inr [])
  | device :: rest =>
      match legacy_openOneChannel device st with
      | (st1, Threw e) => (st1, inl e)
      | (st1, Returned p) =>
          match legacy_open_each rest st1 with
          | (st2, inr ps) => (st2, inr (p :: ps))
          | (st2, inl e) => (st2, inl e)
          end
      end
  end.

Definition legacy_start (order : list nat) (st : t) : t * Completion unit :=
  match legacy_open_each (_view st) st with
  | (st', inr ps) => (st', Returned (Q_all order ps))
  | (st', inl e) => (st', Threw e)
  end.

(** [_onDeviceAdded(device)] of the earlier opener: the rejection
    handler sits on the promise [_openOneChannel] returns. *)
Definition legacy_onDeviceAdded (device : Device) (st : t) : t :=
  match legacy_openOneChannel device st with
  | (st1, Returned (Rejected e)) =>
      log ["Failed to get channel " +:+ _channelName st
           +:+ " in device " +:+ uniqueId device +:+ ": " +:+ message e;
           stack e] st1
  | (st1, _) => st1
  end.

(** The promise [addOne] is given for a device by the earlier opener. *)
Definition legacy_promise (st : t) (device : Device) : Outcome unit :=
  match request device st with
  | Some (Rejected e) => Rejected e
  | _ => Resolved tt
  end.

(** The request of the device at position [i] of the view fails. *)
Definition fails_at (st : t) (i : nat) : bool :=
  match _view st !! i with
  | Some device =>
      match request device st with
      | Some (Rejected _) => true
      | _ => false
      end
  | None => false
  end.

(** The devices of the view own the channels they hand out: a channel's
    id starts with the id of its device and a dash. *)
Definition owns (device : Device) (c : Chan) : bool :=
  String.prefix (uniqueId device +:+ "-") (ch_uniqueId c).

End WithParams.
Arguments Device : clear implicits.
Arguments t : clear implicits.
End Opener.

(** ** Concrete inputs used to exercise the model *)

Module Scenario.

Definition makeString (params : list string) : string := String.concat "," params.

(** A platform without optional capabilities. *)
Definition hasCapability (c : string) : bool := false.

(** A plain trigger class and one that asks for [channel-state]. *)
Definition plain : @Factory.ChannelClass (list string) :=
  Factory.mkClass None (Factory.NewClass (fun _ _ => Resolved None)).

Definition stateful : @Factory.ChannelClass (list string) :=
  Factory.mkClass (Some ["channel-state"])
                  (Factory.NewClass (fun _ _ => Resolved None)).

Definition classes (kind : string) : Outcome (@Factory.ChannelClass (list string)) :=
  if decide (kind = "feed") then Resolved stateful else Resolved plain.

(** Device [D], owned by the server tier. *)
Definition D : @Factory.Device (list string) :=
  Factory.mkDevice "D" Factory.SERVER classes classes classes.

Definition poll_call : @Factory.Call (list string) :=
  Factory.mkCall D "poll" "r" [] false.

Definition feed_call : @Factory.Call (list string) :=
  Factory.mkCall D "feed" "r" [] false.

Definition fresh : @Factory.State (list string) nat := Factory.initial.

(** A binder held once, with an empty cache, at clock value 0. *)
Definition binder_world : @Binder.World nat :=
  Binder.mkWorld 0 (Binder.mk ∅ (Some "D-feed") None 1 [] 0)
    (Binder.mkDb ∅ [] true).

(** A platform that stores the first token it is given and afterwards
    accepts only that same token. *)
Definition pairing (tok : string) (configured : option string)
  : option string * bool :=
  match configured with
  | None => (Some tok, true)
  | Some t => (configured, bool_decide (t = tok))
  end.

Definition auth_frame (id tok : string) : Msg :=
  mkMsg (JStr "auth") (JStr id) (JStr tok) "".

Definition pairing_frame (tok : string) : Msg :=
  mkMsg (JStr "set-auth-token") JUndefined (JStr tok) "".

Definition data_frame (body : string) : Msg :=
  mkMsg (JStr "data") JUndefined JUndefined body.

(** An application message, not yet tagged. *)
Definition note (body : string) : Msg :=
  mkMsg JUndefined JUndefined JUndefined body.

(** A server expecting the phone, with two messages buffered for it and
    one socket connected. *)
Definition waiting_server : Server.t :=
  Server.final pairing (Server.create (Some "secret") ["phone"])
    [Server.InSend (note "m1") (Some "phone");
     Server.InSend (note "m2") (Some "phone");
     Server.InConnect].

(** The phone authenticates and then sends a data frame. *)
Definition session : list Server.Entry :=
  Server.exec pairing waiting_server
    [Server.InFrame 0 (Parsed (auth_frame "phone" "secret"));
     Server.InFrame 0 (Parsed (data_frame "hello"))].

(** The same story from the constructor on. *)
Definition gate_inputs : list Server.Input :=
  [Server.InSend (note "m1") (Some "phone");
   Server.InSend (note "m2") (Some "phone");
   Server.InConnect;
   Server.InFrame 0 (Parsed (auth_frame "phone" "secret"));
   Server.InFrame 0 (Parsed (data_frame "hello"))].

Definition gate_run : list Server.Entry :=
  Server.exec pairing (Server.create (Some "secret") ["phone"]) gate_inputs.

Definition gate_delivery : Server.Entry :=
  default (Server.mkEntry waiting_server Server.InConnect []) (gate_run !! 4).

(** A server without a token, one message buffered for the phone; a
    socket connects and pairs, then authenticates on the same socket. *)
Definition paired_server : Server.t :=
  Server.final pairing (Server.create None ["phone"])
    [Server.InSend (note "m1") (Some "phone");
     Server.InConnect;
     Server.InFrame 0 (Parsed (pairing_frame "secret"))].

(** Three devices match the selector; the television is offline. *)
Definition lamp : Opener.Device (list string) :=
  Opener.mkDevice "lamp" (fun _ _ => Resolved (Opener.mkChan "lamp-poll" 0))
    (fun _ => Resolved (Opener.mkChan "lamp-poll" 0))
    (fun _ => Resolved (Opener.mkChan "lamp-poll" 0)).

Definition tv_error : JsError := mkError "offline" "Error: offline at getTrigger".

Definition tv : Opener.Device (list string) :=
  Opener.mkDevice "tv" (fun _ _ => Rejected tv_error)
    (fun _ => Rejected tv_error) (fun _ => Rejected tv_error).

Definition radio : Opener.Device (list string) :=
  Opener.mkDevice "radio" (fun _ _ => Resolved (Opener.mkChan "radio-poll" 1))
    (fun _ => Resolved (Opener.mkChan "radio-poll" 1))
    (fun _ => Resolved (Opener.mkChan "radio-poll" 1)).

Definition opener : Opener.t (list string) :=
  Opener.mk "r" "poll" [] [lamp; tv; radio] [] [].

(** A second device that fails, and a view in which two do. *)
Definition fridge_error : JsError := mkError "unplugged" "".

Definition fridge : Opener.Device (list string) :=
  Opener.mkDevice "fridge" (fun _ _ => Rejected fridge_error)
    (fun _ => Rejected fridge_error) (fun _ => Rejected fridge_error).

Definition two_failures : Opener.t (list string) :=
  Opener.mk "r" "poll" [] [tv; lamp; fridge] [] [].

(** A client with one message queued before it is opened, and what the
    network then does: a failed connect, a session of one second, a
    message sent while down, another failed connect. *)
Definition queued_client : Client.t :=
  (Client.send (note "queued") (Client.create "phone" (Some "secret"))).1.

Definition bad_network : list Client.Input :=
  [Client.ConnectFail 0; Client.ConnectOk 1 1000; Client.SocketClosed 1 2000;
   Client.UserSend (note "late"); Client.ConnectFail 2].

(** A client whose session has been up since clock value 1000. *)
Definition connected_client : Client.t :=
  Client.mk "phone" (Some "secret") false (Some 0) [] (Some 1000%Z) 0 1 [].

(** A phone-owned device whose [scan] channel keeps state and needs
    bluetooth; it has no other channel. *)
Definition needs_bluetooth : @Factory.ChannelClass (list string) :=
  Factory.mkClass (Some ["channel-state"; "bluetooth"])
    (Factory.WithCreateChannel (fun _ _ => Resolved (Some "all"))).

Definition no_such_channel : JsError := mkError "no such channel" "".

Definition speaker_classes (kind : string)
  : Outcome (@Factory.ChannelClass (list string)) :=
  if decide (kind = "scan") then Resolved needs_bluetooth
  else Rejected no_such_channel.

Definition speaker : @Factory.Device (list string) :=
  Factory.mkDevice "speaker" Factory.PHONE
    speaker_classes speaker_classes speaker_classes.

(** An opener built with a mode that does not exist. *)
Definition misconfigured : Opener.t (list string) :=
  Opener.mk "x" "poll" [] [lamp] [] [].

(** The phone is connected and authenticated on socket 0; then a second
    socket authenticates as the phone as well. *)
Definition online_server : Server.t :=
  Server.final pairing (Server.create (Some "secret") ["phone"])
    [Server.InConnect;
     Server.InFrame 0 (Parsed (auth_frame "phone" "secret"))].


(** On the phone: the proxy end of the pipe [log] is requested first,
    then the sink, then the local source. *)
Definition other_tiers : list Factory.Tier := [Factory.SERVER; Factory.CLOUD].

Definition log_pipe : list (PipeManager.Op string) :=
  [PipeManager.GetProxy "log"; PipeManager.GetSink "log";
   PipeManager.GetLocalSource "log"].


(** Three peers, two of them known by a number, all connected: socket
    0 is the phone, socket 1 is peer 10 and socket 2 is peer 2. *)
Definition numbered_peers : Server.t :=
  Server.final pairing (Server.create (Some "secret") ["phone"; "10"; "2"])
    [Server.InConnect; Server.InConnect; Server.InConnect;
     Server.InFrame 0 (Parsed (auth_frame "phone" "secret"));
     Server.InFrame 1 (Parsed (auth_frame "10" "secret"));
     Server.InFrame 2 (Parsed (auth_frame "2" "secret"))].

End Scenario.

(** * Properties *)

(** An equation between closed terms follows from an instance [H] of a
    general theorem once both of its sides are evaluated. *)
Ltac evaluated_from H :=
  match type of H with
  | ?l = ?r =>
    match goal with
    | |- ?gl = ?gr =>
      refine (eq_trans (_ : gl = l) (eq_trans H (_ : r = gr)));
      vm_compute; reflexivity
    end
  end.

(** ** The state binder: debounced persistence *)

Module BinderFacts.
Import Binder.
Section Facts.
Context {Value : Type}.
Implicit Types (w : World (Value := Value)) (b : t Value).

Lemma apply_sets_snoc (sets : list (string * Value)) k v c :
  apply_sets (sets ++ [(k, v)]) c = assign k v (apply_sets sets c).
Proof. unfold apply_sets. by rewrite foldl_app. Qed.

Lemma apply_sets_lookup (sets : list (string * Value)) c name :
  name ≠ "__proto__" →
  apply_sets sets c !! name =
  match last_set name (reverse sets) with
  | Some v => Some v
  | None => c !! name
  end.
Proof.
  intros Hname. induction sets as [|[k v] sets IH] using rev_ind; [done|].
  rewrite apply_sets_snoc, reverse_snoc. simpl. unfold assign.
  destruct (decide (k = name)) as [->|Hne].
  - rewrite decide_False by done. by rewrite lookup_insert_eq.
  - destruct (decide (k = "__proto__")); [done|]. by rewrite lookup_insert_ne.
Qed.

Lemma span_bound (burst : list (Z * string * Value)) g k v :
  Forall (fun e => 0 ≤ e.1.1)%Z burst →
  (g, k, v) ∈ burst → (g ≤ span burst)%Z.
Proof.
  induction 1 as [|[[g' k'] v'] rest Hg Hrest IH]; intros Hin.
  - by apply elem_of_nil in Hin.
  - simpl in *. assert (0 ≤ span rest)%Z.
    { clear -Hrest. induction Hrest as [|[[??]?] ???]; simpl in *; lia. }
    apply elem_of_cons in Hin as [Heq|Hin].
    + inversion Heq; subst. lia.
    + specialize (IH Hin). lia.
Qed.

(** On a tidy binder [clearTimeout(this._updateTimeout)] empties the
    timer table. *)
Lemma tidy_cleared b :
  tidy b → timers (clearTimeout (_updateTimeout b) b) = [].
Proof.
  intros [Hown _]. unfold clearTimeout. simpl.
  destruct (_updateTimeout b) as [h|].
  - induction Hown as [|p l Hp Hl IH]; [done|].
    rewrite filter_cons_False; [done|]. intros Hne. congruence.
  - by destruct Hown.
Qed.

(** [set] on a tidy binder: the assignment, and one timer, the new one. *)
Lemma set_tidy now name value b :
  tidy b →
  set now name value b
  = mk (assign name value (_cached b)) (uniqueId b) (Some (handles b))
       (useCount b) [(handles b, (now + 500)%Z)] (S (handles b)).
Proof.
  intros Ht. pose proof (tidy_cleared b Ht) as Hc.
  unfold set, setTimeout, clearTimeout in *. simpl in *. by rewrite Hc.
Qed.

Lemma step_wait_early w dt h d :
  timers (binder w) = [(h, d)] → (now w + dt < d)%Z →
  step w (OpWait dt) = mkWorld (now w + dt)%Z (binder w) (store w).
Proof.
  intros Ht Hearly. simpl. unfold run_timers, due. simpl. rewrite Ht.
  rewrite filter_cons_False; [done|]. simpl.
  destruct (Z.leb_spec d (now w + dt)); [lia|by intros []].
Qed.

Lemma step_wait_due w dt h d :
  timers (binder w) = [(h, d)] → (d ≤ now w + dt)%Z →
  step w (OpWait dt)
  = mkWorld (now w + dt)%Z
      (mk (_cached (binder w)) (uniqueId (binder w)) None
          (useCount (binder w)) [] (handles (binder w)))
      (insertOne (uniqueId (binder w)) (_cached (binder w)) (store w)).1.
Proof.
  intros Ht Hdue. simpl. unfold run_timers, due. simpl. rewrite Ht.
  rewrite filter_cons_True
    by (simpl; destruct (Z.leb_spec d (now w + dt)); [done|lia]).
  simpl. unfold fire. simpl. rewrite Ht.
  by rewrite filter_cons_False by (intros H; by apply H).
Qed.

Lemma step_wait_idle w dt :
  timers (binder w) = [] →
  step w (OpWait dt) = mkWorld (now w + dt)%Z (binder w) (store w).
Proof. intros Ht. simpl. unfold run_timers, due. simpl. by rewrite Ht. Qed.

(** While every gap stays below the debounce delay the timer armed by
    the latest [set] never becomes due: the burst only updates the cache
    and replaces the timer. *)
Lemma run_burst (burst : list (Z * string * Value)) w h :
  Forall (fun e => 0 ≤ e.1.1 < 500)%Z burst →
  _updateTimeout (binder w) = Some h →
  timers (binder w) = [(h, (now w + 500)%Z)] →
  h < handles (binder w) →
  let w' := run w (burst_ops burst) in
  store w' = store w ∧
  now w' = (now w + span burst)%Z ∧
  _cached (binder w') =
    apply_sets (map (fun e => (e.1.2, e.2)) burst) (_cached (binder w)) ∧
  uniqueId (binder w') = uniqueId (binder w) ∧
  useCount (binder w') = useCount (binder w) ∧
  ∃ h', _updateTimeout (binder w') = Some h'
        ∧ timers (binder w') = [(h', (now w' + 500)%Z)]
        ∧ h' < handles (binder w').
Proof.
  revert w h. induction burst as [|[[g k] v] rest IH]; intros w h Hall Hh Ht Hlt.
  - simpl. rewrite Z.add_0_r. repeat split; try done. by exists h.
  - inversion Hall as [|? ? Hg Hrest]; subst. simpl in Hg.
    set (w1 := step (step w (OpWait g)) (OpSet k v)).
    assert (Htidy : tidy (binder w)).
    { split; rewrite Ht; repeat constructor; simpl; [done|lia]. }
    assert (Hw1 : w1 = mkWorld (now w + g)%Z
                         (set (now w + g)%Z k v (binder w)) (store w)).
    { unfold w1. rewrite (step_wait_early w g h _ Ht) by lia. done. }
    rewrite (set_tidy _ _ _ _ Htidy) in Hw1.
    destruct (IH w1 (handles (binder w)) Hrest)
      as (Hs & Hn & Hc & Hu & Hcnt & h' & Hh' & Ht' & Hlt');
      [by rewrite Hw1|by rewrite Hw1|rewrite Hw1; simpl; lia|].
    change (run w (burst_ops ((g, k, v) :: rest)))
      with (run w1 (burst_ops rest)).
    cbv zeta.
    split; [by rewrite Hs, Hw1|].
    split; [rewrite Hn, Hw1; simpl; lia|].
    split; [by rewrite Hc, Hw1|].
    split; [by rewrite Hu, Hw1|].
    split; [by rewrite Hcnt, Hw1|].
    by exists h'.
Qed.

Lemma run_app w (ops1 ops2 : list Op) :
  run w (ops1 ++ ops2) = run (run w ops1) ops2.
Proof. apply foldl_app. Qed.

(** Without a pending timer, time passes and nothing is written. *)
Lemma waits_idle ds w :
  timers (binder w) = [] →
  binder (run w (waits ds)) = binder w ∧ store (run w (waits ds)) = store w.
Proof.
  revert w. induction ds as [|d ds IH]; intros w Ht; [done|].
  change (run w (waits (d :: ds))) with (run (step w (OpWait d)) (waits ds)).
  rewrite (step_wait_idle w d Ht).
  by destruct (IH (mkWorld (now w + d)%Z (binder w) (store w)) Ht).
Qed.

(** A pending timer fires exactly once, on the first step that reaches
    its due time. *)
Lemma waits_flush ds w h due :
  timers (binder w) = [(h, due)] → (now w < due)%Z →
  Forall (fun d => 0 ≤ d)%Z ds → (due ≤ now w + total ds)%Z →
  calls (store (run w (waits ds)))
  = calls (store w) ++ [(uniqueId (binder w), _cached (binder w))]
  ∧ _updateTimeout (binder (run w (waits ds))) = None
  ∧ timers (binder (run w (waits ds))) = [].
Proof.
  revert w. induction ds as [|d ds IH]; intros w Ht Hnow Hpos Hsum.
  - simpl in Hsum. lia.
  - inversion Hpos as [|? ? Hd Hds]; subst. simpl in Hsum.
    change (run w (waits (d :: ds))) with (run (step w (OpWait d)) (waits ds)).
    destruct (Z.leb_spec due (now w + d)) as [Hdue|Hearly].
    + rewrite (step_wait_due w d h due Ht Hdue).
      destruct (waits_idle ds (mkWorld (now w + d)%Z
                  (mk (_cached (binder w)) (uniqueId (binder w)) None
                      (useCount (binder w)) [] (handles (binder w)))
                  (insertOne (uniqueId (binder w)) (_cached (binder w))
                             (store w)).1)) as [Hb Hs]; [done|].
      by rewrite Hb, Hs.
    + rewrite (step_wait_early w d h due Ht Hearly).
      apply (IH (mkWorld (now w + d)%Z (binder w) (store w)));
        simpl; [done|lia|done|lia].
Qed.

Lemma total_app ds1 ds2 : total (ds1 ++ ds2) = (total ds1 + total ds2)%Z.
Proof. induction ds1 as [|d ds1 IH]; simpl; [done|]. rewrite IH. lia. Qed.

Lemma total_nonneg ds : Forall (fun d => 0 ≤ d)%Z ds → (0 ≤ total ds)%Z.
Proof. induction 1; simpl; lia. Qed.

(** X23 — Debounced persistence, for the names a plain object can hold.
    On a tidy binder, after a first [set], any further [set] calls that all
    fall within one 500 ms window write nothing while they arrive, and
    the cache then holds, for every name other than [__proto__], the
    last value set.  However time then passes, once 500 ms have gone by
    the store has received exactly one write, carrying that cache, and
    no second one follows later.  A [close()] by the only holder right
    after the last [set] cancels the pending timer and flushes the cache
    once; the cancelled timer never fires afterwards. *)
Theorem debounced_persistence w (k0 : string) (v0 : Value)
    (burst : list (Z * string * Value)) (ds : list Z) :
  tidy (binder w) →
  Forall (fun e => 0 ≤ e.1.1)%Z burst →
  (span burst < 500)%Z →
  Forall (fun d => 0 ≤ d)%Z ds →
  (500 ≤ total ds)%Z →
  let w1 := run w (OpSet k0 v0 :: burst_ops burst) in
  let written := (uniqueId (binder w), _cached (binder w1)) in
  calls (store w1) = calls (store w)
  ∧ (∀ name v, name ≠ "__proto__" →
               last_set name (reverse (sets_of (k0, v0) burst)) = Some v →
               _cached (binder w1) !! name = Some v)
  ∧ calls (store (run w1 (waits ds))) = calls (store w) ++ [written]
  ∧ (∀ later, calls (store (run w1 (waits (ds ++ later))))
              = calls (store w) ++ [written])
  ∧ (useCount (binder w) = 1 →
     calls (store (run w1 [OpClose])) = calls (store w) ++ [written]
     ∧ _updateTimeout (binder (run w1 [OpClose])) = None
     ∧ timers (binder (run w1 [OpClose])) = []
     ∧ ∀ later, calls (store (run w1 (OpClose :: waits later)))
                = calls (store w) ++ [written]).
Proof.
  intros Htidy Hpos Hspan Hds Hlong.
  set (w0 := step w (OpSet k0 v0)).
  change (run w (OpSet k0 v0 :: burst_ops burst))
    with (run w0 (burst_ops burst)).
  assert (Hw0 : w0 = mkWorld (now w)
                  (mk (assign k0 v0 (_cached (binder w))) (uniqueId (binder w))
                      (Some (handles (binder w))) (useCount (binder w))
                      [(handles (binder w), (now w + 500)%Z)]
                      (S (handles (binder w))))
                  (store w)).
  { unfold w0. simpl. by rewrite (set_tidy _ _ _ _ Htidy). }
  assert (Hgaps : Forall (fun e => 0 ≤ e.1.1 < 500)%Z burst).
  { apply Forall_forall. intros [[g k] v] Hin. simpl.
    pose proof (span_bound burst g k v Hpos Hin).
    rewrite Forall_forall in Hpos. specialize (Hpos _ Hin). simpl in Hpos. lia. }
  destruct (run_burst burst w0 (handles (binder w)) Hgaps)
    as (Hs & Hn & Hc & Hu & Hcnt & h' & Hh' & Ht' & Hlt');
    [by rewrite Hw0|by rewrite Hw0|rewrite Hw0; simpl; lia|].
  set (w1 := run w0 (burst_ops burst)) in *.
  cbv zeta.
  assert (Hcache : _cached (binder w1)
                   = apply_sets (sets_of (k0, v0) burst) (_cached (binder w))).
  { rewrite Hc, Hw0. reflexivity. }
  rewrite Hw0 in Hu, Hs, Hcnt, Hn. simpl in Hu, Hs, Hcnt, Hn.
  destruct (waits_flush ds w1 h' _ Ht') as (Hw & Hnone & Hempty);
    [lia|done|lia|].
  split; [by rewrite Hs|]. split; [|split; [|split]].
  - intros name v Hname Hlast.
    rewrite Hcache, apply_sets_lookup by done. by rewrite Hlast.
  - by rewrite Hw, Hs, Hu.
  - intros later. unfold waits. rewrite map_app, run_app.
    destruct (waits_idle later _ Hempty) as [_ Hstore].
    unfold waits in *. by rewrite Hstore, Hw, Hs, Hu.
  - intros Hone. rewrite Hone in Hcnt.
    assert (Hclose : run w1 [OpClose]
              = mkWorld (now w1)
                  (mk (_cached (binder w1)) (uniqueId (binder w1)) None 0
                      [] (handles (binder w1)))
                  (Binder.insertOne (uniqueId (binder w1))
                     (_cached (binder w1)) (store w1)).1).
    { simpl. unfold close. rewrite Hcnt. unfold _doClose, with_count,
        clearTimeout. simpl. rewrite Hh', Ht'.
      by rewrite filter_cons_False by (intros H; by apply H). }
    split; [|split; [|split]].
    + rewrite Hclose. simpl. by rewrite Hs, Hu.
    + by rewrite Hclose.
    + by rewrite Hclose.
    + intros later. change (run w1 (OpClose :: waits later))
        with (run (run w1 [OpClose]) (waits later)).
      destruct (waits_idle later (run w1 [OpClose])) as [_ Hstore];
        [by rewrite Hclose|].
      rewrite Hstore, Hclose. simpl. by rewrite Hs, Hu.
Qed.

End Facts.

Lemma debounced_persistence_witness :
  let burst := [(100%Z, "a", 1); (200%Z, "b", 2); (150%Z, "a", 3)] in
  tidy (binder Scenario.binder_world)
  ∧ Forall (fun e => 0 ≤ e.1.1)%Z burst
  ∧ (span burst < 500)%Z
  ∧ Forall (fun d => 0 ≤ d)%Z [300; 300]%Z
  ∧ (500 ≤ total [300; 300])%Z
  ∧ calls (store (run Scenario.binder_world
                      (OpSet "a" 0 :: burst_ops burst ++ waits [300; 300]%Z)))
    = [(Some "D-feed", <["a" := 3]> (<["b" := 2]> (<["a" := 1]> (<["a" := 0]> ∅))))]
  ∧ useCount (binder Scenario.binder_world) = 1
  ∧ calls (store (run Scenario.binder_world
                      (OpSet "a" 0 :: burst_ops burst ++ OpClose :: waits [900]%Z)))
    = [(Some "D-feed", <["a" := 3]> (<["b" := 2]> (<["a" := 1]> (<["a" := 0]> ∅))))].
Proof.
  cbv zeta.
  assert (Htidy : tidy (binder Scenario.binder_world))
    by (split; constructor).
  assert (Hpos : Forall (fun e : Z * string * nat => 0 ≤ e.1.1)%Z
                   [(100%Z, "a", 1); (200%Z, "b", 2); (150%Z, "a", 3)])
    by (repeat constructor; simpl; lia).
  assert (Hspan : (span [(100%Z, "a", 1); (200%Z, "b", 2); (150%Z, "a", 3)]
                   < 500)%Z)
    by (simpl; lia).
  assert (Hds : Forall (fun d => 0 ≤ d)%Z [300; 300]%Z)
    by (repeat constructor; lia).
  assert (Hlong : (500 ≤ total [300; 300])%Z) by (simpl; lia).
  split; [exact Htidy|].
  split; [exact Hpos|]. split; [exact Hspan|].
  split; [exact Hds|]. split; [exact Hlong|].
  pose proof (debounced_persistence Scenario.binder_world "a" 0 _ _
                Htidy Hpos Hspan Hds Hlong) as (_ & _ & Hone & _ & Hclose).
  split; [evaluated_from Hone|]. split; [reflexivity|].
  destruct (Hclose eq_refl) as (_ & _ & _ & Hlater).
  pose proof (Hlater [900%Z]) as Hlate. evaluated_from Hlate.
Defined.

(** C6 — the write of a burst does not carry every key.  Two [set]
    calls 100 ms apart, the second one [set('__proto__', 7)], are
    followed by one write, as they should be; but that write, and the
    cache, lack the key [__proto__]: the assignment
    [this._cached[name] = value] has created no property under that
    name, and [get('__proto__')] finds the prototype, not the value. *)
Theorem proto_key_not_persisted :
  let ops := [OpSet "a" 1; OpWait 100; OpSet "__proto__" 7; OpWait 500] in
  let w1 := run Scenario.binder_world ops in
  last_set "__proto__" (reverse (sets_in ops)) = Some 7
  ∧ calls (store w1) = [(Some "D-feed", <["a" := 1]> ∅)]
  ∧ _cached (binder w1) !! "__proto__" = None
  ∧ get "__proto__" (binder w1) = Member.
Proof. repeat split; reflexivity. Qed.

End BinderFacts.

(** ** The channel factory *)

Module FactoryFacts.
Import Factory.
Section Facts.
Context {Params Value : Type}.
Variable makeString : Params → string.
Variable hasCapability : string → bool.
Variable ownTier : Tier.

Implicit Types (st : @State Params Value).

Lemma bind_inv {A B} (m : M A) (k : A → M B) st st' r :
  bind m k st = (st', r) →
  (∃ st1 a, m st = (st1, Resolved a) ∧ k a st1 = (st', r))
  ∨ (∃ e, m st = (st', Rejected e) ∧ r = Rejected e).
Proof.
  unfold bind. destruct (m st) as [st1 [a|e]]; [left|right]; eauto.
  injection H as <- <-. eauto.
Qed.

Lemma proxy_calls_snoc (tr : list (@Event Params)) ev :
  proxy_calls (tr ++ [ev])
  = proxy_calls tr ++ match ev with EvProxyManager p => [p] | _ => [] end.
Proof.
  unfold proxy_calls. rewrite omap_app. f_equal. by destruct ev.
Qed.

Lemma quiet_emit ev :
  proxy_calls [ev] = [] →
  quiet (Params := Params) (Value := Value) (emit ev).
Proof.
  intros Hev st st' r [= <- <-]. simpl. rewrite proxy_calls_snoc.
  destruct ev; try discriminate Hev; by rewrite app_nil_r.
Qed.

Lemma quiet_new_binder : quiet (Params := Params) (Value := Value) new_binder.
Proof. by intros st st' r [= <- <-]. Qed.

Lemma quiet_cache_lookup u
  : quiet (Params := Params) (Value := Value) (cache_lookup u).
Proof. by intros st st' r [= <- <-]. Qed.

Lemma quiet_state_close sa
  : quiet (Params := Params) (Value := Value) (state_close sa).
Proof.
  intros st st' r. unfold state_close.
  destruct (binders st !! sa) as [b|]; [|by intros [= <- <-]].
  destruct (Binder.close (b, _db st)) as [[b' db'] ok]. by intros [= <- <-].
Qed.

Lemma quiet_state_init_open sa u
  : quiet (Params := Params) (Value := Value) (state_init_open sa u).
Proof.
  intros st st' r. unfold state_init_open.
  destruct (binders st !! sa) as [b|]; [|by intros [= <- <-]].
  destruct (Binder.open _); by intros [= <- <-].
Qed.

Lemma quiet_alloc (hasState : bool) :
  quiet (Params := Params) (Value := Value)
        (if hasState then bind new_binder (fun sa => ret (Some sa))
         else ret None).
Proof. destruct hasState; by intros st st' r [= <- <-]. Qed.

Lemma alloc_resolves (hasState : bool) st st' (r : Outcome (option nat)) :
  (if hasState then bind new_binder (fun sa => ret (Some sa)) else ret None) st
  = (st', r) → is_resolved r = true.
Proof. destruct hasState; by intros [= <- <-]. Qed.

Lemma emit_resolves ev st st' (r : Outcome unit) :
  emit ev st = (st', r) → is_resolved r = true.
Proof. by intros [= <- <-]. Qed.

Lemma construct_effect mk dev (params : Params) st st' r :
  construct mk dev params st = (st', r) →
  _cachedChannels st' = _cachedChannels st
  ∧ constructed st' = S (constructed st)
  ∧ proxy_calls (trace st') = proxy_calls (trace st)
  ∧ match r with
    | Resolved obj => run_maker mk dev params = Resolved obj.2
    | Rejected e => run_maker mk dev params = Rejected e
    end.
Proof.
  unfold construct. fold (run_maker mk dev params).
  destruct (run_maker mk dev params); intros [= <- <-]; simpl;
    by rewrite proxy_calls_snoc, app_nil_r.
Qed.

(** The deduplication step proper: look the id up, return the cached
    object or store the new one. *)
Lemma dedup_effect u (channel : Channel) (state : option nat) st st' r :
  match state with
  | Some sa =>
      bind (state_init_open sa u) (fun _ =>
      bind (cache_lookup u) (fun cached =>
        match cached with
        | Some c0 => ret c0
        | None => bind (state_close sa) (fun _ => cache_store u channel)
        end))
  | None =>
      bind (cache_lookup u) (fun cached =>
        match cached with
        | Some c0 => ret c0
        | None => cache_store u channel
        end)
  end st = (st', r) →
  constructed st' = constructed st
  ∧ proxy_calls (trace st') = proxy_calls (trace st)
  ∧ (∀ u' c0, _cachedChannels st !! u' = Some c0 →
              _cachedChannels st' !! u' = Some c0)
  ∧ (∀ ch, r = Resolved ch → _cachedChannels st' !! u = Some ch).
Proof.
  assert (Hlookup : ∀ (k : Channel → @M Params Value Channel) st st' r,
    (∀ st1 st2 r', k channel st1 = (st2, r') →
       _cachedChannels st1 !! u = None →
       constructed st2 = constructed st1
       ∧ proxy_calls (trace st2) = proxy_calls (trace st1)
       ∧ _cachedChannels st2 = <[u := channel]> (_cachedChannels st1)
       ∧ r' = Resolved channel) →
    bind (cache_lookup u) (fun cached =>
      match cached with Some c0 => ret c0 | None => k channel end) st
    = (st', r) →
    constructed st' = constructed st
    ∧ proxy_calls (trace st') = proxy_calls (trace st)
    ∧ (∀ u' c0, _cachedChannels st !! u' = Some c0 →
                _cachedChannels st' !! u' = Some c0)
    ∧ (∀ ch, r = Resolved ch → _cachedChannels st' !! u = Some ch)).
  { clear. intros k st st' r Hk. unfold bind, cache_lookup.
    destruct (_cachedChannels st !! u) as [c0|] eqn:Hc.
    - intros [= <- <-]. repeat split; [done|]. by intros ch [= <-].
    - intros H. destruct (Hk _ _ _ H Hc) as (Hn & Hp & Hm & ->).
      rewrite Hm. split; [done|]. split; [done|]. split.
      + intros u' c0 Hu'. destruct (decide (u = u')) as [->|Hne];
          [congruence | by rewrite lookup_insert_ne].
      + intros ch [= <-]. by rewrite lookup_insert_eq. }
  destruct state as [sa|].
  - intros H. apply bind_inv in H as [(st1 & [] & Hopen & H)|(e & Hopen & ->)].
    + apply quiet_state_init_open in Hopen as (Hc1 & Hn1 & Hp1).
      rewrite <- Hc1, <- Hn1, <- Hp1.
      apply (Hlookup (fun ch => bind (state_close sa) (fun _ => cache_store u ch)));
        [|done].
      intros st2 st3 r' Hk Hnone.
      apply bind_inv in Hk as [(st4 & [] & Hclose & Hk)|(e & Hclose & ->)].
      * apply quiet_state_close in Hclose as (Hc4 & Hn4 & Hp4).
        injection Hk as <- <-. simpl. by rewrite Hc4, Hn4, Hp4.
      * unfold state_close in Hclose.
        destruct (binders st2 !! sa); [|done].
        by destruct (Binder.close _) as [[??]?].
    + apply quiet_state_init_open in Hopen as (Hc1 & Hn1 & Hp1).
      rewrite Hc1, Hn1, Hp1. by repeat split.
  - apply (Hlookup (fun ch => cache_store u ch)).
    by intros st1 st2 r' [= <- <-] _.
Qed.

(** What one [getChannel] call does to the cache, to the count of
    constructor runs and to the proxy manager. *)
Lemma call_effect (cl : @Call Params) st st' r :
  call hasCapability cl st = (st', r) →
  (∀ u c0, _cachedChannels st !! u = Some c0 → _cachedChannels st' !! u = Some c0)
  ∧ (∀ ch u, r = Resolved ch → call_id cl = Some u →
             _cachedChannels st' !! u = Some ch)
  ∧ constructed st' =
      constructed st + (if reaches_constructor hasCapability cl then 1 else 0)
  ∧ proxy_calls (trace st') = proxy_calls (trace st).
Proof.
  destruct cl as [d kind mode params forOpen].
  unfold call, call_id, reaches_constructor, normalize, getChannel. simpl.
  change (if decide (mode = "r") then getTriggerClass d kind
          else if decide (mode = "q") then getQueryClass d kind
               else getActionClass d kind)
    with (resolveClass d kind mode).
  intros H. apply bind_inv in H as [(st1 & factory & Hf & H)|(e & Hf & ->)];
    unfold lift in Hf; injection Hf as <- Hf; rewrite Hf.
  2:{ split; [done|]. split; [done|]. split; [lia|done]. }
  destruct (forOpen && negb (_checkFactoryCaps hasCapability
                               (default [] (requiredCapabilities factory)))).
  { injection H as <- <-. split; [done|]. split; [done|]. split; [simpl; lia|done]. }
  simpl negb. cbv iota.
  apply bind_inv in H as [(st2 & state & Halloc & H)|(e & Halloc & ->)];
    [|by apply alloc_resolves in Halloc].
  apply quiet_alloc in Halloc as (Hc2 & Hn2 & Hp2).
  apply bind_inv in H as [(st3 & obj & Hctor & H)|(e & Hctor & ->)];
    apply construct_effect in Hctor as (Hc3 & Hn3 & Hp3 & Hrun).
  2:{ rewrite Hc3, Hn3, Hp3, Hc2, Hn2, Hp2.
      split; [done|]. split; [done|]. split; [lia|done]. }
  apply bind_inv in H as [(st4 & [] & Hlog & H)|(e & Hlog & ->)];
    [|by apply emit_resolves in Hlog].
  apply quiet_emit in Hlog as (Hc4 & Hn4 & Hp4); [|done].
  apply dedup_effect in H as (Hn5 & Hp5 & Hmono & Hres).
  rewrite Hc4, Hc3, Hc2 in Hmono.
  split; [done|]. split; [|split; [lia|congruence]].
  intros ch u Hr Hid. rewrite Hrun in Hid.
  specialize (Hres ch Hr). destruct (obj.2); by simplify_eq.
Qed.

(** C1 — deduplication, as the code has it.  In any sequence of
    [getChannel] calls whose arguments normalize to the same [uniqueId],
    all the calls that resolve return one and the same channel object,
    the one the cache holds under that id.  The channel constructor,
    though, runs once in every call that gets past the class lookup and
    the capability check: the id is only known once the object
    exists. *)
Theorem getChannel_dedup (cs : list (@Call Params)) st u :
  Forall (fun cl => call_id cl = Some u) cs →
  let run := calls hasCapability cs st in
  (∀ ch1 ch2, ch1 ∈ channels_of run.2 → ch2 ∈ channels_of run.2 → ch1 = ch2)
  ∧ (∀ ch, ch ∈ channels_of run.2 → _cachedChannels run.1 !! u = Some ch)
  ∧ constructed run.1
    = constructed st
      + length (filter (fun cl => reaches_constructor hasCapability cl) cs).
Proof.
  intros Hall. cbv zeta.
  cut ((∀ ch, ch ∈ channels_of (calls hasCapability cs st).2 →
              _cachedChannels (calls hasCapability cs st).1 !! u = Some ch)
       ∧ (∀ u' c0, _cachedChannels st !! u' = Some c0 →
              _cachedChannels (calls hasCapability cs st).1 !! u' = Some c0)
       ∧ constructed (calls hasCapability cs st).1
         = constructed st
           + length (filter (fun cl => reaches_constructor hasCapability cl) cs)).
  { intros (Hin & _ & Hn). split; [|done].
    intros ch1 ch2 H1 H2. apply Hin in H1, H2. congruence. }
  revert st. induction Hall as [|cl rest Hid Hrest IH]; intros st.
  - simpl. split; [by intros ch ?%elem_of_nil|]. split; [done|lia].
  - simpl.
    destruct (call hasCapability cl st) as [st1 r] eqn:Hcall.
    destruct (call_effect _ _ _ _ Hcall) as (Hmono1 & Hres1 & Hn1 & _).
    destruct (IH st1) as (Hin2 & Hmono2 & Hn2).
    destruct (calls hasCapability rest st1) as [st2 rs]. simpl in *.
    split; [|split].
    + intros ch Hch. unfold channels_of in Hch. simpl in Hch.
      destruct r as [ch0|e]; [|by apply Hin2].
      apply elem_of_cons in Hch as [->|Hch]; [|by apply Hin2].
      by apply Hmono2, Hres1.
    + intros u' c0 Hu'. by apply Hmono2, Hmono1.
    + rewrite Hn2, Hn1, filter_cons.
      destruct (reaches_constructor hasCapability cl); simpl; lia.
Qed.

(** The cache-hit path of a stateful request, in general: the cached
    object is returned, the store is not written, and the binder made
    for the discarded channel stays in the heap with one holder. *)
Lemma stateful_hit_keeps_binder_open (d : @Device Params) kind mode params
    forOpen st factory fs c0 :
  resolveClass d kind mode = Resolved factory →
  forOpen && negb (_checkFactoryCaps hasCapability
                     (default [] (requiredCapabilities factory))) = false →
  "channel-state" ∈ default [] (requiredCapabilities factory) →
  run_maker (maker factory) (dev_uniqueId d) params = Resolved fs →
  normalize d kind mode params = Some (ch_uniqueId c0) →
  _cachedChannels st !! ch_uniqueId c0 = Some c0 →
  Binder.healthy (_db st) = true →
  let res := getChannel hasCapability d kind mode params forOpen st in
  res.2 = Resolved c0
  ∧ _cachedChannels res.1 = _cachedChannels st
  ∧ _db res.1 = _db st
  ∧ ∃ b, binders res.1 = binders st ++ [b]
         ∧ Binder.useCount b = 1
         ∧ Binder.uniqueId b = Some (ch_uniqueId c0).
Proof.
  intros Hclass Hcaps Hstate Hmake Hid Hcached Hdb. cbv zeta.
  unfold normalize in Hid. rewrite Hclass, Hmake in Hid.
  assert (Hu : match fs with
               | Some f => dev_uniqueId d +:+ "-" +:+ kind +:+ "-" +:+ f
               | None => dev_uniqueId d +:+ "-" +:+ kind
               end = ch_uniqueId c0) by (destruct fs; by injection Hid).
  assert (Hrun : ∃ b,
    getChannel hasCapability d kind mode params forOpen st
    = (mkState (_cachedChannels st) (binders st ++ [b]) (_db st)
               (S (constructed st))
               ((trace st ++ [EvConstruct (constructed st)])
                ++ [EvLog ("Obtained channel " +:+ ch_uniqueId c0)]),
       Resolved c0)
    ∧ Binder.useCount b = 1 ∧ Binder.uniqueId b = Some (ch_uniqueId c0)).
  { unfold getChannel.
    change (if decide (mode = "r") then getTriggerClass d kind
            else if decide (mode = "q") then getQueryClass d kind
                 else getActionClass d kind)
      with (resolveClass d kind mode).
    rewrite Hclass. unfold bind at 1. unfold lift. rewrite Hcaps.
    rewrite bool_decide_eq_true_2 by done.
    unfold bind, ret, new_binder, construct, emit. simpl.
    fold (run_maker (maker factory) (dev_uniqueId d) params).
    rewrite Hmake. simpl. rewrite Hu. unfold state_init_open. simpl.
    rewrite list_lookup_middle by done.
    unfold Binder.open, Binder._doOpen, Binder.getOne. simpl. rewrite Hdb.
    unfold cache_lookup.
    destruct (Binder.rows (_db st) !! Some (ch_uniqueId c0)) as [value|];
      simpl; rewrite Hcached; simpl;
      rewrite insert_app_r_alt, Nat.sub_diag by done; simpl;
      eexists; (split; [reflexivity|done]). }
  destruct Hrun as (b & -> & Hcount & Hbid). simpl. eauto 10.
Qed.


End Facts.

Lemma getChannel_dedup_witness :
  Forall (fun cl => Factory.call_id cl = Some "D-poll")
         [Scenario.poll_call; Scenario.poll_call; Scenario.poll_call]
  ∧ constructed
      (calls Scenario.hasCapability
             [Scenario.poll_call; Scenario.poll_call; Scenario.poll_call]
             Scenario.fresh).1 = 3.
Proof.
  assert (Hall : Forall (fun cl => Factory.call_id cl = Some "D-poll")
           [Scenario.poll_call; Scenario.poll_call; Scenario.poll_call])
    by (repeat constructor).
  split; [exact Hall|].
  exact (proj2 (proj2 (getChannel_dedup Scenario.hasCapability _
                         Scenario.fresh "D-poll" Hall))).
Defined.

(** C1, as stated, fails: two [getChannel] calls for the same trigger of
    the same device normalize to the same id and return the same object,
    yet the constructor has run twice. *)
Lemma getChannel_constructor_runs_per_call :
  let cs := [Scenario.poll_call; Scenario.poll_call] in
  let run := calls Scenario.hasCapability cs Scenario.fresh in
  Forall (fun cl => call_id cl = Some "D-poll") cs
  ∧ channels_of run.2 = [mkChannel 0 "D-poll" None None;
                         mkChannel 0 "D-poll" None None]
  ∧ ¬ (constructed run.1 ≤ 1).
Proof.
  cbv zeta. split; [by repeat constructor|]. split; [reflexivity|].
  vm_compute. lia.
Qed.

(** C4 — the code at the failing input.  Two requests for the stateful
    channel [D-feed].  The first builds object 0 with binder 0, finds the
    cache empty, closes binder 0 (one write to the store) and caches the
    object.  The second builds object 1 with binder 1, opens binder 1,
    finds [D-feed] cached and returns object 0: binder 1 keeps its
    holder, nothing is written, nobody closes it. *)
Theorem stateful_dedup_leaves_orphan_open :
  let first := getChannel Scenario.hasCapability Scenario.D "feed" "r" [] false
                 Scenario.fresh in
  let second := getChannel Scenario.hasCapability Scenario.D "feed" "r" [] false
                  first.1 in
  first.2 = Resolved (mkChannel 0 "D-feed" None (Some 0))
  ∧ second.2 = Resolved (mkChannel 0 "D-feed" None (Some 0))
  ∧ constructed second.1 = 2
  ∧ Binder.useCount <$> binders first.1 !! 0 = Some 0
  ∧ length (Binder.calls (_db first.1)) = 1
  ∧ Binder.useCount <$> binders second.1 !! 1 = Some 1
  ∧ Binder.uniqueId <$> binders second.1 !! 1 = Some (Some "D-feed")
  ∧ Binder.calls (_db second.1) = Binder.calls (_db first.1).
Proof. cbv zeta. repeat split; reflexivity. Qed.

(** The scenario of the spec: on the phone tier, a read channel of a
    device owned by the server goes through the proxy manager. *)
Example phone_requests_server_device :
  let run := getOpenedChannel Scenario.makeString Scenario.hasCapability PHONE
               Scenario.D "poll" "r" [] Scenario.fresh in
  proxy_calls (trace run.1)
  = [mkProxy "D-poll-" SERVER "D" (mkChannel 0 "D-poll" None None) "poll" "r" []]
  ∧ is_resolved run.2 = true.
Proof. cbv zeta. split; reflexivity. Qed.

End FactoryFacts.

(** ** The server connection *)

Module ServerFacts.
Import Server.

(** Closes a goal from a membership [H : x ∈ [y1; ..; yn]] in which [x]
    differs from every [yi] by its constructor. *)
Ltac absurd_elem H :=
  repeat first
    [ apply elem_of_nil in H; contradiction
    | apply elem_of_cons in H as [H|H]; [discriminate H|] ].
Implicit Types (st : Server.t) (msg : Msg) (c : Conn).

Lemma same_but_buffer_refl c : same_but_buffer c c.
Proof. by repeat split. Qed.

Lemma same_but_buffer_trans c1 c2 c3 :
  same_but_buffer c1 c2 → same_but_buffer c2 c3 → same_but_buffer c1 c3.
Proof. unfold same_but_buffer. intuition congruence. Qed.

Lemma buffers_only_refl st : buffers_only st st.
Proof.
  repeat split. apply Forall2_same_length_lookup. split; [done|].
  intros i c1 c2 H1 H2. rewrite H1 in H2. injection H2 as <-.
  apply same_but_buffer_refl.
Qed.

Lemma buffers_only_trans st1 st2 st3 :
  buffers_only st1 st2 → buffers_only st2 st3 → buffers_only st1 st3.
Proof.
  intros (Ht & Hc & Ha & Hn & Hh) (Ht' & Hc' & Ha' & Hn' & Hh').
  repeat split; try congruence.
  eapply Forall2_trans; [|exact Hh|exact Hh'].
  apply same_but_buffer_trans.
Qed.

Lemma buffers_only_update a c c' st :
  heap st !! a = Some c → same_but_buffer c c' →
  buffers_only st (set_conn a c' st).
Proof.
  intros Ha Hsame. repeat split. simpl.
  apply Forall2_same_length_lookup. split; [by rewrite length_insert|].
  intros i c1 c2 H1 H2. destruct (decide (i = a)) as [->|Hne].
  - rewrite list_lookup_insert_eq in H2 by (by eapply lookup_lt_Some).
    rewrite Ha in H1. by injection H1 as <-; injection H2 as <-.
  - rewrite list_lookup_insert_ne in H2 by done. rewrite H1 in H2.
    injection H2 as <-. apply same_but_buffer_refl.
Qed.

Lemma _sendTo_effect msg to st st' o r :
  _sendTo msg to st = (st', o, r) → buffers_only st st' ∧ Forall is_wire o.
Proof.
  unfold _sendTo, read.
  destruct (table_get to (_connections st)) as [a|];
    [|destruct (inherited to); intros [= <- <- <-];
      (split; [apply buffers_only_refl|by repeat constructor])].
  destruct (heap st !! a) as [c|] eqn:Ha;
    [|intros [= <- <- <-]; split; [apply buffers_only_refl|by repeat constructor]].
  destruct (socket c) as [s|] eqn:Hs; [destruct (dataOk c) eqn:Hd|];
    intros [= <- <- <-]; (split; [|by repeat constructor]).
  - apply buffers_only_refl.
  - eapply buffers_only_update; [done|]. by repeat split.
  - eapply buffers_only_update; [done|]. by repeat split.
Qed.

Lemma sendTo_each_effect ids msg st st' o r :
  sendTo_each msg ids st = (st', o, r) → buffers_only st st' ∧ Forall is_wire o.
Proof.
  revert msg st st' o r. induction ids as [|id ids IH]; intros msg st st' o r; simpl.
  - intros [= <- <- <-]. split; [apply buffers_only_refl|constructor].
  - destruct (_sendTo msg id st) as [[st1 o1] [msg1|]] eqn:H1;
      apply _sendTo_effect in H1 as [Hb1 Hw1].
    + destruct (sendTo_each msg1 ids st1) as [[st2 o2] r2] eqn:H2.
      apply IH in H2 as [Hb2 Hw2]. intros [= <- <- <-].
      split; [by eapply buffers_only_trans | by apply Forall_app].
    + by intros [= <- <- <-].
Qed.

Lemma send_effect msg to st st' o r :
  send msg to st = (st', o, r) → buffers_only st st' ∧ Forall is_wire o.
Proof.
  destruct to; simpl; [apply _sendTo_effect | apply sendTo_each_effect].
Qed.

Lemma sendMany_effect buffer to st st' o ok :
  sendMany buffer to st = (st', o, ok) → buffers_only st st' ∧ Forall is_wire o.
Proof.
  revert st st' o ok. induction buffer as [|msg rest IH]; intros st st' o ok; simpl.
  - intros [= <- <- <-]. split; [apply buffers_only_refl|constructor].
  - destruct (send msg to st) as [[st1 o1] [msg1|]] eqn:H1;
      apply send_effect in H1 as [Hb1 Hw1].
    + destruct (sendMany rest to st1) as [[st2 o2] ok2] eqn:H2.
      apply IH in H2 as [Hb2 Hw2]. intros [= <- <- <-].
      split; [by eapply buffers_only_trans | by apply Forall_app].
    + by intros [= <- <- <-].
Qed.

(** Flushing a buffer to an identity whose record holds a live,
    authenticated socket writes every message, tagged, in order. *)
Lemma sendMany_live buffer id a c s st :
  table_get id (_connections st) = Some a →
  heap st !! a = Some c → socket c = Some s → dataOk c = true →
  sendMany buffer (Some id) st
  = (st, map (fun m => SockSend s (tag_data m)) buffer, true).
Proof.
  intros Ht Ha Hs Hd. induction buffer as [|msg rest IH]; [done|].
  simpl. unfold _sendTo, read. rewrite Ht, Ha, Hs, Hd. by rewrite IH.
Qed.

Lemma is_wire_not_delivery o m from : is_wire o → o ≠ EmitMessage m from.
Proof. by destruct o. Qed.

Lemma wire_no_delivery os m from :
  Forall is_wire os → EmitMessage m from ∉ os.
Proof.
  intros Hw Hin. rewrite Forall_forall in Hw.
  by apply (is_wire_not_delivery _ m from (Hw _ Hin)).
Qed.

Lemma authed_before_mono s h h' :
  authed_before s h → authed_before s (h ++ h').
Proof. intros (e & He & Hacc). exists e. split; [|done]. set_solver. Qed.

(** How the invariant moves along a transition that keeps the sockets
    and may raise [dataOk] only on the record [a] of a socket [s] that
    has authenticated in [h']. *)
Lemma invariant_transfer st st' h h' (auth : option (nat * nat)) :
  closure st' = closure st →
  length (heap st') = length (heap st) →
  (∀ a' c', heap st' !! a' = Some c' → dataOk c' = true →
     (∃ c, heap st !! a' = Some c ∧ dataOk c = true)
     ∨ (∃ s, auth = Some (s, a'))) →
  (∀ s a, auth = Some (s, a) → closure st !! s = Some a ∧ authed_before s h') →
  (∀ s, authed_before s h → authed_before s h') →
  gate_invariant st h → gate_invariant st' h'.
Proof.
  intros Hcl Hlen Hheap Hauth Hmono (Hnd & Hrange & Hinv).
  split; [by rewrite Hcl|]. split; [rewrite Hcl, Hlen; exact Hrange|].
  intros s a c' Hs Ha Hd. rewrite Hcl in Hs.
  destruct (Hheap _ _ Ha Hd) as [(c & Hc & Hdc)|(s0 & Hs0)].
  - apply Hmono. by eapply Hinv.
  - destruct (Hauth _ _ Hs0) as [Hs0a Hb].
    by rewrite (NoDup_lookup _ _ _ _ Hnd Hs Hs0a).
Qed.

Lemma buffers_only_dataOk st st' a' c' :
  buffers_only st st' → heap st' !! a' = Some c' → dataOk c' = true →
  ∃ c, heap st !! a' = Some c ∧ dataOk c = true.
Proof.
  intros (_ & _ & _ & _ & Hh) Ha Hd.
  destruct (Forall2_lookup_r _ _ _ _ _ Hh Ha) as (c & Hc & Hsame).
  exists c. split; [done|]. destruct Hsame as (_ & Hdo & _). congruence.
Qed.

Lemma buffers_only_length st st' :
  buffers_only st st' → length (heap st') = length (heap st).
Proof. intros (_ & _ & _ & _ & Hh). symmetry. by eapply Forall2_length. Qed.

Lemma invariant_buffers_only st st' h h' :
  buffers_only st st' → (∀ s, authed_before s h → authed_before s h') →
  gate_invariant st h → gate_invariant st' h'.
Proof.
  intros Hb Hmono. apply (invariant_transfer st st' h h' None);
    [by destruct Hb as (_ & ? & _) | by apply buffers_only_length | | done | done].
  intros a' c' Ha Hd. left. by eapply buffers_only_dataOk.
Qed.

(** Overwriting one record without raising its [dataOk]. *)
Lemma invariant_lower st st' a c c' h h' :
  heap st !! a = Some c → closure st' = closure st →
  heap st' = <[a := c']> (heap st) →
  (dataOk c' = true → dataOk c = true) →
  (∀ s, authed_before s h → authed_before s h') →
  gate_invariant st h → gate_invariant st' h'.
Proof.
  intros Ha Hcl Hh Hd Hmono. apply (invariant_transfer st st' h h' None);
    [done | by rewrite Hh, length_insert | | done | done].
  intros a' c'' Ha' Hd'. left. rewrite Hh in Ha'.
  destruct (decide (a' = a)) as [->|Hne].
  - rewrite list_lookup_insert_eq in Ha' by (by eapply lookup_lt_Some).
    injection Ha' as <-. eauto.
  - rewrite list_lookup_insert_ne in Ha' by done. eauto.
Qed.

Lemma supersede_no_delivery (old : option Conn) m from :
  EmitMessage m from
  ∉ match old with
    | Some oc =>
        (match socket oc with Some s' => [SockTerminate s'] | None => [] end)
        ++ (if decide (pingTimeout oc = PingOff) then []
            else [ClearInterval (pingTimeout oc)])
    | None => []
    end.
Proof.
  intros Hin. destruct old as [oc|]; [|absurd_elem Hin].
  destruct (socket oc), (decide (pingTimeout oc = PingOff)); simpl in Hin;
    absurd_elem Hin.
Qed.

Lemma flush_effect (old : option Conn) id st st' os ok :
  match old with
  | Some oc => sendMany (outgoingBuffer oc) (Some id) st
  | None => (st, [], true)
  end = (st', os, ok) →
  buffers_only st st' ∧ Forall is_wire os.
Proof.
  destruct old as [oc|]; [by apply sendMany_effect|].
  intros [= <- <- <-]. split; [apply buffers_only_refl|constructor].
Qed.

(** The success branch: what it does to the records, and what it
    outputs. *)
Lemma authenticate_effect s a id c st st' o :
  heap st !! a = Some c →
  authenticate s a id st = (st', o) →
  closure st' = closure st
  ∧ length (heap st') = length (heap st)
  ∧ (∀ a' c', heap st' !! a' = Some c' → dataOk c' = true →
       a' = a ∨ ∃ c0, heap st !! a' = Some c0 ∧ dataOk c0 = true)
  ∧ Console "Client successfully authenticated" ∈ o
  ∧ (∀ m from, EmitMessage m from ∉ o).
Proof.
  intros Ha. unfold authenticate. rewrite Ha.
  set (c1 := mkConn (socket c) true (closeOk c) (closeCallback c)
               (pingTimeout c) (outgoingBuffer c) (Some id)).
  set (st1 := set_conn a c1 st).
  set (st2 := set_table _ st1).
  assert (Hlt : a < length (heap st)) by (by eapply lookup_lt_Some).
  assert (H2a : heap st2 !! a = Some c1)
    by (simpl; by rewrite list_lookup_insert_eq).
  rewrite H2a. simpl.
  set (st3 := mk _ _ _ _ _).
  destruct (match oldConnection _ _ _ with
            | Some oc => sendMany (outgoingBuffer oc) (Some id) st3
            | None => (st3, [], true)
            end) as [[st4 os] ok] eqn:Hsend.
  pose proof (flush_effect _ _ _ _ _ _ Hsend) as Hb.
  destruct Hb as [Hb Hw].
  intros [= <- <-].
  split; [by destruct Hb as (_ & -> & _)|].
  split; [rewrite (buffers_only_length _ _ Hb); simpl; by rewrite !length_insert|].
  split; [|split].
  - intros a' c' Ha' Hd'.
    destruct (buffers_only_dataOk _ _ _ _ Hb Ha' Hd') as (c3 & Hc3 & Hd3).
    destruct (decide (a' = a)) as [->|Hne]; [by left|right].
    simpl in Hc3. rewrite !list_lookup_insert_ne in Hc3 by done. eauto.
  - set_solver.
  - intros m from Hin.
    apply elem_of_cons in Hin as [?|Hin]; [done|].
    apply elem_of_app in Hin as [Hin|Hin].
    { by eapply supersede_no_delivery. }
    apply elem_of_cons in Hin as [?|Hin]; [done|].
    apply elem_of_app in Hin as [Hin|Hin]; [by eapply wire_no_delivery|].
    destruct ok; absurd_elem Hin.
Qed.

Lemma invariant_extend st h h' : gate_invariant st h → gate_invariant st (h ++ h').
Proof.
  apply invariant_buffers_only; [apply buffers_only_refl|].
  intros s. apply authed_before_mono.
Qed.

(** What passing the authentication test means for the frame. *)
Lemma auth_passed msg configured :
  auth_rejected msg configured = false →
  control msg = JStr "auth"
  ∧ ∃ id tok, identity msg = JStr id ∧ token msg = JStr tok
              ∧ configured = Some tok.
Proof.
  unfold auth_rejected. rewrite !orb_false_iff, !negb_false_iff.
  intros [[[Hc Hi] Hu] Ht]. apply bool_decide_eq_true in Hc.
  apply bool_decide_eq_false in Hu.
  split; [done|].
  destruct (identity msg) as [| | | |id|]; try done.
  destruct (token msg) as [| | | |tok|], configured as [t|]; try done.
  apply bool_decide_eq_true in Ht as ->. eauto.
Qed.

Lemma handleConnection_invariant st h h' :
  gate_invariant st h → gate_invariant (_handleConnection st).1 (h ++ h').
Proof.
  intros (Hnd & Hrange & Hinv). unfold _handleConnection, gate_invariant. simpl.
  split; [|split].
  - apply NoDup_app. split; [done|]. split; [|apply NoDup_singleton].
    intros a Ha Hin. apply list_elem_of_singleton in Hin as ->.
    apply list_elem_of_lookup in Ha as [s Hs]. specialize (Hrange _ _ Hs). lia.
  - intros s a Hs. rewrite length_app. simpl.
    apply lookup_app_Some in Hs as [Hs|[_ Hs]].
    + specialize (Hrange _ _ Hs). lia.
    + destruct (s - length (closure st)); [|done]. injection Hs as <-. lia.
  - intros s a c Hs Ha Hd.
    apply lookup_app_Some in Hs as [Hs|[_ Hs]].
    + pose proof (Hrange _ _ Hs) as Hlt.
      rewrite lookup_app_l in Ha by done.
      apply authed_before_mono. by eapply Hinv.
    + destruct (s - length (closure st)); [|done]. injection Hs as <-.
      rewrite list_lookup_middle in Ha by done. injection Ha as <-. done.
Qed.

Lemma table_get_set_eq k a tbl : table_get k (table_set k a tbl) = Some a.
Proof.
  induction tbl as [|[k' a'] tbl IH]; simpl.
  - by rewrite decide_True.
  - destruct (decide (k' = k)) as [->|Hne]; simpl.
    + by rewrite decide_True.
    + by rewrite decide_False.
Qed.

Lemma sent_on_app s os1 os2 : sent_on s (os1 ++ os2) = sent_on s os1 ++ sent_on s os2.
Proof. unfold sent_on. apply omap_app. Qed.

Lemma sent_on_sends s (f : Msg → Msg) ms :
  sent_on s (map (fun m => SockSend s (f m)) ms) = map f ms.
Proof.
  unfold sent_on. induction ms as [|m ms IH]; [done|].
  simpl. rewrite decide_True by done. simpl. by f_equal.
Qed.

(** What the server does to the record that was registered under the
    identity before: terminate its socket, clear its interval. *)
Lemma sent_on_supersede s (old : option Conn) :
  sent_on s match old with
            | Some oc =>
                (match socket oc with Some s' => [SockTerminate s'] | None => [] end)
                ++ (if decide (pingTimeout oc = PingOff) then []
                    else [ClearInterval (pingTimeout oc)])
            | None => []
            end = [].
Proof.
  destruct old as [oc|]; [|done].
  by destruct (socket oc), (decide (pingTimeout oc = PingOff)).
Qed.

(** The success branch on a record that still holds its socket, in
    full: the state it leaves and the outputs, in order. *)
Lemma authenticate_live s a id c st :
  heap st !! a = Some c → socket c = Some s →
  let c1 := mkConn (socket c) true (closeOk c) (closeCallback c)
              (pingTimeout c) (outgoingBuffer c) (Some id) in
  let c3 := mkConn (socket c) true (closeOk c) (closeCallback c)
              (PingTimer (timers st)) (outgoingBuffer c) (Some id) in
  let old := oldConnection id (_connections st) (<[a := c1]> (heap st)) in
  authenticate s a id st
  = (mk (table_set id a (_connections st))
        (<[a := c3]> (<[a := c1]> (heap st)))
        (closure st) (authToken st) (S (timers st)),
     [Console "Client successfully authenticated"]
     ++ match old with
        | Some oc =>
            (match socket oc with Some s' => [SockTerminate s'] | None => [] end)
            ++ (if decide (pingTimeout oc = PingOff) then []
                else [ClearInterval (pingTimeout oc)])
        | None => []
        end
     ++ [SetInterval (timers st) a]
     ++ map (fun m => SockSend s (tag_data m))
            (from_option outgoingBuffer [] old)
     ++ [EmitConnected id]).
Proof.
  intros Ha Hsock. cbv zeta. unfold authenticate. rewrite Ha.
  assert (Hlt : a < length (heap st)) by (by eapply lookup_lt_Some).
  set (c1 := mkConn (socket c) true _ _ _ _ _).
  cbn [set_conn set_table _connections heap closure authToken timers].
  rewrite list_lookup_insert_eq by done.
  set (c3 := mkConn (socket c1) (dataOk c1) _ _ (PingTimer _) _ _).
  set (st3 := mk _ (<[a := c3]> _) _ _ _).
  set (old1 := oldConnection id (_connections st) (<[a := c1]> (heap st))).
  assert (Hold3 : oldConnection id (_connections st) (heap st3)
                  = (fun oc => if decide (table_get id (_connections st) = Some a)
                               then c3 else oc) <$> old1).
  { unfold old1, oldConnection, read.
    destruct (table_get id (_connections st)) as [ao|];
      [|by destruct (inherited id)].
    simpl. destruct (decide (Some ao = Some a)) as [[= ->]|Hne].
    - rewrite !list_lookup_insert_eq by (by rewrite ?length_insert). done.
    - assert (ao ≠ a) by congruence.
      rewrite !list_lookup_insert_ne by done.
      by destruct (heap st !! ao). }
  assert (Hbuf : from_option outgoingBuffer []
                   (oldConnection id (_connections st) (heap st3))
                 = from_option outgoingBuffer [] old1).
  { rewrite Hold3. destruct old1 as [oc|] eqn:Hoc; [|done]. simpl.
    destruct (decide _) as [Heq|]; [|done]. simpl.
    unfold old1, oldConnection, read in Hoc. rewrite Heq in Hoc. simpl in Hoc.
    rewrite list_lookup_insert_eq in Hoc by done. by injection Hoc as <-. }
  assert (Hflush :
    match oldConnection id (_connections st) (heap st3) with
    | Some oc => sendMany (outgoingBuffer oc) (Some id) st3
    | None => (st3, [], true)
    end = (st3, map (fun m => SockSend s (tag_data m))
                    (from_option outgoingBuffer [] old1), true)).
  { rewrite <- Hbuf. clear Hbuf Hold3.
    generalize (oldConnection id (_connections st) (heap st3)).
    intros [oc|]; [|done].
    simpl. apply (sendMany_live _ id a c3 s).
    - apply table_get_set_eq.
    - simpl. by rewrite list_lookup_insert_eq by (by rewrite length_insert).
    - done.
    - done. }
  rewrite Hflush. reflexivity.
Qed.

(** What [for .. in] goes through are properties of the table. *)
Lemma enumerate_elem e tbl : e ∈ enumerate tbl → e ∈ tbl.
Proof.
  unfold enumerate. rewrite elem_of_app. intros [Hin|Hin].
  - apply list_elem_of_fmap in Hin as ([n e'] & -> & Hin).
    rewrite merge_sort_Permutation in Hin.
    apply list_elem_of_omap in Hin as (e0 & He0 & Heq).
    destruct (array_index e0.1); [|done]. simpl in Heq. by injection Heq as _ <-.
  - by apply list_elem_of_filter in Hin as [_ Hin].
Qed.

Lemma enumerate_other e tbl :
  e ∈ tbl → e.1 ≠ "__proto__" → e ∈ enumerate tbl.
Proof.
  intros Hin Hne. unfold enumerate. rewrite elem_of_app.
  destruct (array_index e.1) as [n|] eqn:Hidx.
  - left. apply list_elem_of_fmap. exists (n, e). split; [done|].
    rewrite merge_sort_Permutation. apply list_elem_of_omap.
    exists e. split; [done|]. by rewrite Hidx.
  - right. apply list_elem_of_filter. split; [|done].
    unfold named. rewrite Hidx. by rewrite bool_decide_eq_false_2.
Qed.

Lemma table_get_key id tbl :
  id ∈ map fst tbl → is_Some (table_get id tbl).
Proof.
  induction tbl as [|[k a] tbl IH]; simpl; [by intros ?%elem_of_nil|].
  intros Hin. destruct (decide (k = id)); [done|].
  apply elem_of_cons in Hin as [?|Hin]; [congruence|by apply IH].
Qed.

Lemma enumerate_keys id tbl :
  id ∈ map fst (enumerate tbl) → is_Some (table_get id tbl).
Proof.
  intros Hin. apply table_get_key.
  apply list_elem_of_fmap in Hin as (e & -> & Hin).
  apply list_elem_of_fmap. exists e. split; [done|]. by apply enumerate_elem.
Qed.

(** With no identity written as an array index and none called
    [__proto__], [for .. in] goes through the table as it stands. *)
Lemma enumerate_named tbl :
  Forall (fun e => named e = true) tbl → enumerate tbl = tbl.
Proof.
  intros Hall. unfold enumerate.
  assert (Hnone : index_keys tbl = []).
  { unfold index_keys. induction Hall as [|e tbl He _ IH]; [done|].
    simpl. unfold named in He. destruct (array_index e.1); [done|]. exact IH. }
  rewrite Hnone. simpl.
  induction Hall as [|e tbl He _ IH]; [done|].
  rewrite filter_cons_True by (by rewrite He). f_equal. apply IH.
  unfold index_keys in *. simpl in Hnone. unfold named in He.
  by destruct (array_index e.1).
Qed.


Section Handlers.
Variable setAuthToken : string → option string → option string * bool.

(** X24 — Promotion on authentication.  A socket [s] whose connection
    record still holds it (it has not been through the
    [set-auth-token] pairing exchange), not yet authenticated, presents
    an [auth] frame with string identity [id] and the configured token.
    Then its record is marked [dataOk] and registered under [id]; the
    socket of the record registered under [id] before, if any, is
    terminated and its keepalive interval cleared; a new keepalive
    interval is started for the record; and the messages buffered under
    [id] are written to socket [s], tagged as data, in buffer order. *)
Theorem auth_promotes s a c msg id tok st :
  closure st !! s = Some a → heap st !! a = Some c →
  dataOk c = false → socket c = Some s →
  control msg = JStr "auth" → identity msg = JStr id →
  token msg = JStr tok → authToken st = Some tok →
  let old := table_get id (_connections st) ≫= (fun ao => heap st !! ao) in
  let res := on_message setAuthToken s (Parsed msg) st in
  table_get id (_connections res.1) = Some a
  ∧ (∃ c', heap res.1 !! a = Some c' ∧ dataOk c' = true ∧ socket c' = Some s
           ∧ c_identity c' = Some id
           ∧ pingTimeout c' = PingTimer (timers st))
  ∧ SetInterval (timers st) a ∈ res.2
  ∧ (∀ oc s', old = Some oc → socket oc = Some s' → SockTerminate s' ∈ res.2)
  ∧ (∀ oc, old = Some oc → pingTimeout oc ≠ PingOff →
           ClearInterval (pingTimeout oc) ∈ res.2)
  ∧ sent_on s res.2 = map tag_data (from_option outgoingBuffer [] old)
  ∧ EmitConnected id ∈ res.2.
Proof.
  intros Hs Ha Hd Hsock Hctl Hid Htok Hcfg. cbv zeta.
  assert (Hrun : on_message setAuthToken s (Parsed msg) st = authenticate s a id st).
  { unfold on_message. rewrite Hs, Ha, Hd. simpl.
    rewrite decide_False by (by rewrite Hctl).
    unfold auth_rejected. rewrite Hctl, Hid, Htok, Hcfg. simpl.
    rewrite ?bool_decide_eq_true_2 by done. simpl.
    by rewrite ?bool_decide_eq_false_2 by done. }
  rewrite Hrun, (authenticate_live s a id c st Ha Hsock).
  assert (Hlt : a < length (heap st)) by (by eapply lookup_lt_Some).
  set (c1 := mkConn (socket c) true (closeOk c) (closeCallback c)
               (pingTimeout c) (outgoingBuffer c) (Some id)).
  set (old1 := oldConnection id (_connections st) (<[a := c1]> (heap st))).
  set (old := table_get id (_connections st) ≫= (fun ao => heap st !! ao)).
  (* the record read as [oldConnection] agrees with the one registered
     before on socket, interval and buffer *)
  assert (Hold : ∀ oc, old = Some oc →
            ∃ oc1, old1 = Some oc1 ∧ socket oc1 = socket oc
                   ∧ pingTimeout oc1 = pingTimeout oc
                   ∧ outgoingBuffer oc1 = outgoingBuffer oc).
  { unfold old, old1, oldConnection, read.
    destruct (table_get id (_connections st)) as [ao|]; [|done].
    simpl. intros oc Hoc. destruct (decide (ao = a)) as [->|Hne].
    - rewrite list_lookup_insert_eq by done. rewrite Ha in Hoc.
      injection Hoc as <-. by exists c1.
    - rewrite list_lookup_insert_ne by done. by exists oc. }
  assert (Hbuf : from_option outgoingBuffer [] old1
                 = from_option outgoingBuffer [] old).
  { destruct old as [oc|] eqn:Hoc.
    - destruct (Hold oc eq_refl) as (oc1 & -> & _ & _ & Hb). done.
    - unfold old, old1, oldConnection, read in *.
      destruct (table_get id (_connections st)) as [ao|];
        [|by destruct (inherited id)].
      simpl in *. destruct (decide (ao = a)) as [->|Hne]; [congruence|].
      by rewrite list_lookup_insert_ne, Hoc by done. }
  cbn [fst snd _connections heap].
  split; [apply table_get_set_eq|]. split.
  { eexists. split; [by apply list_lookup_insert_eq; rewrite length_insert|].
    done. }
  split; [rewrite !elem_of_app; right; right; left; apply list_elem_of_singleton; done|].
  split; [|split; [|split]].
  - intros oc s' Hoc Hs'. destruct (Hold oc Hoc) as (oc1 & -> & Hs1 & _).
    rewrite Hs1, Hs'. rewrite !elem_of_app. right; left. left.
    by apply list_elem_of_singleton.
  - intros oc Hoc Hp. destruct (Hold oc Hoc) as (oc1 & -> & _ & Hp1 & _).
    rewrite Hp1. rewrite decide_False by done.
    rewrite !elem_of_app. right; left. right. by apply list_elem_of_singleton.
  - rewrite !sent_on_app, sent_on_supersede, sent_on_sends, Hbuf.
    simpl. by rewrite app_nil_r.
  - rewrite !elem_of_app. do 4 right. by apply list_elem_of_singleton.
Qed.

Lemma on_message_invariant s data st st' o h :
  on_message setAuthToken s data st = (st', o) →
  gate_invariant st h →
  gate_invariant st' (h ++ [mkEntry st (InFrame s data) o]).
Proof.
  unfold on_message.
  destruct (closure st !! s) as [a|] eqn:Hs;
    [|intros [= <- <-]; apply invariant_extend].
  destruct (heap st !! a) as [c|] eqn:Ha;
    [|intros [= <- <-]; apply invariant_extend].
  destruct data as [| |msg].
  - intros [= <- <-]; apply invariant_extend.
  - destruct (dataOk c); simpl; [destruct (_findConnection s st)|];
      intros [= <- <-]; apply invariant_extend.
  - destruct (dataOk c) eqn:Hd; simpl.
    { destruct (_findConnection s st); [destruct (decide _)|];
        intros [= <- <-]; apply invariant_extend. }
    destruct (decide (control msg = JStr "set-auth-token")) as [Hset|Hset].
    { destruct (if truthy (token msg) then _ else _) as [configured accepted].
      intros [= <- <-].
      eapply (invariant_lower st _ a c); [done|done|done|done|].
      intros s0. apply authed_before_mono. }
    destruct (auth_rejected msg (authToken st)) eqn:Hrej;
      [intros [= <- <-]; apply invariant_extend|].
    destruct (auth_passed _ _ Hrej) as (Hctl & id & tok & Hid & Htok & Hcfg).
    rewrite Hid. intros Hauth Hinv.
    destruct (authenticate_effect _ _ _ _ _ _ _ Ha Hauth)
      as (Hcl & Hlen & Hheap & Hlog & _).
    apply (invariant_transfer st st' h _ (Some (s, a))); try done.
    + intros a' c' Ha' Hd'. destruct (Hheap _ _ Ha' Hd') as [->|?]; eauto.
    + intros s0 a0 [= <- <-]. split; [done|].
      eexists. split; [apply elem_of_app; right; apply list_elem_of_singleton; done|].
      exists msg, id, tok, a, c. simpl. by repeat split.
    + intros s0. apply authed_before_mono.
Qed.

Lemma on_close_invariant s st st' o h h' :
  on_close s st = (st', o) → gate_invariant st h → gate_invariant st' (h ++ h').
Proof.
  unfold on_close.
  destruct (_findConnection s st) as [a|];
    [|intros [= <- <-]; apply invariant_extend].
  destruct (heap st !! a) as [c|] eqn:Ha;
    [|intros [= <- <-]; apply invariant_extend].
  destruct (closeOk c); intros [= <- <-]; [apply invariant_extend|].
  eapply (invariant_lower st _ a c); [done|done|done|done|].
  intros s0. apply authed_before_mono.
Qed.

Lemma closeOne_invariant id st st' o h h' :
  closeOne id st = (st', o) → gate_invariant st h → gate_invariant st' (h ++ h').
Proof.
  unfold closeOne, read.
  destruct (table_get id (_connections st)) as [a|];
    [|destruct (inherited id); intros [= <- <-]; apply invariant_extend].
  destruct (heap st !! a) as [c|] eqn:Ha;
    [|intros [= <- <-]; apply invariant_extend].
  destruct (socket c); intros [= <- <-];
    (eapply (invariant_lower st _ a c); [done|done|done|done|]);
    intros s0; apply authed_before_mono.
Qed.

(** Every input keeps the invariant, with the entry it produces added to
    the run. *)
Lemma step_invariant i st st' o h :
  step setAuthToken i st = (st', o) →
  gate_invariant st h → gate_invariant st' (h ++ [mkEntry st i o]).
Proof.
  destruct i as [|s data|s|msg to|id]; simpl.
  - intros [= <- <-]. apply handleConnection_invariant.
  - apply on_message_invariant.
  - apply on_close_invariant.
  - destruct (send msg to st) as [[st1 o1] r] eqn:Hsend. intros [= <- <-].
    apply send_effect in Hsend as [Hb _].
    apply invariant_buffers_only; [done|]. intros s. apply authed_before_mono.
  - apply closeOne_invariant.
Qed.

(** Only the ['message'] handler of a socket whose record says [dataOk]
    hands a frame to the application. *)
Lemma step_delivery i st st' o m from :
  step setAuthToken i st = (st', o) → EmitMessage m from ∈ o →
  ∃ s data a c, i = InFrame s data ∧ closure st !! s = Some a
                ∧ heap st !! a = Some c ∧ dataOk c = true.
Proof.
  destruct i as [|s data|s|msg to|id]; simpl.
  - intros [= <- <-] Hin. absurd_elem Hin.
  - unfold on_message.
    destruct (closure st !! s) as [a|] eqn:Hs;
      [|intros [= <- <-] Hin; absurd_elem Hin].
    destruct (heap st !! a) as [c|] eqn:Ha;
      [|intros [= <- <-] Hin; absurd_elem Hin].
    destruct (dataOk c) eqn:Hd; [intros _ _; by exists s, data, a, c|].
    destruct data as [| |msg]; simpl.
    + intros [= <- <-] Hin; absurd_elem Hin.
    + intros [= <- <-] Hin; absurd_elem Hin.
    + destruct (decide (control msg = JStr "set-auth-token")).
      { destruct (if truthy (token msg) then _ else _) as [configured accepted].
        intros [= <- <-] Hin. destruct accepted; absurd_elem Hin. }
      destruct (auth_rejected msg (authToken st));
        [intros [= <- <-] Hin; absurd_elem Hin|].
      destruct (identity msg); try (intros [= <- <-] Hin; absurd_elem Hin).
      intros Hauth Hin.
      destruct (authenticate_effect _ _ _ _ _ _ _ Ha Hauth) as (_ & _ & _ & _ & Hno).
      by apply Hno in Hin.
  - unfold on_close. destruct (_findConnection s st) as [a|];
      [|intros [= <- <-] Hin; absurd_elem Hin].
    destruct (heap st !! a) as [c|];
      [|intros [= <- <-] Hin; absurd_elem Hin].
    destruct (closeOk c), (decide (pingTimeout c = PingOff)),
      (closeCallback c); intros [= <- <-] Hin; simpl in Hin; absurd_elem Hin.
  - destruct (send msg to st) as [[st1 o1] r] eqn:Hsend. intros [= <- <-] Hin.
    apply send_effect in Hsend as [_ Hw]. by apply wire_no_delivery in Hin.
  - unfold closeOne, read. destruct (table_get id (_connections st)) as [a|];
      [|destruct (inherited id); intros [= <- <-] Hin; absurd_elem Hin].
    destruct (heap st !! a) as [c|];
      [|intros [= <- <-] Hin; absurd_elem Hin].
    destruct (socket c); intros [= <- <-] Hin; absurd_elem Hin.
Qed.

Lemma create_invariant configured expected :
  gate_invariant (create configured expected) [].
Proof.
  assert (Hcl : ∀ l st, closure st = [] →
            closure (foldl (fun st from =>
              mk (table_set from (length (heap st)) (_connections st))
                 (heap st ++ [expected_record]) (closure st)
                 (authToken st) (timers st)) st l) = []).
  { induction l as [|x l IH]; intros st Hst; [done|]. simpl. by apply IH. }
  unfold gate_invariant, create. rewrite Hcl by done.
  split; [constructor|]. split; intros s a; by rewrite lookup_nil.
Qed.

(** The gate, along any run: whoever delivers has authenticated before. *)
Lemma gate_along_run ins st past h1 e h2 :
  gate_invariant st past →
  exec setAuthToken st ins = h1 ++ e :: h2 →
  delivers e →
  ∃ s data, input e = InFrame s data ∧ authed_before s (past ++ h1).
Proof.
  revert st past h1. induction ins as [|i ins IH]; intros st past h1 Hinv Hrun Hdel.
  - by destruct h1.
  - simpl in Hrun. destruct (step setAuthToken i st) as [st' o] eqn:Hstep.
    destruct h1 as [|e1 h1]; simpl in Hrun.
    + injection Hrun as <- _. destruct Hdel as (m & from & Hin). simpl in Hin.
      destruct (step_delivery _ _ _ _ _ _ Hstep Hin)
        as (s & data & a & c & -> & Hs & Ha & Hd).
      exists s, data. split; [done|]. rewrite app_nil_r.
      destruct Hinv as (_ & _ & Hinv). by eapply Hinv.
    + injection Hrun as <- Hrun.
      destruct (IH st' (past ++ [mkEntry st i o]) h1) as (s & data & Hi & Hb);
        [by apply step_invariant|done|done|].
      exists s, data. split; [done|]. by rewrite <- app_assoc in Hb.
Qed.

(** C2 — the authentication gate.  Start from a freshly constructed
    server (any expected peers, any configured token, any platform) and
    feed it any sequence of connections, frames, socket closures, sends
    and close requests.  Whenever an entry of the run hands a frame to
    the application (emits ['message']), it is a frame received on some
    socket [s], and strictly earlier in the run the same socket [s]
    presented an [auth] frame with a string identity and the token
    configured at that moment, which the server accepted. *)
Theorem auth_gate configured expected ins h1 e h2 :
  exec setAuthToken (create configured expected) ins = h1 ++ e :: h2 →
  delivers e →
  ∃ s data, input e = InFrame s data ∧
    ∃ e0, e0 ∈ h1 ∧ accepted_auth s e0.
Proof.
  intros Hrun Hdel.
  destruct (gate_along_run ins _ [] h1 e h2
              (create_invariant configured expected) Hrun Hdel)
    as (s & data & Hi & Hb).
  by exists s, data.
Qed.

End Handlers.

Lemma auth_gate_witness :
  Server.exec Scenario.pairing (create (Some "secret") ["phone"])
    Scenario.gate_inputs
  = take 4 Scenario.gate_run ++ Scenario.gate_delivery :: []
  ∧ delivers Scenario.gate_delivery
  ∧ ∃ s data, input Scenario.gate_delivery = InFrame s data ∧
      ∃ e0, e0 ∈ take 4 Scenario.gate_run ∧ accepted_auth s e0.
Proof.
  assert (Hrun : Server.exec Scenario.pairing (create (Some "secret") ["phone"])
                   Scenario.gate_inputs
                 = take 4 Scenario.gate_run ++ Scenario.gate_delivery :: [])
    by reflexivity.
  assert (Hdel : delivers Scenario.gate_delivery).
  { exists (delete_control (Scenario.data_frame "hello")), (Some "phone").
    apply list_elem_of_singleton. reflexivity. }
  split; [exact Hrun|]. split; [exact Hdel|].
  exact (auth_gate Scenario.pairing _ _ _ _ _ _ Hrun Hdel).
Defined.

Lemma auth_promotes_witness :
  closure Scenario.waiting_server !! 0 = Some 1
  ∧ heap Scenario.waiting_server !! 1 = Some (fresh_record 0)
  ∧ authToken Scenario.waiting_server = Some "secret"
  ∧ sent_on 0 (on_message Scenario.pairing 0
                 (Parsed (Scenario.auth_frame "phone" "secret"))
                 Scenario.waiting_server).2
    = [Scenario.data_frame "m1"; Scenario.data_frame "m2"].
Proof.
  split; [reflexivity|]. split; [reflexivity|]. split; [reflexivity|].
  pose proof (auth_promotes Scenario.pairing 0 1 (fresh_record 0)
                (Scenario.auth_frame "phone" "secret") "phone" "secret"
                Scenario.waiting_server
                eq_refl eq_refl eq_refl eq_refl eq_refl eq_refl eq_refl eq_refl)
    as (_ & _ & _ & _ & _ & Hsent & _).
  exact Hsent.
Defined.

(** C5 — authentication on a socket that paired first.  The pairing
    branch sets [connection.socket = null] and closes nothing, so the
    socket and its handler live on.  An [auth] frame with the right
    token on that socket is accepted: the record is marked [dataOk] and
    registered under the identity, the interval is started and
    ['connected'] is emitted; but the record holds no socket, so the
    message buffered for the identity is not written to the socket (it
    goes back onto the buffer) and [isConnected] answers [false]. *)
Theorem auth_after_pairing_not_flushed :
  let st := Scenario.paired_server in
  let res := on_message Scenario.pairing 0
               (Parsed (Scenario.auth_frame "phone" "secret")) st in
  authToken st = Some "secret"
  ∧ outgoingBuffer <$> (table_get "phone" (_connections st) ≫= (fun a => heap st !! a))
    = Some [Scenario.note "m1"]
  ∧ res.2 = [Console "Client successfully authenticated";
             ClearInterval PingUndefined; SetInterval 0 1;
             EmitConnected "phone"]
  ∧ (dataOk <$> (table_get "phone" (_connections res.1) ≫= (fun a => heap res.1 !! a)))
    = Some true
  ∧ sent_on 0 res.2 ≠ map tag_data [Scenario.note "m1"]
  ∧ outgoingBuffer <$> (table_get "phone" (_connections res.1)
                        ≫= (fun a => heap res.1 !! a))
    = Some [Scenario.note "m1"]
  ∧ isConnected "phone" res.1 = false.
Proof. cbv zeta. repeat split; try reflexivity. by vm_compute. Qed.


(** C10 — a destination named like a member of [Object.prototype].  The
    server that expects the phone has no connection for [toString]; a
    [send] to that name finds the inherited function where it should
    find [undefined], passes the destination test, and throws a
    [TypeError] where the message is to be pushed on the buffer.  The
    state is left as it was. *)
Theorem send_to_member_name :
  table_get "toString" (_connections Scenario.waiting_server) = None
  ∧ send (Scenario.note "x") (Some "toString") Scenario.waiting_server
    = (Scenario.waiting_server, [Throw "TypeError"], None).
Proof. split; reflexivity. Qed.

End ServerFacts.

(** ** The client connection: the reconnect budget *)

Module ClientFacts.
Import Client.
Implicit Types (st : Client.t) (h : list Entry).

Lemma count_attempts_app o1 o2 :
  count_attempts (o1 ++ o2) = count_attempts o1 + count_attempts o2.
Proof. unfold count_attempts. by rewrite filter_app, length_app. Qed.

Lemma count_failures_app o1 o2 :
  count_failures (o1 ++ o2) = count_failures o1 + count_failures o2.
Proof. unfold count_failures. by rewrite filter_app, length_app. Qed.

Lemma attempts_cons e h :
  connection_attempts (e :: h) = count_attempts (outs e) + connection_attempts h.
Proof. apply count_attempts_app. Qed.

Lemma failures_cons e h :
  connection_failures (e :: h) = count_failures (outs e) + connection_failures h.
Proof. apply count_failures_app. Qed.

(** Socket writes are neither attempts nor failures. *)
Lemma flush_counts s (ms : list Msg) :
  count_attempts (map (fun m => SockSendObject s (tag_data m)) ms) = 0
  ∧ count_failures (map (fun m => SockSendObject s (tag_data m)) ms) = 0.
Proof. induction ms as [|m ms [IH1 IH2]]; [done|]. by split. Qed.

Lemma settle_single (n : nat) : filter (fun m => m ≠ n) [n] = [].
Proof. rewrite filter_cons, decide_False by (by intros H). done. Qed.

Lemma onConnected_counts s now st :
  count_attempts (_onConnected s now st).2 = 0
  ∧ count_failures (_onConnected s now st).2 = 0.
Proof.
  unfold _onConnected. cbn [snd].
  rewrite !count_attempts_app, !count_failures_app.
  rewrite (proj1 (flush_counts _ _)), (proj2 (flush_counts _ _)).
  by destruct (_authToken st).
Qed.

Lemma open_counts st :
  count_attempts (open st).2 = 1 ∧ count_failures (open st).2 = 0.
Proof. done. Qed.

(** One input of an unattended client whose sessions are all short:
    either nothing changes for the budget, or it is one more failure. *)
Lemma budget_step k i st :
  budget_state k st → unattended i = true →
  immediate (mkEntry st i (step i st).2 (step i st).1) = true →
  (budget_state k (step i st).1
   ∧ count_attempts (step i st).2 = 0 ∧ count_failures (step i st).2 = 0)
  ∨ (k ≤ 2 ∧ budget_state (S k) (step i st).1
     ∧ count_failures (step i st).2 = 1
     ∧ count_attempts (step i st).2 = (if decide (k < 2) then 1 else 0)
     ∧ (k = 2 → gives_up (mkEntry st i (step i st).2 (step i st).1))).
Proof.
  intros (Hok & Hretry & Hphase) Hun Himm.
  destruct i as [| msg | | n now | n | s now | s data]; try discriminate Hun.
  - (* send *)
    left. simpl. unfold send.
    destruct (_socket st) as [s|] eqn:Hs; simpl.
    + repeat split; try done; by rewrite Hs.
    + repeat split; try done; by rewrite Hs.
  - (* the attempt succeeded *)
    left. unfold step. destruct (bool_decide (n ∈ awaiting st)) eqn:Hin.
    2:{ by repeat split. }
    apply bool_decide_eq_true in Hin.
    destruct Hphase as [(Hk & Hs & n0 & Haw)|[(Hk & Haw & _)|(Hk & Haw & _)]];
      try (rewrite Haw in Hin; by apply elem_of_nil in Hin).
    rewrite Haw in Hin. apply list_elem_of_singleton in Hin as ->.
    split; [|apply onConnected_counts].
    unfold budget_state. simpl. rewrite Haw, settle_single.
    split; [done|]. split; [done|]. right; left. repeat split; eauto.
  - (* the attempt failed *)
    simpl. destruct (bool_decide (n ∈ awaiting st)) eqn:Hin; simpl.
    2:{ left. by repeat split. }
    apply bool_decide_eq_true in Hin.
    destruct Hphase as [(Hk & Hs & n0 & Haw)|[(Hk & Haw & _)|(Hk & Haw & _)]];
      try (rewrite Haw in Hin; by apply elem_of_nil in Hin).
    rewrite Haw in Hin. apply list_elem_of_singleton in Hin as ->.
    right. split; [done|]. unfold connect_failed. simpl. rewrite Hretry.
    destruct (decide (k < 2)) as [Hlt|Hge].
    + destruct (Z.ltb_spec 0 (Z.of_nat (2 - k))); [|lia].
      unfold budget_state, gives_up. simpl. rewrite Haw, settle_single.
      split; [|split; [done|split; [done|lia]]].
      split; [done|]. split; [lia|]. left.
      split; [lia|]. split; [done|]. eauto.
    + assert (k = 2) as -> by lia.
      unfold budget_state, gives_up. simpl. rewrite Haw, settle_single.
      split; [|by repeat split].
      split; [done|]. split; [done|]. right; right. done.
  - (* the socket closed *)
    simpl. unfold on_close.
    destruct (decide (_socket st = Some s)) as [Hs|Hs]; [|left; by repeat split].
    destruct Hphase as [(Hk & Hs' & _)|[(Hk & Haw & [since Hsince] & _)|(Hk & _ & Hs')]];
      try congruence.
    right. split; [done|]. unfold _onConnectionLost. rewrite Hok. simpl.
    rewrite Hsince. unfold immediate in Himm. simpl in Himm.
    rewrite Hsince in Himm. rewrite Himm. rewrite Hretry.
    destruct (decide (k < 2)) as [Hlt|Hge].
    + destruct (Z.ltb_spec 0 (Z.of_nat (2 - k))); [|lia].
      unfold budget_state, gives_up. simpl. rewrite Haw.
      split; [|split; [done|split; [done|lia]]].
      split; [done|]. split; [lia|]. left.
      split; [lia|]. split; [done|]. eauto.
    + assert (k = 2) as -> by lia.
      unfold budget_state, gives_up. simpl. rewrite Haw.
      split; [|by repeat split].
      split; [done|]. split; [done|]. right; right. done.
Qed.

Lemma exec_cons i ins st :
  exec st (i :: ins)
  = mkEntry st i (step i st).2 (step i st).1 :: exec (step i st).1 ins.
Proof. simpl. by destruct (step i st). Qed.

(** Along an unattended run of short sessions the failures are bounded
    by what is left of the budget, every failure but the last one the
    budget allows starts one new attempt, and the last one gives up. *)
Lemma budget_run ins k st :
  budget_state k st →
  forallb unattended ins = true →
  forallb immediate (exec st ins) = true →
  connection_failures (exec st ins) ≤ 3 - k
  ∧ connection_attempts (exec st ins)
    = connection_failures (exec st ins) `min` (2 - k)
  ∧ (k ≤ 2 → connection_failures (exec st ins) = 3 - k →
     ∃ e, e ∈ exec st ins ∧ gives_up e).
Proof.
  revert k st. induction ins as [|i ins IH]; intros k st Hst Hun Himm.
  - change (exec st []) with (@nil Entry).
    change (connection_failures []) with 0.
    change (connection_attempts []) with 0.
    split; [lia|]. split; [done|]. lia.
  - rewrite exec_cons in *. simpl in Hun, Himm.
    apply andb_true_iff in Hun as [Hun1 Hun], Himm as [Himm1 Himm].
    rewrite attempts_cons, failures_cons. cbn [outs].
    destruct (budget_step k i st Hst Hun1 Himm1)
      as [(Hst' & Ha & Hf)|(Hk & Hst' & Hf & Ha & Hgive)];
      rewrite Ha, Hf.
    + destruct (IH k _ Hst' Hun Himm) as (Hle & Heq & Hex).
      split; [lia|]. split; [lia|].
      intros Hk2 Hall. destruct (Hex Hk2 Hall) as (e & He & Hg).
      exists e. split; [by apply list_elem_of_further|done].
    + destruct (IH (S k) _ Hst' Hun Himm) as (Hle & Heq & Hex).
      split; [lia|]. split; [destruct (decide (k < 2)); lia|].
      intros _ Hall. destruct (decide (k = 2)) as [->|Hne].
      * eexists. split; [apply list_elem_of_here|by apply Hgive].
      * destruct Hex as (e & He & Hg); [lia|lia|].
        exists e. split; [by apply list_elem_of_further|done].
Qed.

(** C3 — the reconnect budget.  (1) A client is opened once and then
    left to the network ([send] may still be called): if every session
    that drops has lasted less than sixty seconds, the client never
    makes more than three connection attempts, and when the third
    failure occurs (a failed connect or a dropped short session) it
    emits ['failed'] with its whole outgoing buffer, which it keeps.
    (2) When a session that has lasted sixty seconds or more drops
    (without [close()] having been called), the client carries on
    exactly as [open()] does with the retry budget back at 3: it logs the
    reset and starts attempt 1 of 3. *)
Theorem reconnect_budget :
  (∀ st ins,
     unopened st →
     forallb unattended ins = true →
     forallb immediate (exec st (UserOpen :: ins)) = true →
     connection_attempts (exec st (UserOpen :: ins)) ≤ 3
     ∧ connection_failures (exec st (UserOpen :: ins)) ≤ 3
     ∧ (connection_failures (exec st (UserOpen :: ins)) = 3 →
        connection_attempts (exec st (UserOpen :: ins)) = 3
        ∧ ∃ e, e ∈ exec st (UserOpen :: ins) ∧ gives_up e))
  ∧ (∀ st s now since,
       _closeOk st = false → _socket st = Some s →
       _ratelimitTimer st = Some since →
       (60000 ≤ now - since)%Z →
       step (SocketClosed s now) st
       = ((open (replenished st)).1,
          [Console "Lost connection to the server";
           Console "Resetting retry limit"] ++ (open (replenished st)).2)
       ∧ _retryAttempts (replenished st) = 3%Z
       ∧ (step (SocketClosed s now) st).2
         = [Console "Lost connection to the server";
            Console "Resetting retry limit";
            Console "Attempting connection to the server, try 1 of 3";
            SockConnect (attempts st)]).
Proof.
  split.
  - intros st ins (Hok & Hs & Hretry & Haw) Hun Himm.
    rewrite exec_cons in *. simpl in Himm.
    assert (Hst : budget_state 0 (step UserOpen st).1).
    { unfold budget_state. simpl. rewrite Hok, Hs, Hretry, Haw.
      split; [done|]. split; [done|]. left. split; [lia|]. split; [done|]. eauto. }
    destruct (budget_run ins 0 _ Hst Hun Himm) as (Hle & Heq & Hex).
    rewrite attempts_cons, failures_cons. cbn [outs].
    change (step UserOpen st) with (open st) in *.
    rewrite (proj1 (open_counts st)), (proj2 (open_counts st)).
    split; [lia|]. split; [lia|]. intros Hall.
    split; [lia|]. destruct Hex as (e & He & Hg); [lia|lia|].
    exists e. split; [by apply list_elem_of_further|done].
  - intros st s now since Hok Hs Hsince Hlong.
    assert (Hstep : step (SocketClosed s now) st
       = ((open (replenished st)).1,
          [Console "Lost connection to the server";
           Console "Resetting retry limit"] ++ (open (replenished st)).2)).
    { simpl. unfold on_close. rewrite decide_True by done.
      unfold _onConnectionLost. rewrite Hok. simpl. rewrite Hsince.
      destruct (Z.ltb_spec (now - since) 60000); [lia|]. done. }
    split; [done|]. split; [done|]. by rewrite Hstep.
Qed.

Lemma reconnect_budget_witness :
  unopened Scenario.queued_client
  ∧ forallb unattended Scenario.bad_network = true
  ∧ forallb immediate
      (exec Scenario.queued_client (UserOpen :: Scenario.bad_network)) = true
  ∧ connection_failures
      (exec Scenario.queued_client (UserOpen :: Scenario.bad_network)) = 3
  ∧ connection_attempts
      (exec Scenario.queued_client (UserOpen :: Scenario.bad_network)) = 3
  ∧ (∃ e, e ∈ exec Scenario.queued_client (UserOpen :: Scenario.bad_network)
          ∧ gives_up e)
  ∧ (60000 ≤ 61000 - 1000)%Z
  ∧ (step (SocketClosed 0 61000) Scenario.connected_client).2
    = [Console "Lost connection to the server";
       Console "Resetting retry limit";
       Console "Attempting connection to the server, try 1 of 3";
       SockConnect 1].
Proof.
  destruct reconnect_budget as [Hbudget Hreset].
  assert (Hun : unopened Scenario.queued_client) by (by repeat split).
  assert (Hnet : forallb unattended Scenario.bad_network = true) by reflexivity.
  assert (Himm : forallb immediate
            (exec Scenario.queued_client (UserOpen :: Scenario.bad_network))
          = true) by reflexivity.
  assert (Hthree : connection_failures
            (exec Scenario.queued_client (UserOpen :: Scenario.bad_network)) = 3)
    by reflexivity.
  assert (Hlong : (60000 ≤ 61000 - 1000)%Z) by lia.
  destruct (Hbudget _ _ Hun Hnet Himm) as (_ & _ & Hgive).
  destruct (Hgive Hthree) as [Hatt Hex].
  destruct (Hreset Scenario.connected_client 0 61000%Z 1000%Z
              eq_refl eq_refl eq_refl Hlong) as (_ & _ & Houts).
  repeat (split; [assumption|]). exact Houts.
Defined.

End ClientFacts.

(** ** The pipe sink: fan-out *)

Module PipeFacts.
Import Pipe.
Section Facts.
Context {Ev : Type}.
Implicit Types (k : Sink Ev) (events : list Ev).




Lemma received_app s (d1 d2 : list (nat * Ev)) :
  received s (d1 ++ d2) = received s d1 ++ received s d2.
Proof. unfold received. apply omap_app. Qed.






End Facts.



End PipeFacts.

(** ** The channel opener: per-device failures *)

Module OpenerFacts.
Import Opener.
Section Facts.
Context {Params : Type}.
Implicit Types (st : Opener.t Params) (d : Opener.Device Params).

Lemma same_request_refl st : same_request st st.
Proof. by repeat split. Qed.

Lemma same_request_trans st1 st2 st3 :
  same_request st1 st2 → same_request st2 st3 → same_request st1 st3.
Proof. unfold same_request. intuition congruence. Qed.

Lemma request_same d st st' : same_request st st' → request d st' = request d st.
Proof. intros (Hm & Hn & Hp & _). unfold request. by rewrite Hm, Hn, Hp. Qed.

Lemma valid_mode_request d st :
  valid_mode (_mode st) → is_Some (request d st).
Proof.
  unfold request. intros [Hm|[Hm|Hm]]; rewrite Hm; simpl; eauto.
Qed.

Lemma set_has_elem (c : Chan) (s : list Chan) :
  c ∈ s → set_has (ch_uniqueId c) s = true.
Proof.
  intros Hc. apply bool_decide_eq_true. apply list_elem_of_fmap. eauto.
Qed.

Lemma set_has_mono id (s s' : list Chan) :
  (∀ c, c ∈ s → c ∈ s') → set_has id s = true → set_has id s' = true.
Proof.
  intros Hsub Hin. apply bool_decide_eq_true in Hin.
  apply list_elem_of_fmap in Hin as (c & -> & Hc).
  by apply set_has_elem, Hsub.
Qed.

(** One device: the call returns a promise that resolves, whatever the
    device's own promise does. *)
Lemma openOne_effect d st :
  valid_mode (_mode st) →
  (_openOneChannel d st).2 = Returned (Resolved tt)
  ∧ same_request st (_openOneChannel d st).1
  ∧ console (_openOneChannel d st).1
    = console st ++ flat_map (failure_report st) (failing_from [d] st)
  ∧ (∀ c, c ∈ _set st → c ∈ _set (_openOneChannel d st).1)
  ∧ (∀ c, c ∈ obtained_from [d] st →
          set_has (ch_uniqueId c) (_set (_openOneChannel d st).1) = true)
  ∧ (∀ c, c ∈ _set (_openOneChannel d st).1 →
          c ∈ _set st ∨ c ∈ obtained_from [d] st).
Proof.
  intros Hmode. destruct (valid_mode_request d st Hmode) as [p Hp].
  unfold _openOneChannel, obtained_from, failing_from. simpl. rewrite Hp.
  destruct p as [c|e]; simpl.
  - destruct (set_has (ch_uniqueId c) (_set st)) eqn:Hhas; simpl.
    + rewrite app_nil_r. repeat split; try done.
      * intros c' Hc'. apply list_elem_of_singleton in Hc' as ->. done.
      * by left.
    + rewrite app_nil_r. repeat split; try done.
      * intros c' Hc'. apply elem_of_app. by left.
      * intros c' Hc'. apply list_elem_of_singleton in Hc' as ->.
        apply set_has_elem, elem_of_app. right. by apply list_elem_of_singleton.
      * intros c' Hc'. apply elem_of_app in Hc' as [?|Hc']; [by left|right].
        done.
  - repeat split; try done.
    + intros c Hc. by apply elem_of_nil in Hc.
    + by left.
Qed.

Lemma obtained_from_cons d ds st :
  obtained_from (d :: ds) st = obtained_from [d] st ++ obtained_from ds st.
Proof. unfold obtained_from. simpl. by destruct (request d st) as [[?|?]|]. Qed.

Lemma failing_from_cons d ds st :
  failing_from (d :: ds) st = failing_from [d] st ++ failing_from ds st.
Proof. unfold failing_from. simpl. by destruct (request d st) as [[?|?]|]. Qed.

Lemma obtained_from_same ds st st' :
  same_request st st' → obtained_from ds st' = obtained_from ds st.
Proof.
  intros Hsame. unfold obtained_from.
  induction ds as [|d ds IH]; [done|]. simpl.
  rewrite (request_same d st st') by done.
  destruct (request d st) as [[c|e]|]; simpl;
    first [exact IH | f_equal; exact IH].
Qed.

Lemma failing_from_same ds st st' :
  same_request st st' → failing_from ds st' = failing_from ds st.
Proof.
  intros Hsame. unfold failing_from.
  induction ds as [|d ds IH]; [done|]. simpl.
  rewrite (request_same d st st') by done.
  destruct (request d st) as [[c|e]|]; simpl;
    first [exact IH | f_equal; exact IH].
Qed.

Lemma failure_report_same st st' f :
  same_request st st' → failure_report st' f = failure_report st f.
Proof. intros (_ & Hn & _). unfold failure_report. by rewrite Hn. Qed.

(** All devices of a list, in order. *)
Lemma open_each_effect ds st :
  valid_mode (_mode st) →
  (∃ ps, (open_each ds st).2 = inr ps ∧ Forall (fun p => p = Resolved tt) ps)
  ∧ same_request st (open_each ds st).1
  ∧ console (open_each ds st).1
    = console st ++ flat_map (failure_report st) (failing_from ds st)
  ∧ (∀ c, c ∈ _set st → c ∈ _set (open_each ds st).1)
  ∧ (∀ c, c ∈ obtained_from ds st →
          set_has (ch_uniqueId c) (_set (open_each ds st).1) = true)
  ∧ (∀ c, c ∈ _set (open_each ds st).1 →
          c ∈ _set st ∨ c ∈ obtained_from ds st).
Proof.
  revert st. induction ds as [|d ds IH]; intros st Hmode.
  - simpl. split; [by exists []|]. split; [apply same_request_refl|].
    split; [by rewrite app_nil_r|]. split; [done|].
    split; [by intros c ?%elem_of_nil|]. intros c Hc. by left.
  - rewrite obtained_from_cons, failing_from_cons, flat_map_app.
    destruct (openOne_effect d st Hmode)
      as (Hret & Hsame1 & Hcon1 & Hmono1 & Hgot1 & Honly1).
    cbn [open_each]. destruct (_openOneChannel d st) as [st1 r1]. simpl in *. subst r1.
    assert (Hmode1 : valid_mode (_mode st1))
      by (destruct Hsame1 as (-> & _); done).
    destruct (IH st1 Hmode1)
      as ((ps & Hps & Hall) & Hsame2 & Hcon2 & Hmono2 & Hgot2 & Honly2).
    destruct (open_each ds st1) as [st2 r2]. simpl in *. subst r2. cbn [fst snd].
    rewrite (obtained_from_same ds st st1 Hsame1) in *.
    rewrite (failing_from_same ds st st1 Hsame1) in *.
    split; [exists (Resolved tt :: ps); split; [done|by constructor]|].
    split; [by eapply same_request_trans|].
    split.
    { rewrite Hcon2, Hcon1, <- app_assoc. f_equal. f_equal.
      apply flat_map_ext. intros f. by apply failure_report_same. }
    split; [intros c Hc; by apply Hmono2, Hmono1|].
    split.
    + intros c Hc. apply elem_of_app in Hc as [Hc|Hc]; [|by apply Hgot2].
      eapply set_has_mono; [exact Hmono2|by apply Hgot1].
    + intros c Hc. rewrite elem_of_app.
      destruct (Honly2 c Hc) as [Hc1|?]; [|by right; right].
      destruct (Honly1 c Hc1); [by left|by right; left].
Qed.

(** The promises that settle are the promises of the list. *)
Lemma settling_elem order (ps : list (Outcome unit)) p :
  p ∈ settling order ps → p ∈ ps.
Proof.
  unfold settling. intros Hin.
  apply list_elem_of_omap in Hin as (i & _ & Hi).
  by eapply list_elem_of_lookup_2.
Qed.

Lemma Q_all_resolved order (ps : list (Outcome unit)) :
  Forall (fun p => p = Resolved tt) ps → Q_all order ps = Resolved tt.
Proof.
  intros Hall. unfold Q_all.
  destruct (list_find _ (settling order ps)) as [[i p]|] eqn:Hfind; [|done].
  apply list_find_Some in Hfind as (Hi & Hp & _).
  rewrite Forall_forall in Hall.
  rewrite (Hall p) in Hp; [done|].
  apply (settling_elem order). by eapply list_elem_of_lookup_2.
Qed.

(** C9 — per-device failures at [start()].  For an opener in one of the
    modes ['r'], ['q'], ['w'], [start()] returns a promise that
    resolves, whatever the devices' own promises do and in whatever
    order they settle.  Every device whose
    request fails gets its two console lines (channel name, device id
    and message; then the stack) and contributes nothing to the set;
    the channel of every device whose request succeeds is in the set. *)
Theorem start_tolerates_failures order st :
  valid_mode (_mode st) →
  (start order st).2 = Returned (Resolved tt)
  ∧ console (start order st).1
    = console st
      ++ flat_map (failure_report st) (failing_from (_view st) st)
  ∧ (∀ c, c ∈ obtained_from (_view st) st →
          set_has (ch_uniqueId c) (_set (start order st).1) = true)
  ∧ (∀ c, c ∈ _set (start order st).1 →
          c ∈ _set st ∨ c ∈ obtained_from (_view st) st).
Proof.
  intros Hmode. unfold start, _openChannels.
  destruct (open_each_effect (_view st) st Hmode)
    as ((ps & Hps & Hall) & _ & Hcon & _ & Hgot & Honly).
  destruct (open_each (_view st) st) as [st' r]. simpl in *. subst r.
  simpl. by rewrite (Q_all_resolved order ps Hall).
Qed.

End Facts.

Lemma start_tolerates_failures_witness :
  valid_mode (_mode Scenario.opener)
  ∧ (start [1; 0; 2] Scenario.opener).2 = Returned (Resolved tt)
  ∧ console (start [1; 0; 2] Scenario.opener).1
    = ["Failed to get channel poll in device tv: offline";
       "Error: offline at getTrigger"]
  ∧ _set (start [1; 0; 2] Scenario.opener).1
    = [mkChan "lamp-poll" 0; mkChan "radio-poll" 1].
Proof.
  assert (Hmode : valid_mode (_mode Scenario.opener)) by (by left).
  destruct (start_tolerates_failures [1; 0; 2] Scenario.opener Hmode)
    as (Hret & Hcon & _).
  split; [exact Hmode|]. split; [exact Hret|]. split; [exact Hcon|reflexivity].
Defined.

(** The earlier opener does not behave so: the rejection of the
    television's promise reaches [Q.all], [start()] rejects and nothing
    is logged; the other two channels are in the set all the same. *)
Example legacy_start_rejects :
  (legacy_start [1; 0; 2] Scenario.opener).2
  = Returned (Rejected Scenario.tv_error)
  ∧ console (legacy_start [1; 0; 2] Scenario.opener).1 = []
  ∧ _set (legacy_start [1; 0; 2] Scenario.opener).1
    = [mkChan "lamp-poll" 0; mkChan "radio-poll" 1].
Proof. repeat split; reflexivity. Qed.

End OpenerFacts.

(** * Further properties *)

(** ** The state binder: what is stored is what is read back *)

Module BinderMore.
Import Binder.
Section Facts.
Context {Value : Type}.
Implicit Types (w : World (Value := Value)) (b : t Value).

(** A timer that fires writes to the store and touches neither the
    cache nor the id nor the holders. *)
Lemma fires_keep (l : list (nat * Z)) w :
  healthy (store (foldl fire w l)) = healthy (store w)
  ∧ uniqueId (binder (foldl fire w l)) = uniqueId (binder w)
  ∧ useCount (binder (foldl fire w l)) = useCount (binder w)
  ∧ _cached (binder (foldl fire w l)) = _cached (binder w).
Proof.
  revert w. induction l as [|p l IH]; intros w; [done|].
  simpl. destruct (IH (fire w p)) as (Hh & Hu & Hc & Hcache).
  by rewrite Hh, Hu, Hc, Hcache.
Qed.

(** Sets and timer flushes keep the binder's id, its holders and the
    health of the store; the cache follows the assignments. *)
Lemma run_keeps_open (ops : list (Op (Value := Value))) w :
  forallb keeps_open ops = true →
  healthy (store (run w ops)) = healthy (store w)
  ∧ uniqueId (binder (run w ops)) = uniqueId (binder w)
  ∧ useCount (binder (run w ops)) = useCount (binder w)
  ∧ _cached (binder (run w ops)) = apply_sets (sets_in ops) (_cached (binder w)).
Proof.
  revert w. induction ops as [|o ops IH]; intros w Hops; [done|].
  simpl in Hops. apply andb_true_iff in Hops as [Ho Hops].
  change (run w (o :: ops)) with (run (step w o) ops).
  destruct (IH (step w o) Hops) as (Hh & Hu & Hc & Hcache).
  rewrite Hh, Hu, Hc, Hcache. clear IH Hh Hu Hc Hcache.
  destruct o as [name value|dt|]; [| |done].
  - by repeat split.
  - simpl. unfold run_timers.
    by destruct (fires_keep (due (mkWorld (now w + dt)%Z (binder w) (store w)))
                   (mkWorld (now w + dt)%Z (binder w) (store w)))
      as (-> & -> & -> & ->).
Qed.

(** Assignments under other names leave [__proto__] alone. *)
Lemma apply_sets_proto (sets : list (string * Value)) c :
  apply_sets sets c !! "__proto__" = c !! "__proto__".
Proof.
  induction sets as [|[k v] sets IH] using rev_ind; [done|].
  rewrite BinderFacts.apply_sets_snoc. unfold assign.
  destruct (decide (k = "__proto__")); [done|]. by rewrite lookup_insert_ne.
Qed.

Lemma last_set_none name (sets : list (string * Value)) :
  Forall (fun kv => kv.1 ≠ name) sets → last_set name sets = None.
Proof.
  induction 1 as [|[k v] sets Hk _ IH]; [done|].
  simpl in *. by rewrite decide_False.
Qed.

(** X1 — Persistence round trip.  A binder with an id and a single holder,
    over a healthy store: after any series of waits and of [set] calls,
    none of them under the name [__proto__], [close()] stores the cache,
    and a new binder initialised with the same id and opened afterwards
    holds exactly that cache: [get] finds for every name the last value
    set, or what it found on the first binder. *)
Theorem binder_round_trip w (ops : list (Op (Value := Value))) id :
  healthy (store w) = true →
  useCount (binder w) = 1 →
  uniqueId (binder w) = Some id →
  forallb keeps_open ops = true →
  Forall (fun kv => kv.1 ≠ "__proto__") (sets_in ops) →
  ∃ b', open (init id new, store (run w (ops ++ [OpClose]))) = Resolved b'
        ∧ useCount b' = 1
        ∧ _cached b' = apply_sets (sets_in ops) (_cached (binder w))
        ∧ ∀ name, get name b'
                  = match last_set name (reverse (sets_in ops)) with
                    | Some v => Own v
                    | None => get name (binder w)
                    end.
Proof.
  intros Hh Hone Hid Hops Hnames.
  destruct (run_keeps_open ops w Hops) as (Hh1 & Hu1 & Hc1 & Hcache).
  rewrite BinderFacts.run_app.
  set (w1 := run w ops) in *.
  assert (Hclose : store (run w1 [OpClose])
            = mkDb (<[Some id := _cached (binder w1)]> (rows (store w1)))
                   (calls (store w1) ++ [(Some id, _cached (binder w1))]) true).
  { simpl. unfold close. rewrite Hc1, Hone. simpl. unfold insertOne.
    by rewrite Hu1, Hid, Hh1, Hh. }
  rewrite Hclose. unfold open, init, new, _doOpen, getOne. simpl.
  rewrite lookup_insert_eq. eexists. split; [reflexivity|]. simpl.
  split; [done|]. split; [done|].
  intros name. unfold get. simpl. rewrite Hcache.
  destruct (decide (name = "__proto__")) as [->|Hname].
  - rewrite apply_sets_proto, last_set_none; [done|].
    by apply Forall_reverse.
  - rewrite BinderFacts.apply_sets_lookup by done.
    by destruct (last_set name (reverse (sets_in ops))).
Qed.

(** One [set] on a binder with nothing pending, then a pause of at least
    the debounce delay: one write, and nothing pending again. *)
Lemma paced_step w k (v : Value) d :
  tidy (binder w) → (500 ≤ d)%Z →
  step (step w (OpSet k v)) (OpWait d)
  = mkWorld (now w + d)%Z
      (mk (assign k v (_cached (binder w))) (uniqueId (binder w))
          None (useCount (binder w)) [] (S (handles (binder w))))
      (insertOne (uniqueId (binder w))
                 (assign k v (_cached (binder w))) (store w)).1.
Proof.
  intros Htidy Hd.
  assert (Hset : step w (OpSet k v)
            = mkWorld (now w)
                (mk (assign k v (_cached (binder w))) (uniqueId (binder w))
                    (Some (handles (binder w))) (useCount (binder w))
                    [(handles (binder w), (now w + 500)%Z)]
                    (S (handles (binder w))))
                (store w)).
  { simpl. by rewrite (BinderFacts.set_tidy _ _ _ _ Htidy). }
  rewrite Hset.
  rewrite (BinderFacts.step_wait_due _ d (handles (binder w))
             (now w + 500)%Z); [done|done|simpl; lia].
Qed.

(** X2 — Outside the debounce window nothing is coalesced.  On a binder
    with no timer pending, when every [set] is followed by a pause of at
    least 500 ms, each [set] gets a write of its own, carrying the cache
    as it stood right after that [set]; the writes come in the order of
    the calls and no timer is left pending. *)
Theorem paced_sets_each_written w (sets : list (string * Value * Z)) :
  _updateTimeout (binder w) = None →
  timers (binder w) = [] →
  Forall (fun e => 500 ≤ e.2)%Z sets →
  calls (store (run w (paced_ops sets)))
  = calls (store w)
    ++ writes_of (uniqueId (binder w)) (_cached (binder w)) sets
  ∧ _updateTimeout (binder (run w (paced_ops sets))) = None
  ∧ timers (binder (run w (paced_ops sets))) = [].
Proof.
  revert w. induction sets as [|[[k v] d] sets IH]; intros w Hidle Hnone Hall.
  - simpl. by rewrite app_nil_r.
  - apply Forall_cons in Hall as [Hd Hall]. simpl in Hd.
    assert (Htidy : tidy (binder w)) by (split; rewrite Hnone; constructor).
    change (run w (paced_ops ((k, v, d) :: sets)))
      with (run (step (step w (OpSet k v)) (OpWait d)) (paced_ops sets)).
    rewrite (paced_step w k v d Htidy Hd).
    destruct (IH (mkWorld (now w + d)%Z
                    (mk (assign k v (_cached (binder w))) (uniqueId (binder w))
                        None (useCount (binder w)) [] (S (handles (binder w))))
                    (insertOne (uniqueId (binder w))
                               (assign k v (_cached (binder w))) (store w)).1))
      as (Hcalls & Hnone' & Hempty); [done|done|done|].
    rewrite Hcalls, Hnone', Hempty. simpl. by rewrite <- app_assoc.
Qed.
End Facts.

Lemma binder_round_trip_witness :
  healthy (store Scenario.binder_world) = true
  ∧ useCount (binder Scenario.binder_world) = 1
  ∧ uniqueId (binder Scenario.binder_world) = Some "D-feed"
  ∧ ∃ b', open (init "D-feed" new,
                store (run Scenario.binder_world
                         ([OpSet "a" 1; OpWait 700; OpSet "a" 2; OpSet "b" 3]
                          ++ [OpClose])))
          = Resolved b'
          ∧ get "a" b' = Own 2 ∧ get "b" b' = Own 3 ∧ get "c" b' = Missing
          ∧ get "toString" b' = Member.
Proof.
  split; [reflexivity|]. split; [reflexivity|]. split; [reflexivity|].
  assert (Hnames : Forall (fun kv : string * nat => kv.1 ≠ "__proto__")
                     (sets_in [OpSet "a" 1; OpWait 700; OpSet "a" 2;
                               OpSet "b" 3]))
    by (repeat constructor; simpl; discriminate).
  destruct (binder_round_trip Scenario.binder_world
              [OpSet "a" 1; OpWait 700; OpSet "a" 2; OpSet "b" 3] "D-feed"
              eq_refl eq_refl eq_refl eq_refl Hnames)
    as (b' & Hopen & _ & _ & Hget).
  exists b'. split; [exact Hopen|].
  split; [exact (Hget "a")|]. split; [exact (Hget "b")|].
  split; [exact (Hget "c")|exact (Hget "toString")].
Defined.

Lemma paced_sets_each_written_witness :
  _updateTimeout (binder Scenario.binder_world) = None
  ∧ timers (binder Scenario.binder_world) = []
  ∧ calls (store (run Scenario.binder_world
                    (paced_ops [("a", 1, 500%Z); ("b", 2, 800%Z);
                                ("a", 3, 600%Z)])))
    = [(Some "D-feed", <["a" := 1]> ∅);
       (Some "D-feed", <["b" := 2]> (<["a" := 1]> ∅));
       (Some "D-feed", <["a" := 3]> (<["b" := 2]> (<["a" := 1]> ∅)))].
Proof.
  assert (Hall : Forall (fun e : string * nat * Z => 500 ≤ e.2)%Z
                   [("a", 1, 500%Z); ("b", 2, 800%Z); ("a", 3, 600%Z)])
    by (repeat constructor; simpl; lia).
  split; [reflexivity|]. split; [reflexivity|].
  destruct (paced_sets_each_written Scenario.binder_world
              [("a", 1, 500%Z); ("b", 2, 800%Z); ("a", 3, 600%Z)]
              eq_refl eq_refl Hall) as (Hcalls & _).
  evaluated_from Hcalls.
Defined.
End BinderMore.

(** ** The channel factory: capability check, eviction, errors *)

Module FactoryMore.
Import Factory.

Lemma prefix_app (s t : string) : String.prefix s (s +:+ t) = true.
Proof.
  induction s as [|a s IH]; simpl; [by destruct t|].
  by destruct (Ascii.ascii_dec a a).
Qed.

Section Facts.
Context {Params Value : Type}.
Variable hasCapability : string → bool.

Implicit Types (st : @State Params Value).

Lemma checkFactoryCaps_false caps :
  _checkFactoryCaps hasCapability caps = false
  ↔ ∃ c, c ∈ caps ∧ c ≠ "channel-state" ∧ hasCapability c = false.
Proof.
  unfold _checkFactoryCaps. induction caps as [|c caps IH]; simpl.
  - split; [done|]. by intros (c & ?%elem_of_nil & _).
  - rewrite andb_false_iff, IH. split.
    + intros [Hc|(c' & Hin & Hne & Hno)].
      * destruct (decide (c = "channel-state")); [done|].
        exists c. split; [left|done].
      * exists c'. split; [by right|done].
    + intros (c' & Hin & Hne & Hno). apply elem_of_cons in Hin as [->|Hin].
      * left. by destruct (decide (c = "channel-state")).
      * right. by exists c'.
Qed.

(** X3 — The capability check of [getChannel].  When asked [forOpen], the call
    is rejected with 'Channel is not supported', before anything is
    built, logged or stored, exactly when the class requires a
    capability other than [channel-state] that the platform lacks.
    Without [forOpen] the platform is not consulted at all. *)
Theorem capability_gate (d : @Device Params) kind mode params factory st :
  resolveClass d kind mode = Resolved factory →
  ((∃ c, c ∈ default [] (requiredCapabilities factory)
         ∧ c ≠ "channel-state" ∧ hasCapability c = false)
   ↔ getChannel hasCapability d kind mode params true st
     = (st, Rejected (mkError "Channel is not supported" "")))
  ∧ (∀ hasCapability',
       getChannel hasCapability' d kind mode params false st
       = getChannel hasCapability d kind mode params false st).
Proof.
  intros Hf. split; [|reflexivity].
  rewrite <- checkFactoryCaps_false. split.
  - intros Hno. unfold getChannel.
    change (if decide (mode = "r") then getTriggerClass d kind
            else if decide (mode = "q") then getQueryClass d kind
                 else getActionClass d kind)
      with (resolveClass d kind mode).
    rewrite Hf. unfold bind, lift. by rewrite Hno.
  - intros Hrun.
    pose proof (FactoryFacts.call_effect hasCapability
                  (mkCall d kind mode params true) st _ _ Hrun)
      as (_ & _ & Hn & _).
    unfold reaches_constructor in Hn. simpl in Hn. rewrite Hf in Hn.
    destruct (_checkFactoryCaps hasCapability
                (default [] (requiredCapabilities factory))); [|done].
    simpl in Hn. lia.
Qed.


(** What a [getChannel] call that gets past the class lookup and the
    capability check does, case by case. *)
Lemma getChannel_outcome (d : @Device Params) kind mode params forOpen factory
    st st' r :
  getChannel hasCapability d kind mode params forOpen st = (st', r) →
  resolveClass d kind mode = Resolved factory →
  forOpen && negb (_checkFactoryCaps hasCapability
                     (default [] (requiredCapabilities factory))) = false →
  let hasState :=
    bool_decide ("channel-state" ∈ default [] (requiredCapabilities factory)) in
  constructed st' = S (constructed st)
  ∧ match run_maker (maker factory) (dev_uniqueId d) params with
    | Rejected e =>
        r = Rejected e ∧ _cachedChannels st' = _cachedChannels st
        ∧ _db st' = _db st
    | Resolved fs =>
        let u := channel_id d kind fs in
        match r with
        | Rejected e =>
            hasState = true ∧ Binder.healthy (_db st) = false
            ∧ e = mkError "database error" ""
            ∧ _cachedChannels st' = _cachedChannels st ∧ _db st' = _db st
        | Resolved ch =>
            match _cachedChannels st !! u with
            | Some c0 =>
                ch = c0 ∧ _cachedChannels st' = _cachedChannels st
                ∧ _db st' = _db st
            | None =>
                ch = mkChannel (constructed st) u fs
                       (if hasState then Some (length (binders st)) else None)
                ∧ _cachedChannels st' = <[u := ch]> (_cachedChannels st)
                ∧ _db st' = (if hasState then written_back u (_db st)
                             else _db st)
            end
        end
    end.
Proof.
  intros Hrun Hf Hgate. cbv zeta. unfold getChannel in Hrun.
  change (if decide (mode = "r") then getTriggerClass d kind
          else if decide (mode = "q") then getQueryClass d kind
               else getActionClass d kind)
    with (resolveClass d kind mode) in Hrun.
  rewrite Hf in Hrun. unfold bind at 1, lift in Hrun. rewrite Hgate in Hrun.
  fold (run_maker (maker factory) (dev_uniqueId d) params).
  apply FactoryFacts.bind_inv in Hrun
    as [(st2 & state & Halloc & Hrun)|(e & Halloc & ->)];
    [|by apply FactoryFacts.alloc_resolves in Halloc].
  apply FactoryFacts.bind_inv in Hrun
    as [(st3 & obj & Hctor & Hrun)|(e & Hctor & ->)];
    unfold construct in Hctor;
    fold (run_maker (maker factory) (dev_uniqueId d) params) in Hctor;
    destruct (run_maker (maker factory) (dev_uniqueId d) params) as [fs|e'];
    injection Hctor as <- Hctor; try discriminate Hctor.
  2:{ subst e'.
      destruct (bool_decide _); injection Halloc as <- _; by repeat split. }
  subst obj. simpl fst in Hrun. simpl snd in Hrun.
  fold (channel_id d kind fs) in Hrun.
  apply FactoryFacts.bind_inv in Hrun
    as [(st4 & [] & Hlog & Hrun)|(e & Hlog & ->)];
    [|by apply FactoryFacts.emit_resolves in Hlog].
  injection Hlog as <-. simpl in Hrun.
  destruct (bool_decide ("channel-state"
                         ∈ default [] (requiredCapabilities factory))).
  - injection Halloc as <- <-.
    apply FactoryFacts.bind_inv in Hrun
      as [(st5 & [] & Hopen & Hrun)|(e & Hopen & ->)];
      unfold state_init_open in Hopen; simpl in Hopen;
      rewrite (list_lookup_middle (binders st) [] Binder.new _ eq_refl) in Hopen;
      unfold Binder.open, Binder._doOpen, Binder.getOne in Hopen;
      simpl in Hopen; destruct (Binder.healthy (_db st)) eqn:Hh.
    + assert (Hst5 : _cachedChannels st5 = _cachedChannels st
                     ∧ _db st5 = _db st ∧ constructed st5 = S (constructed st)
                     ∧ binders st5 !! length (binders st)
                       = Some (Binder.mk
                                 (default ∅ (Binder.rows (_db st)
                                             !! Some (channel_id d kind fs)))
                                 (Some (channel_id d kind fs)) None 1 [] 0)).
      { destruct (Binder.rows (_db st) !! Some (channel_id d kind fs));
          injection Hopen as <-; simpl; repeat split; try done;
          (rewrite list_lookup_insert_eq; [done|]);
          rewrite length_app; simpl; lia. }
      clear Hopen. destruct Hst5 as (Hc5 & Hd5 & Hn5 & Hb5).
      unfold bind, cache_lookup in Hrun. rewrite Hc5 in Hrun.
      destruct (_cachedChannels st !! channel_id d kind fs) as [c0|].
      * injection Hrun as <- <-. by repeat split.
      * unfold state_close in Hrun. rewrite Hb5 in Hrun. simpl in Hrun.
        injection Hrun as <- <-. simpl. rewrite Hc5, Hd5, Hn5, Hh.
        unfold written_back, Binder.insertOne. simpl. rewrite Hh.
        by repeat split.
    + done.
    + destruct (Binder.rows (_db st) !! Some (channel_id d kind fs));
        discriminate Hopen.
    + injection Hopen as <- <-. by repeat split.
  - injection Halloc as <- <-.
    unfold bind, cache_lookup in Hrun. simpl in Hrun.
    destruct (_cachedChannels st !! channel_id d kind fs) as [c0|];
      injection Hrun as <- <-; by repeat split.
Qed.

Lemma getChannel_no_class (d : @Device Params) kind mode params forOpen e st :
  resolveClass d kind mode = Rejected e →
  getChannel hasCapability d kind mode params forOpen st = (st, Rejected e).
Proof.
  intros Hf. unfold getChannel.
  change (if decide (mode = "r") then getTriggerClass d kind
          else if decide (mode = "q") then getQueryClass d kind
               else getActionClass d kind)
    with (resolveClass d kind mode).
  by rewrite Hf.
Qed.

Lemma getChannel_unsupported (d : @Device Params) kind mode params forOpen
    factory st :
  resolveClass d kind mode = Resolved factory →
  forOpen && negb (_checkFactoryCaps hasCapability
                     (default [] (requiredCapabilities factory))) = true →
  getChannel hasCapability d kind mode params forOpen st
  = (st, Rejected (mkError "Channel is not supported" "")).
Proof.
  intros Hf Hgate. unfold getChannel.
  change (if decide (mode = "r") then getTriggerClass d kind
          else if decide (mode = "q") then getQueryClass d kind
               else getActionClass d kind)
    with (resolveClass d kind mode).
  rewrite Hf. unfold bind, lift. by rewrite Hgate.
Qed.

Lemma channel_id_prefix (d : @Device Params) kind fs :
  String.prefix (dev_uniqueId d +:+ "-") (channel_id d kind fs) = true.
Proof.
  assert (Hassoc : ∀ s t r : string, s +:+ (t +:+ r) = (s +:+ t) +:+ r).
  { intros s t r. induction s as [|a s IH]; [done|].
    change (String a (s +:+ t +:+ r) = String a ((s +:+ t) +:+ r)).
    by rewrite IH. }
  unfold channel_id. destruct fs as [fs|]; rewrite Hassoc; apply prefix_app.
Qed.

(** X4 — Eviction.  After [_onDeviceRemoved(device)], a [getChannel] for that
    device that resolves returns the object its own constructor run has
    just built, never one cached before the removal, and caches it;
    entries whose id does not start with the device's id and a dash are
    as they were before the removal. *)
Theorem removed_device_rebuilt (d : @Device Params) kind mode params forOpen
    st st' ch :
  getChannel hasCapability d kind mode params forOpen (_onDeviceRemoved d st)
  = (st', Resolved ch) →
  addr ch = constructed st
  ∧ _cachedChannels (_onDeviceRemoved d st) !! ch_uniqueId ch = None
  ∧ _cachedChannels st' !! ch_uniqueId ch = Some ch
  ∧ ∀ k, String.prefix (dev_uniqueId d +:+ "-") k = false →
         k ≠ ch_uniqueId ch ∧ _cachedChannels st' !! k = _cachedChannels st !! k.
Proof.
  intros Hrun.
  assert (Hgone : ∀ k, String.prefix (dev_uniqueId d +:+ "-") k = true →
                       _cachedChannels (_onDeviceRemoved d st) !! k = None).
  { intros k Hk. unfold _onDeviceRemoved. simpl.
    apply map_lookup_filter_None. right. intros c0 _ Hno.
    change (¬ String.prefix (dev_uniqueId d +:+ "-") k) in Hno.
    apply Hno. by rewrite Hk. }
  assert (Hkept : ∀ k, String.prefix (dev_uniqueId d +:+ "-") k = false →
                       _cachedChannels (_onDeviceRemoved d st) !! k
                       = _cachedChannels st !! k).
  { intros k Hk. unfold _onDeviceRemoved. simpl.
    destruct (_cachedChannels st !! k) as [c0|] eqn:Hc.
    - apply map_lookup_filter_Some. split; [done|].
      change (¬ String.prefix (dev_uniqueId d +:+ "-") k).
      rewrite Hk. intros [].
    - apply map_lookup_filter_None. by left. }
  destruct (resolveClass d kind mode) as [factory|e] eqn:Hf;
    [|by rewrite (getChannel_no_class _ _ _ _ _ _ _ Hf) in Hrun].
  destruct (forOpen && negb (_checkFactoryCaps hasCapability
                               (default [] (requiredCapabilities factory))))
    eqn:Hgate;
    [by rewrite (getChannel_unsupported _ _ _ _ _ _ _ Hf Hgate) in Hrun|].
  destruct (getChannel_outcome _ _ _ _ _ _ _ _ _ Hrun Hf Hgate) as [_ Hout].
  destruct (run_maker (maker factory) (dev_uniqueId d) params) as [fs|e];
    [|by destruct Hout].
  cbv zeta in Hout.
  rewrite (Hgone _ (channel_id_prefix d kind fs)) in Hout.
  destruct Hout as (Hch & Hcache & _).
  assert (Hid : ch_uniqueId ch = channel_id d kind fs) by by rewrite Hch.
  rewrite Hid. split; [by rewrite Hch|].
  split; [apply Hgone, channel_id_prefix|].
  split; [by rewrite Hcache, lookup_insert_eq|].
  intros k Hk.
  assert (Hne : k ≠ channel_id d kind fs).
  { intros ->. by rewrite channel_id_prefix in Hk. }
  split; [done|]. by rewrite Hcache, lookup_insert_ne, Hkept.
Qed.

(** X5 — A rejected [getChannel] leaves the cache and the state store as they
    were, and its error is the class lookup's, 'Channel is not
    supported' (only when asked [forOpen]), the channel constructor's,
    or the read error of the state store of a stateful channel.  In the
    first two cases nothing at all has happened. *)
Theorem getChannel_rejection (d : @Device Params) kind mode params forOpen
    st st' e :
  getChannel hasCapability d kind mode params forOpen st = (st', Rejected e) →
  _cachedChannels st' = _cachedChannels st
  ∧ _db st' = _db st
  ∧ match resolveClass d kind mode with
    | Rejected e' => e = e' ∧ st' = st
    | Resolved factory =>
        let caps := default [] (requiredCapabilities factory) in
        if forOpen && negb (_checkFactoryCaps hasCapability caps)
        then e = mkError "Channel is not supported" "" ∧ st' = st
        else constructed st' = S (constructed st)
             ∧ match run_maker (maker factory) (dev_uniqueId d) params with
               | Rejected e' => e = e'
               | Resolved _ =>
                   "channel-state" ∈ caps
                   ∧ Binder.healthy (_db st) = false
                   ∧ e = mkError "database error" ""
               end
    end.
Proof.
  intros Hrun.
  destruct (resolveClass d kind mode) as [factory|e'] eqn:Hf.
  2:{ rewrite (getChannel_no_class _ _ _ _ _ _ _ Hf) in Hrun.
      by injection Hrun as <- <-. }
  cbv zeta.
  destruct (forOpen && negb (_checkFactoryCaps hasCapability
                               (default [] (requiredCapabilities factory))))
    eqn:Hgate.
  { rewrite (getChannel_unsupported _ _ _ _ _ _ _ Hf Hgate) in Hrun.
    by injection Hrun as <- <-. }
  destruct (getChannel_outcome _ _ _ _ _ _ _ _ _ Hrun Hf Hgate) as [Hn Hout].
  destruct (run_maker (maker factory) (dev_uniqueId d) params) as [fs|e'].
  - destruct Hout as (Hs & Hh & -> & Hc & Hd).
    apply bool_decide_eq_true in Hs. by repeat split.
  - destruct Hout as ([= ->] & Hc & Hd). by repeat split.
Qed.

(** X6 — [getChannel] and the state store.  A call never alters or removes a
    stored row; the one thing it may write, once and only when it caches
    a new stateful channel, is the row of that channel's id as it has
    just read it, an empty row if there was none. *)
Theorem getChannel_keeps_rows (d : @Device Params) kind mode params forOpen
    st st' r :
  getChannel hasCapability d kind mode params forOpen st = (st', r) →
  (∀ k v, Binder.rows (_db st) !! k = Some v →
          Binder.rows (_db st') !! k = Some v)
  ∧ (∀ k v, Binder.rows (_db st') !! k = Some v →
            Binder.rows (_db st) !! k = Some v ∨ v = ∅)
  ∧ (Binder.calls (_db st') = Binder.calls (_db st)
     ∨ ∃ ch, r = Resolved ch
             ∧ _cachedChannels st !! ch_uniqueId ch = None
             ∧ state ch ≠ None
             ∧ Binder.calls (_db st')
               = Binder.calls (_db st)
                 ++ [(Some (ch_uniqueId ch),
                      default ∅ (Binder.rows (_db st)
                                 !! Some (ch_uniqueId ch)))]).
Proof.
  intros Hrun.
  assert (Hsame : _db st' = _db st →
    (∀ k v, Binder.rows (_db st) !! k = Some v →
            Binder.rows (_db st') !! k = Some v)
    ∧ (∀ k v, Binder.rows (_db st') !! k = Some v →
              Binder.rows (_db st) !! k = Some v ∨ v = ∅)
    ∧ (Binder.calls (_db st') = Binder.calls (_db st)
       ∨ ∃ ch, r = Resolved ch
               ∧ _cachedChannels st !! ch_uniqueId ch = None
               ∧ state ch ≠ None
               ∧ Binder.calls (_db st')
                 = Binder.calls (_db st)
                   ++ [(Some (ch_uniqueId ch),
                        default ∅ (Binder.rows (_db st)
                                   !! Some (ch_uniqueId ch)))])).
  { intros ->. split; [done|]. split; [by left|by left]. }
  destruct (resolveClass d kind mode) as [factory|e'] eqn:Hf.
  2:{ rewrite (getChannel_no_class _ _ _ _ _ _ _ Hf) in Hrun.
      injection Hrun as <- <-. by apply Hsame. }
  destruct (forOpen && negb (_checkFactoryCaps hasCapability
                               (default [] (requiredCapabilities factory))))
    eqn:Hgate.
  { rewrite (getChannel_unsupported _ _ _ _ _ _ _ Hf Hgate) in Hrun.
    injection Hrun as <- <-. by apply Hsame. }
  destruct (getChannel_outcome _ _ _ _ _ _ _ _ _ Hrun Hf Hgate) as [_ Hout].
  destruct (run_maker (maker factory) (dev_uniqueId d) params) as [fs|e'];
    [|apply Hsame, Hout].
  cbv zeta in Hout. destruct r as [ch|e]; [|apply Hsame, Hout].
  destruct (_cachedChannels st !! channel_id d kind fs) as [c0|] eqn:Hc;
    [apply Hsame, Hout|].
  destruct Hout as (Hch & _ & Hdb).
  destruct (bool_decide ("channel-state"
                         ∈ default [] (requiredCapabilities factory)));
    [|by apply Hsame].
  assert (Hid : ch_uniqueId ch = channel_id d kind fs) by by rewrite Hch.
  rewrite Hdb. unfold written_back, Binder.insertOne. simpl.
  destruct (Binder.healthy (_db st)).
  - split; [|split].
    + intros k v Hk. destruct (decide (k = Some (channel_id d kind fs))) as [->|].
      * by rewrite lookup_insert_eq, Hk.
      * by rewrite lookup_insert_ne.
    + intros k v. destruct (decide (k = Some (channel_id d kind fs))) as [->|].
      * rewrite lookup_insert_eq. intros [= <-].
        destruct (Binder.rows (_db st) !! Some (channel_id d kind fs));
          [by left|by right].
      * rewrite lookup_insert_ne by done. by left.
    + right. exists ch. rewrite Hid. split; [done|]. split; [done|].
      split; [by rewrite Hch|done].
  - split; [done|]. split; [by left|].
    right. exists ch. rewrite Hid. split; [done|]. split; [done|].
    split; [by rewrite Hch|done].
Qed.
End Facts.

Lemma capability_gate_witness :
  resolveClass Scenario.speaker "scan" "r" = Resolved Scenario.needs_bluetooth
  ∧ getChannel Scenario.hasCapability Scenario.speaker "scan" "r" [] true
      Scenario.fresh
    = (Scenario.fresh, Rejected (mkError "Channel is not supported" "")).
Proof.
  split; [reflexivity|].
  apply (capability_gate Scenario.hasCapability Scenario.speaker "scan" "r" []
           Scenario.needs_bluetooth Scenario.fresh eq_refl).
  exists "bluetooth". split; [|split; [discriminate|reflexivity]].
  right. left.
Defined.

Lemma removed_device_rebuilt_witness :
  let st := (call Scenario.hasCapability Scenario.poll_call Scenario.fresh).1 in
  ∃ c0 st' ch,
    _cachedChannels st !! "D-poll" = Some c0
    ∧ getChannel Scenario.hasCapability Scenario.D "poll" "r" [] false
        (_onDeviceRemoved Scenario.D st) = (st', Resolved ch)
    ∧ addr c0 = 0 ∧ addr ch = 1
    ∧ _cachedChannels st' !! ch_uniqueId ch = Some ch.
Proof.
  cbv zeta.
  destruct (getChannel Scenario.hasCapability Scenario.D "poll" "r" [] false
              (_onDeviceRemoved Scenario.D
                 (call Scenario.hasCapability Scenario.poll_call
                    Scenario.fresh).1)) as [st' [ch|e]] eqn:Hrun;
    [|vm_compute in Hrun; discriminate Hrun].
  exists (mkChannel 0 "D-poll" None None), st', ch.
  split; [reflexivity|]. split; [reflexivity|]. split; [reflexivity|].
  destruct (removed_device_rebuilt _ _ _ _ _ _ _ _ _ Hrun)
    as (Haddr & _ & Hcached & _).
  split; [exact Haddr|exact Hcached].
Defined.

Lemma getChannel_rejection_witness :
  getChannel Scenario.hasCapability Scenario.speaker "volume" "w" [] true
    Scenario.fresh
  = (Scenario.fresh, Rejected Scenario.no_such_channel)
  ∧ _cachedChannels (Params := list string) (Value := nat) Scenario.fresh
    = _cachedChannels Scenario.fresh.
Proof.
  split; [reflexivity|].
  exact (proj1 (getChannel_rejection Scenario.hasCapability Scenario.speaker
                  "volume" "w" [] true Scenario.fresh Scenario.fresh
                  Scenario.no_such_channel eq_refl)).
Defined.

Lemma getChannel_keeps_rows_witness :
  ∃ st' ch,
    call Scenario.hasCapability Scenario.feed_call Scenario.fresh
    = (st', Resolved ch)
    ∧ ∀ k v, Binder.rows (_db st') !! k = Some v →
             Binder.rows (_db Scenario.fresh) !! k = Some v ∨ v = ∅.
Proof.
  destruct (call Scenario.hasCapability Scenario.feed_call Scenario.fresh)
    as [st' [ch|e]] eqn:Hrun; [|vm_compute in Hrun; discriminate Hrun].
  exists st', ch. split; [reflexivity|].
  exact (proj1 (proj2 (getChannel_keeps_rows Scenario.hasCapability Scenario.D
                         "feed" "r" [] false Scenario.fresh st' _ Hrun))).
Defined.
End FactoryMore.

(** ** The channel opener: the earlier version, bad modes, removal *)

Module OpenerMore.
Import Opener.
Section Facts.
Context {Params : Type}.
Implicit Types (st : Opener.t Params) (d : Opener.Device Params).

(** Every promise of the list settles. *)
Lemma settling_all order (ps : list (Outcome unit)) p :
  p ∈ ps → p ∈ settling order ps.
Proof.
  intros Hin. apply list_elem_of_lookup_1 in Hin as [i Hi].
  unfold settling. apply list_elem_of_omap. exists i. split; [|done].
  apply elem_of_app. right. apply elem_of_seq.
  apply lookup_lt_Some in Hi. lia.
Qed.

(** When a promise of the list is rejected, [Q.all] is rejected with
    the error of one that is. *)
Lemma Q_all_rejects order (ps : list (Outcome unit)) e :
  Rejected e ∈ ps → ∃ e', Rejected e' ∈ ps ∧ Q_all order ps = Rejected e'.
Proof.
  intros Hin. unfold Q_all.
  destruct (list_find _ (settling order ps)) as [[i p]|] eqn:Hfind.
  - apply list_find_Some in Hfind as (Hi & Hp & _).
    destruct p as [[]|e']; [done|]. exists e'. split; [|done].
    apply (OpenerFacts.settling_elem order). by eapply list_elem_of_lookup_2.
  - apply list_find_None in Hfind. rewrite Forall_forall in Hfind.
    by destruct (Hfind _ (settling_all order ps _ Hin)).
Qed.

(** The rejection that comes first in the order of settling is the one
    [Q.all] is rejected with. *)
Lemma Q_all_first before i after (ps : list (Outcome unit)) e :
  Forall (fun j => ∀ e', ps !! j ≠ Some (Rejected e')) before →
  ps !! i = Some (Rejected e) →
  Q_all (before ++ i :: after) ps = Rejected e.
Proof.
  intros Hbefore Hi. unfold Q_all, settling.
  rewrite <- !app_assoc, omap_app.
  set (rest := omap (fun j => ps !! j) (after ++ seq 0 (length ps))).
  replace (omap (fun j => ps !! j) ((i :: after) ++ seq 0 (length ps)))
    with (Rejected e :: rest) by (simpl; by rewrite Hi).
  assert (Hfind : list_find (fun p : Outcome unit => is_resolved p = false)
                    (omap (fun j => ps !! j) before ++ Rejected e :: rest)
                  = Some (length (omap (fun j => ps !! j) before), Rejected e)).
  { apply list_find_Some. split; [by apply list_lookup_middle|].
    split; [done|]. intros j p Hj Hlt.
    rewrite lookup_app_l in Hj by done.
    apply list_elem_of_lookup_2, list_elem_of_omap in Hj as (k & Hk & Hp).
    rewrite Forall_forall in Hbefore. specialize (Hbefore k Hk).
    destruct p as [[]|e']; [done|]. by destruct (Hbefore e'). }
  by rewrite Hfind.
Qed.

Lemma legacy_promise_rejected st d e :
  legacy_promise st d = Rejected e ↔ request d st = Some (Rejected e).
Proof.
  unfold legacy_promise.
  destruct (request d st) as [[c|e']|]; split; intros H; try done;
    by injection H as ->.
Qed.

Lemma failing_from_elem ds st d e :
  (d, e) ∈ failing_from ds st ↔ d ∈ ds ∧ request d st = Some (Rejected e).
Proof.
  unfold failing_from. rewrite list_elem_of_omap. split.
  - intros (d' & Hin & Heq).
    destruct (request d' st) as [[c|e']|] eqn:Hreq; try done.
    injection Heq as -> ->. done.
  - intros [Hin Hreq]. exists d. by rewrite Hreq.
Qed.

Lemma legacy_promise_same st st' d :
  same_request st st' → legacy_promise st' d = legacy_promise st d.
Proof.
  intros Hsame. unfold legacy_promise.
  by rewrite (OpenerFacts.request_same d st st' Hsame).
Qed.

(** The earlier and the present opener, run side by side over the same
    devices from states that differ in the console only. *)
Lemma legacy_open_each_effect ds (stl stn : Opener.t Params) :
  valid_mode (_mode stn) → same_request stn stl → _set stl = _set stn →
  (legacy_open_each ds stl).2 = inr (map (legacy_promise stn) ds)
  ∧ _set (legacy_open_each ds stl).1 = _set (open_each ds stn).1
  ∧ console (legacy_open_each ds stl).1 = console stl.
Proof.
  revert stl stn. induction ds as [|d ds IH]; intros stl stn Hmode Hsame Hset;
    [done|].
  destruct (OpenerFacts.valid_mode_request d stn Hmode) as [p Hp].
  pose proof (OpenerFacts.request_same d stn stl Hsame) as Hpl.
  cbn [open_each legacy_open_each map].
  unfold legacy_openOneChannel, _openOneChannel, legacy_promise at 1.
  rewrite Hpl, Hp, Hset.
  assert (Hstep : ∀ stl1 stn1 : Opener.t Params,
    same_request stn stn1 → same_request stn1 stl1 → _set stl1 = _set stn1 →
    console stl1 = console stl →
    ∀ p1, (match legacy_open_each ds stl1 with
           | (st2, inr ps) => (st2, inr (p1 :: ps))
           | (st2, inl e) => (st2, inl e)
           end).2 = inr (p1 :: map (legacy_promise stn) ds)
    ∧ _set (match legacy_open_each ds stl1 with
            | (st2, inr ps) => (st2, inr (p1 :: ps))
            | (st2, inl e) => (st2, inl e)
            end).1
      = _set (match open_each ds stn1 with
              | (st2, inr ps) => (st2, inr (Resolved tt :: ps))
              | (st2, inl e) => (st2, inl e)
              end).1
    ∧ console (match legacy_open_each ds stl1 with
               | (st2, inr ps) => (st2, inr (p1 :: ps))
               | (st2, inl e) => (st2, inl e)
               end).1 = console stl).
  { intros stl1 stn1 Hs1 Hs2 Hset1 Hcon1 p1.
    assert (Hmode1 : valid_mode (_mode stn1))
      by (destruct Hs1 as (-> & _); done).
    destruct (IH stl1 stn1 Hmode1 Hs2 Hset1) as (Hr & Hs & Hc).
    destruct (OpenerFacts.open_each_effect ds stn1 Hmode1)
      as ((ps & Hps & _) & _).
    destruct (legacy_open_each ds stl1) as [stl2 rl].
    destruct (open_each ds stn1) as [stn2 rn]. simpl in *. subst rl rn.
    simpl. split; [|by rewrite Hc].
    f_equal. f_equal. apply map_ext. intros d'.
    by apply legacy_promise_same. }
  destruct p as [c|e]; simpl.
  - destruct (set_has (ch_uniqueId c) (_set stn)); simpl;
      apply Hstep; repeat split; try done; apply Hsame.
  - apply Hstep; repeat split; try done; apply Hsame.
Qed.

(** X7 — The earlier opener kept in the factory module.  In one of the modes
    ['r'], ['q'], ['w'] its [start()] puts the same channels into the
    set as the present opener does, but writes nothing to the console.
    The promise it returns resolves when no request fails; when one
    does, it is rejected with the error of a device whose request
    fails, and that is the device whose promise is the first, in the
    order the promises settle, to be rejected. *)
Theorem legacy_start_first_failure order st :
  valid_mode (_mode st) →
  (failing_from (_view st) st = [] →
   (legacy_start order st).2 = Returned (Resolved tt))
  ∧ (failing_from (_view st) st ≠ [] →
     ∃ f, f ∈ failing_from (_view st) st
          ∧ (legacy_start order st).2 = Returned (Rejected f.2))
  ∧ (∀ before i after d e,
       order = before ++ i :: after →
       Forall (fun j => fails_at st j = false) before →
       _view st !! i = Some d → request d st = Some (Rejected e) →
       (legacy_start order st).2 = Returned (Rejected e))
  ∧ _set (legacy_start order st).1 = _set (start order st).1
  ∧ console (legacy_start order st).1 = console st.
Proof.
  intros Hmode. unfold legacy_start, start, _openChannels.
  destruct (legacy_open_each_effect (_view st) st st Hmode
              (OpenerFacts.same_request_refl st) eq_refl) as (Hr & Hs & Hc).
  destruct (OpenerFacts.open_each_effect (_view st) st Hmode)
    as ((ps & Hps & _) & _).
  destruct (legacy_open_each (_view st) st) as [stl rl].
  destruct (open_each (_view st) st) as [stn rn]. simpl in *. subst rl rn.
  simpl. split; [|split; [|split; [|done]]].
  - intros Hnone. f_equal. apply OpenerFacts.Q_all_resolved.
    apply Forall_forall. intros p Hp.
    apply list_elem_of_fmap in Hp as (d & -> & Hd).
    unfold legacy_promise. destruct (request d st) as [[c|e]|] eqn:Hreq; try done.
    assert (Hin : (d, e) ∈ failing_from (_view st) st)
      by (by apply failing_from_elem).
    rewrite Hnone in Hin. by apply elem_of_nil in Hin.
  - intros Hsome.
    destruct (failing_from (_view st) st) as [|[d e] fs] eqn:Hfail; [done|].
    assert (Hin : (d, e) ∈ failing_from (_view st) st)
      by (rewrite Hfail; left).
    apply failing_from_elem in Hin as [Hd Hreq].
    destruct (Q_all_rejects order (map (legacy_promise st) (_view st)) e)
      as (e' & He' & ->).
    { apply list_elem_of_fmap. exists d. split; [|done].
      symmetry. by apply legacy_promise_rejected. }
    apply list_elem_of_fmap in He' as (d' & Heq & Hd').
    symmetry in Heq. apply legacy_promise_rejected in Heq.
    exists (d', e'). split; [|done]. rewrite <- Hfail.
    by apply failing_from_elem.
  - intros before i after d e -> Hbefore Hi Hreq. f_equal.
    apply Q_all_first.
    + apply Forall_forall. intros j Hj e' Hlook.
      rewrite Forall_forall in Hbefore. specialize (Hbefore j Hj).
      unfold fails_at in Hbefore.
      change (map (legacy_promise st) (_view st))
        with (legacy_promise st <$> _view st) in Hlook.
      rewrite list_lookup_fmap in Hlook.
      destruct (_view st !! j) as [d'|]; [|done]. simpl in Hlook.
      injection Hlook as Hlook. apply legacy_promise_rejected in Hlook.
      by rewrite Hlook in Hbefore.
    + change (map (legacy_promise st) (_view st))
        with (legacy_promise st <$> _view st).
      rewrite list_lookup_fmap, Hi. simpl. f_equal.
      by apply legacy_promise_rejected.
Qed.

(** X8 — When a device joins the view later, the two versions of the opener
    do the same: the earlier [_onDeviceAdded], which catches on the
    promise [_openOneChannel] returns, leaves the opener exactly as the
    present one, which catches inside [_openOneChannel]. *)
Theorem onDeviceAdded_versions_agree d st :
  legacy_onDeviceAdded d st = _onDeviceAdded d st.
Proof.
  unfold legacy_onDeviceAdded, _onDeviceAdded, legacy_openOneChannel,
    _openOneChannel.
  destruct (request d st) as [[c|e]|]; simpl; [|done|done].
  by destruct (set_has (ch_uniqueId c) (_set st)).
Qed.

(** X9 — A mode other than ['r'], ['q'], ['w'] goes unnoticed until a device
    is there to open: [start()] throws 'Invalid mode' when the view has
    a device and resolves when the view is empty; in both cases the
    opener is left as it was.  A device joining later throws as well. *)
Theorem invalid_mode_start order st :
  ¬ valid_mode (_mode st) →
  start order st = (st, match _view st with
                        | [] => Returned (Resolved tt)
                        | _ :: _ => Threw (mkError "Invalid mode" "")
                        end)
  ∧ ∀ d, _openOneChannel d st = (st, Threw (mkError "Invalid mode" "")).
Proof.
  intros Hmode.
  assert (Hreq : ∀ d, request d st = None).
  { intros d. unfold request, valid_mode in *.
    repeat (destruct (decide _); [tauto|]). done. }
  assert (Hone : ∀ d, _openOneChannel d st
                      = (st, Threw (mkError "Invalid mode" ""))).
  { intros d. unfold _openOneChannel. by rewrite Hreq. }
  split; [|done]. unfold start, _openChannels.
  destruct (_view st) as [|d ds]; [|simpl; by rewrite Hone].
  simpl. by rewrite (OpenerFacts.Q_all_resolved order []) by constructor.
Qed.

(** X10 — A device that comes and goes.  If the device hands out a channel of
    its own (the id starts with the device's id and a dash) and the set
    holds no channel of that device yet, then [_onDeviceAdded] followed
    by [_onDeviceRemoved] leaves the set as it was, and the one channel
    removed, the one to be closed, is the channel just added. *)
Theorem device_added_then_removed d st c :
  request d st = Some (Resolved c) →
  owns d c = true →
  Forall (fun c' => owns d c' = false) (_set st) →
  _onDeviceRemoved d (_onDeviceAdded d st) = (with_set (_set st) st, [c]).
Proof.
  intros Hreq Hown Hnone.
  assert (Hnew : set_has (ch_uniqueId c) (_set st) = false).
  { apply bool_decide_eq_false. intros Hin.
    apply list_elem_of_fmap in Hin as (c' & Hid & Hc').
    rewrite Forall_forall in Hnone. specialize (Hnone c' Hc').
    unfold owns in *. rewrite <- Hid in Hnone. congruence. }
  unfold _onDeviceAdded, _openOneChannel, _onDeviceRemoved, removeIf.
  rewrite Hreq. simpl. rewrite Hnew. simpl.
  rewrite !filter_app.
  assert (Hkept : filter (fun c' => ¬ owns d c') (_set st) = _set st).
  { clear -Hnone. induction Hnone as [|c' s Hc' Hs IH]; [done|].
    rewrite filter_cons_True; [by rewrite IH|]. rewrite Hc'. intros []. }
  assert (Hout : filter (fun c' => owns d c') (_set st) = []).
  { clear -Hnone. induction Hnone as [|c' s Hc' Hs IH]; [done|].
    rewrite filter_cons_False; [done|]. rewrite Hc'. intros []. }
  unfold owns in Hkept, Hout, Hown. rewrite Hkept, Hout.
  rewrite (filter_cons_False _ c) by (rewrite Hown; simpl; tauto).
  rewrite filter_cons_True by (by rewrite Hown).
  by rewrite app_nil_r.
Qed.

End Facts.

Lemma legacy_start_first_failure_witness :
  valid_mode (_mode Scenario.two_failures)
  ∧ (legacy_start [1; 2; 0] Scenario.two_failures).2
    = Returned (Rejected Scenario.fridge_error)
  ∧ _set (legacy_start [1; 2; 0] Scenario.two_failures).1
    = _set (start [1; 2; 0] Scenario.two_failures).1
  ∧ console (legacy_start [1; 2; 0] Scenario.two_failures).1 = [].
Proof.
  assert (Hmode : valid_mode (_mode Scenario.two_failures)) by (by left).
  split; [exact Hmode|].
  destruct (legacy_start_first_failure [1; 2; 0] Scenario.two_failures Hmode)
    as (_ & _ & Hfirst & Hset & Hcon).
  split; [|split; [exact Hset|exact Hcon]].
  apply (Hfirst [1] 2 [0] Scenario.fridge Scenario.fridge_error);
    [reflexivity|by repeat constructor|reflexivity|reflexivity].
Defined.

(** The same opener, the television's promise being the first to be
    rejected. *)
Example legacy_start_other_order :
  (legacy_start [0; 1; 2] Scenario.two_failures).2
  = Returned (Rejected Scenario.tv_error).
Proof. reflexivity. Qed.

Lemma invalid_mode_start_witness :
  ¬ valid_mode (_mode Scenario.misconfigured)
  ∧ start [] Scenario.misconfigured
    = (Scenario.misconfigured, Threw (mkError "Invalid mode" "")).
Proof.
  assert (Hmode : ¬ valid_mode (_mode Scenario.misconfigured)).
  { intros [H|[H|H]]; discriminate H. }
  split; [exact Hmode|].
  exact (proj1 (invalid_mode_start [] Scenario.misconfigured Hmode)).
Defined.

Lemma device_added_then_removed_witness :
  let st := _onDeviceAdded Scenario.radio Scenario.opener in
  _set st = [mkChan "radio-poll" 1]
  ∧ _onDeviceRemoved Scenario.lamp (_onDeviceAdded Scenario.lamp st)
    = (with_set (_set st) st, [mkChan "lamp-poll" 0]).
Proof.
  split; [reflexivity|].
  apply (device_added_then_removed Scenario.lamp
           (_onDeviceAdded Scenario.radio Scenario.opener)
           (mkChan "lamp-poll" 0)).
  - reflexivity.
  - reflexivity.
  - repeat constructor.
Defined.
End OpenerMore.

(** ** The client connection: closing, buffering, delivery *)

Module ClientMore.
Import Client.

Lemma step_closed i st :
  _closeOk st = true →
  _closeOk (step i st).1 = true
  ∧ match i with
    | SocketClosed _ _ => step i st = (st, [])
    | UserOpen | ConnectFail _ => True
    | _ => count_attempts (step i st).2 = 0
    end.
Proof.
  intros Hc. destruct i as [|msg| |n now|n|s now|s data]; simpl.
  - done.
  - unfold send. by destruct (_socket st).
  - unfold close. by destruct (_socket st).
  - destruct (bool_decide (n ∈ awaiting st)); [|done]. simpl. split; [done|].
    unfold count_attempts.
    destruct (_authToken st); simpl;
      (induction (_outgoingBuffer st) as [|m l IH]; [done|exact IH]).
  - destruct (bool_decide (n ∈ awaiting st)); [|done].
    unfold connect_failed. simpl.
    by destruct (0 <? _retryAttempts st)%Z.
  - unfold on_close, _onConnectionLost. rewrite Hc.
    by destruct (decide (_socket st = Some s)).
  - unfold on_message.
    destruct (decide (_socket st = Some s)) as [Hs|]; [|done].
    destruct data as [| |msg]; [done|done|].
    destruct (negb (expected_control (control msg))); [done|].
    destruct (decide (control msg = JStr "close")); [|by destruct (decide _)].
    unfold close. by rewrite Hs.
Qed.

(** X11 — Closing is for good.  Once [_closeOk] is set, by [close()] or by a
    'close' frame of the server, nothing resets it: whatever happens
    afterwards, also if the caller opens the client again and a session
    comes up, the loss of a socket is ignored, with no reconnection and
    no 'failed' event; only a new [open()] and the retries of its own
    promise ask for connections. *)
Theorem close_is_final st ins :
  _closeOk st = true → Forall stays_closed (exec st ins).
Proof.
  revert st. induction ins as [|i ins IH]; intros st Hc; [constructor|].
  simpl. destruct (step_closed i st Hc) as [Hc' Hi].
  destruct (step i st) as [st' o] eqn:Hstep. simpl in *.
  constructor; [|by apply IH].
  split; [done|]. simpl. destruct i; try done.
  by injection Hi as -> ->.
Qed.

Lemma sendMany_offline msgs st :
  _socket st = None →
  (sendMany msgs st).2 = []
  ∧ _outgoingBuffer (sendMany msgs st).1 = _outgoingBuffer st ++ msgs
  ∧ _socket (sendMany msgs st).1 = None
  ∧ awaiting (sendMany msgs st).1 = awaiting st
  ∧ _authToken (sendMany msgs st).1 = _authToken st
  ∧ _identity (sendMany msgs st).1 = _identity st.
Proof.
  revert st. induction msgs as [|m msgs IH]; intros st Hs.
  - simpl. by rewrite app_nil_r.
  - cbn [sendMany].
    assert (Hsend : send m st
              = (mk (_identity st) (_authToken st) (_closeOk st) (_socket st)
                    (_outgoingBuffer st ++ [m]) (_ratelimitTimer st)
                    (_retryAttempts st) (attempts st) (awaiting st), []))
      by (unfold send; by rewrite Hs).
    rewrite Hsend.
    destruct (IH (mk (_identity st) (_authToken st) (_closeOk st) (_socket st)
                     (_outgoingBuffer st ++ [m]) (_ratelimitTimer st)
                     (_retryAttempts st) (attempts st) (awaiting st)) Hs)
      as (Ho & Hb & Hs' & Ha & Ht & Hi).
    destruct (sendMany msgs _) as [st2 o2]. simpl in *.
    rewrite Ho, Hb, <- app_assoc. by repeat split.
Qed.

(** X12 — Messages sent while there is no socket are kept, in order, and
    written when the pending connection comes up: after the
    authentication frame, each tagged as data, and handed to the socket
    as the objects they are, not as text.  The buffer is then empty and
    a later [send] writes to the socket at once, as text. *)
Theorem offline_sends_flushed st msgs n now :
  _socket st = None →
  n ∈ awaiting st →
  let st1 := (sendMany msgs st).1 in
  let connected := step (ConnectOk n now) st1 in
  (sendMany msgs st).2 = []
  ∧ connected.2
    = Console "Successfully connected to server"
      :: greeting n st (_outgoingBuffer st ++ msgs)
  ∧ _outgoingBuffer connected.1 = []
  ∧ ∀ msg, send msg connected.1
           = (connected.1, [SockSend n (tag_data msg)]).
Proof.
  intros Hs Hn. cbv zeta.
  destruct (sendMany_offline msgs st Hs) as (Ho & Hb & Hs' & Ha & Ht & Hi).
  split; [done|]. simpl. rewrite Ha, bool_decide_eq_true_2 by done.
  unfold _onConnected, greeting. simpl. rewrite Hb, Ht, Hi.
  by repeat split.
Qed.

(** X13 — What the client delivers.  A 'message' event comes only from a
    frame that arrives on the socket currently in use and parses to an
    object whose control is 'data', 'auth-token-ok' or
    'auth-token-error'; a data frame is delivered without its control
    field, the other two as they are.  Delivering changes nothing in
    the client. *)
Theorem client_delivery i st m :
  EmitMessage m ∈ (step i st).2 →
  ∃ s msg,
    i = Frame s (Parsed msg) ∧ _socket st = Some s
    ∧ (step i st).1 = st
    ∧ (step i st).2 = [EmitMessage m]
    ∧ ((control msg = JStr "data" ∧ m = delete_control msg)
       ∨ (control msg ∈ [JStr "auth-token-ok"; JStr "auth-token-error"]
          ∧ m = msg)).
Proof.
  destruct i as [|msg| |n now|n|s now|s data]; simpl.
  - intros H. repeat (apply elem_of_cons in H as [H|H]; [discriminate H|]).
    by apply elem_of_nil in H.
  - unfold send. destruct (_socket st); simpl; intros H.
    + apply list_elem_of_singleton in H. discriminate H.
    + by apply elem_of_nil in H.
  - unfold close. destruct (_socket st); simpl; intros H;
      apply list_elem_of_singleton in H; discriminate H.
  - destruct (bool_decide (n ∈ awaiting st)); simpl;
      [|by intros ?%elem_of_nil].
    intros H. apply elem_of_cons in H as [H|H]; [discriminate H|].
    apply elem_of_app in H as [H|H].
    + destruct (_authToken st); [|by apply elem_of_nil in H].
      apply list_elem_of_singleton in H. discriminate H.
    + apply list_elem_of_fmap in H as (? & H & _). discriminate H.
  - destruct (bool_decide (n ∈ awaiting st)); simpl;
      [|by intros ?%elem_of_nil].
    unfold connect_failed. simpl.
    destruct (0 <? _retryAttempts st)%Z; simpl; intros H;
      repeat (apply elem_of_cons in H as [H|H]; [discriminate H|]);
      by apply elem_of_nil in H.
  - unfold on_close, _onConnectionLost.
    destruct (decide (_socket st = Some s)); [|by intros ?%elem_of_nil].
    destruct (_closeOk st); [by intros ?%elem_of_nil|]. simpl.
    destruct (_ratelimitTimer st) as [since|]; simpl.
    + destruct (now - since <? 60000)%Z; [destruct (0 <? _retryAttempts st)%Z|];
        simpl; intros H;
        repeat (apply elem_of_cons in H as [H|H]; [discriminate H|]);
        by apply elem_of_nil in H.
    + intros H.
      repeat (apply elem_of_cons in H as [H|H]; [discriminate H|]).
      by apply elem_of_nil in H.
  - unfold on_message.
    destruct (decide (_socket st = Some s)) as [Hs|];
      [|by intros ?%elem_of_nil].
    destruct data as [| |msg]; simpl.
    + intros H. apply list_elem_of_singleton in H. discriminate H.
    + intros H. apply list_elem_of_singleton in H. discriminate H.
    + destruct (expected_control (control msg)) eqn:Hexp; simpl.
      2:{ intros H. apply list_elem_of_singleton in H. discriminate H. }
      destruct (decide (control msg = JStr "close")) as [Hclose|Hnc].
      { unfold close. rewrite Hs. simpl. intros H.
        repeat (apply elem_of_cons in H as [H|H]; [discriminate H|]).
        by apply elem_of_nil in H. }
      apply bool_decide_eq_true in Hexp.
      destruct (decide (control msg = JStr "data")) as [Hdata|Hnd]; simpl;
        intros H; apply list_elem_of_singleton in H; injection H as ->;
        exists s, msg; repeat split; try done.
      * by left.
      * right. split; [|done].
        apply elem_of_cons in Hexp as [He|Hexp]; [rewrite He; by left|].
        apply elem_of_cons in Hexp as [He|Hexp];
          [rewrite He; right; by left|].
        apply elem_of_cons in Hexp as [He|Hexp]; [done|].
        apply elem_of_cons in Hexp as [He|Hexp]; [done|].
        by apply elem_of_nil in Hexp.
Qed.

Lemma close_is_final_witness :
  let st := (close Scenario.connected_client).1 in
  _closeOk st = true
  ∧ Forall stays_closed
      (exec st [UserOpen; ConnectOk 1 5000; SocketClosed 1 6000;
                UserSend (Scenario.note "late")]).
Proof.
  split; [reflexivity|].
  apply (close_is_final (close Scenario.connected_client).1). reflexivity.
Defined.

Lemma offline_sends_flushed_witness :
  let st := (open Scenario.queued_client).1 in
  _socket st = None
  ∧ 0 ∈ awaiting st
  ∧ (step (ConnectOk 0 1000)
       (sendMany [Scenario.note "a"; Scenario.note "b"] st).1).2
    = [Console "Successfully connected to server";
       SockSend 0 (Scenario.auth_frame "phone" "secret");
       SockSendObject 0 (Scenario.data_frame "queued");
       SockSendObject 0 (Scenario.data_frame "a");
       SockSendObject 0 (Scenario.data_frame "b")].
Proof.
  assert (Hin : 0 ∈ awaiting (open Scenario.queued_client).1) by (by left).
  split; [reflexivity|]. split; [exact Hin|].
  exact (proj1 (proj2 (offline_sends_flushed (open Scenario.queued_client).1
                         [Scenario.note "a"; Scenario.note "b"] 0 1000
                         eq_refl Hin))).
Defined.

Lemma client_delivery_witness :
  (step (Frame 0 (Parsed (Scenario.data_frame "hello")))
        Scenario.connected_client).2
  = [EmitMessage (delete_control (Scenario.data_frame "hello"))]
  ∧ ∃ s msg, Frame 0 (Parsed (Scenario.data_frame "hello"))
             = Frame s (Parsed msg)
             ∧ _socket Scenario.connected_client = Some s.
Proof.
  split; [reflexivity|].
  destruct (client_delivery (Frame 0 (Parsed (Scenario.data_frame "hello")))
              Scenario.connected_client
              (delete_control (Scenario.data_frame "hello")))
    as (s & msg & Hi & Hs & _).
  - left.
  - exists s, msg. split; [exact Hi|exact Hs].
Defined.

End ClientMore.

(** ** The server connection: buffering, closing, superseded sockets *)

Module ServerMore.
Import Server.
Implicit Types (st : Server.t) (msg : Msg) (c : Conn).

Lemma find_in_set_conn s a c c' (h : list Conn) tbl :
  h !! a = Some c → socket c' = socket c →
  find_in s (<[a := c']> h) tbl = find_in s h tbl.
Proof.
  intros Ha Hsock. induction tbl as [|[k b] tbl IH]; [done|]. simpl.
  destruct (decide (b = a)) as [->|Hne].
  - rewrite list_lookup_insert_eq by (by eapply lookup_lt_Some).
    rewrite Ha, Hsock. by destruct (decide (socket c = Some s)).
  - rewrite list_lookup_insert_ne by done. by rewrite IH.
Qed.

(** X17 — The two ways a socket can go.  After [closeOne(identity)] has
    written the close frame and the peer has closed the socket, the
    close callback runs and the record is left as it is: it still holds
    the socket, so the identity still counts as connected, and a message
    for it, if the peer had authenticated, is written to that socket,
    not buffered.  A socket that closes unasked clears its record: the
    identity is no longer connected and a message for it is buffered. *)
Theorem socket_close_outcomes st id a c s :
  table_get id (_connections st) = Some a →
  heap st !! a = Some c → socket c = Some s →
  _findConnection s st = Some a →
  let asked := closeOne id st in
  let closed := on_close s asked.1 in
  let lost := on_close s st in
  asked.2 = [SockSend s (control_frame "close")]
  ∧ CloseCallback ∈ closed.2
  ∧ closed.1 = asked.1
  ∧ isConnected id closed.1 = true
  ∧ (dataOk c = true →
     ∀ m, send m (Some id) closed.1
          = (closed.1, [SockSend s (tag_data m)], Some (tag_data m)))
  ∧ (closeOk c = false →
     isConnected id lost.1 = false
     ∧ ∀ m, (send m (Some id) lost.1).1.2 = []
            ∧ ∃ c', heap (send m (Some id) lost.1).1.1 !! a = Some c'
                    ∧ outgoingBuffer c' = outgoingBuffer c ++ [m]).
Proof.
  intros Ht Ha Hs Hfind. cbv zeta.
  assert (Hlt : a < length (heap st)) by (by eapply lookup_lt_Some).
  assert (Hasked : closeOne id st
            = (set_conn a (mkConn (socket c) (dataOk c) true true
                             (pingTimeout c) (outgoingBuffer c)
                             (c_identity c)) st,
               [SockSend s (control_frame "close")])).
  { unfold closeOne, read. by rewrite Ht, Ha, Hs. }
  rewrite Hasked. cbn [fst snd].
  set (c1 := mkConn (socket c) (dataOk c) true true (pingTimeout c)
               (outgoingBuffer c) (c_identity c)).
  assert (Hclosed : on_close s (set_conn a c1 st)
            = (set_conn a c1 st,
               (if decide (pingTimeout c = PingOff) then []
                else [ClearInterval (pingTimeout c)]) ++ [CloseCallback])).
  { unfold on_close, _findConnection. cbn [set_conn heap _connections].
    rewrite (find_in_set_conn s a c c1) by done.
    unfold _findConnection in Hfind. rewrite Hfind.
    by rewrite list_lookup_insert_eq. }
  rewrite Hclosed. cbn [fst snd].
  split; [done|]. split; [apply elem_of_app; right; by left|].
  split; [done|]. split; [|split].
  - unfold isConnected, read. cbn [set_conn heap _connections].
    rewrite Ht, list_lookup_insert_eq by done. simpl. rewrite Hs.
    by apply bool_decide_eq_true.
  - intros Hd m. simpl. unfold _sendTo, read. cbn [set_conn heap _connections].
    rewrite Ht, list_lookup_insert_eq by done. simpl. by rewrite Hs, Hd.
  - intros Hok.
    assert (Hlost : (on_close s st).1
              = set_conn a (mkConn None false false (closeCallback c)
                              (pingTimeout c) (outgoingBuffer c)
                              (c_identity c)) st).
    { unfold on_close. by rewrite Hfind, Ha, Hok. }
    rewrite Hlost. split.
    + unfold isConnected, read. cbn [set_conn heap _connections].
      by rewrite Ht, list_lookup_insert_eq by done.
    + intros m. simpl. unfold _sendTo, read. cbn [set_conn heap _connections].
      rewrite Ht, list_lookup_insert_eq by done. simpl.
      split; [done|]. eexists.
      rewrite list_lookup_insert_eq by (by rewrite length_insert).
      split; reflexivity.
Qed.

Lemma table_get_elem k a tbl : table_get k tbl = Some a → (k, a) ∈ tbl.
Proof.
  induction tbl as [|[k' a'] tbl IH]; simpl; [done|].
  destruct (decide (k' = k)) as [->|Hne].
  - intros [= ->]. by left.
  - intros H. right. by apply IH.
Qed.






Lemma same_sockets_refl (h : list Conn) : same_sockets h h.
Proof.
  apply Forall2_same_length_lookup. split; [done|].
  intros i c1 c2 H1 H2. rewrite H1 in H2. by injection H2 as <-.
Qed.

Lemma socket_of_same st0 st id :
  _connections st = _connections st0 → same_sockets (heap st0) (heap st) →
  socket_of id st = socket_of id st0.
Proof.
  intros Ht Hh. unfold socket_of. rewrite Ht.
  destruct (table_get id (_connections st0)) as [a|]; [|done].
  destruct (heap st0 !! a) as [c|] eqn:Hc.
  - by destruct (Forall2_lookup_l _ _ _ _ _ Hh Hc) as (c' & -> & Hs & _).
  - apply lookup_ge_None in Hc. rewrite (Forall2_length _ _ _ Hh) in Hc.
    apply lookup_ge_None in Hc. by rewrite Hc.
Qed.

Lemma closeOne_effect id st0 st :
  _connections st = _connections st0 → same_sockets (heap st0) (heap st) →
  is_Some (table_get id (_connections st0)) →
  _connections (closeOne id st).1 = _connections st0
  ∧ same_sockets (heap st0) (heap (closeOne id st).1)
  ∧ (closeOne id st).2
    = option_list ((fun s => SockSend s (control_frame "close"))
                   <$> socket_of id st0)
  ∧ (∀ a c, heap st !! a = Some c → asked_to_close c →
       ∃ c', heap (closeOne id st).1 !! a = Some c' ∧ asked_to_close c')
  ∧ (∀ a c', table_get id (_connections st0) = Some a →
       heap (closeOne id st).1 !! a = Some c' → asked_to_close c').
Proof.
  intros Ht Hh Hown. rewrite <- (socket_of_same st0 st id Ht Hh).
  unfold closeOne, socket_of, read. rewrite Ht.
  destruct (table_get id (_connections st0)) as [a|] eqn:Ha; simpl;
    [|by destruct Hown].
  destruct (heap st !! a) as [c|] eqn:Hc; simpl.
  2:{ split; [done|]. split; [done|]. split; [done|]. split; [by eauto|].
      intros a' c' [= <-] Hc'. congruence. }
  assert (Hlt : a < length (heap st)) by (by eapply lookup_lt_Some).
  assert (Hupd : ∀ c1 : Conn,
    socket c1 = socket c → dataOk c1 = dataOk c →
    outgoingBuffer c1 = outgoingBuffer c → asked_to_close c1 →
    same_sockets (heap st0) (<[a := c1]> (heap st))
    ∧ (∀ a' c', heap st !! a' = Some c' → asked_to_close c' →
         ∃ c'', <[a := c1]> (heap st) !! a' = Some c'' ∧ asked_to_close c'')
    ∧ (∀ a' c', Some a = Some a' →
         <[a := c1]> (heap st) !! a' = Some c' → asked_to_close c')).
  { intros c1 Hs Hd Hb Hflags. split; [|split].
    - apply Forall2_same_length_lookup.
      split; [rewrite length_insert; by eapply Forall2_length|].
      intros i x y Hx Hy. destruct (decide (i = a)) as [->|Hne].
      + rewrite list_lookup_insert_eq in Hy by done. injection Hy as <-.
        destruct (Forall2_lookup_l _ _ _ _ _ Hh Hx) as (c' & Hc' & Hsame).
        rewrite Hc in Hc'. injection Hc' as <-.
        destruct Hsame as (? & ? & ?). repeat split; congruence.
      + rewrite list_lookup_insert_ne in Hy by done.
        destruct (Forall2_lookup_l _ _ _ _ _ Hh Hx) as (c' & Hc' & Hsame).
        rewrite Hy in Hc'. by injection Hc' as <-.
    - intros a' c' Ha' Hf'. destruct (decide (a' = a)) as [->|Hne].
      + exists c1. by rewrite list_lookup_insert_eq.
      + exists c'. by rewrite list_lookup_insert_ne.
    - intros a' c' [= <-]. rewrite list_lookup_insert_eq by done.
      by intros [= <-]. }
  destruct (socket c) as [s|] eqn:Hs; simpl.
  - destruct (Hupd (mkConn (Some s) (dataOk c) true true (pingTimeout c)
                      (outgoingBuffer c) (c_identity c)))
      as (H1 & H2 & H3); try done.
  - destruct (Hupd (mkConn None (dataOk c) false false (pingTimeout c)
                      (outgoingBuffer c) (c_identity c)))
      as (H1 & H2 & H3); try done.
Qed.

Lemma close_fold ids st0 st o0 :
  _connections st = _connections st0 → same_sockets (heap st0) (heap st) →
  Forall (fun id => is_Some (table_get id (_connections st0))) ids →
  let res := foldl close_next (st, o0) ids in
  _connections res.1 = _connections st0
  ∧ same_sockets (heap st0) (heap res.1)
  ∧ res.2 = o0 ++ omap (fun id => (fun s => SockSend s (control_frame "close"))
                                  <$> socket_of id st0) ids
  ∧ (∀ a c, heap st !! a = Some c → asked_to_close c →
       ∃ c', heap res.1 !! a = Some c' ∧ asked_to_close c')
  ∧ (∀ id a c', id ∈ ids → table_get id (_connections st0) = Some a →
       heap res.1 !! a = Some c' → asked_to_close c').
Proof.
  revert st o0. induction ids as [|id ids IH]; intros st o0 Ht Hh Hown;
    cbv zeta.
  - simpl. rewrite app_nil_r.
    split; [done|]. split; [done|]. split; [done|]. split; [by eauto|].
    by intros id a c' ?%elem_of_nil.
  - cbn [foldl]. apply Forall_cons in Hown as [Hid Hown].
    destruct (closeOne_effect id st0 st Ht Hh Hid)
      as (Ht1 & Hh1 & Ho1 & Hk1 & Hd1).
    assert (Hnext : close_next (st, o0) id
                    = ((closeOne id st).1, o0 ++ (closeOne id st).2)).
    { unfold close_next. cbn [fst snd]. by destruct (closeOne id st). }
    rewrite Hnext.
    destruct (closeOne id st) as [st1 o1]. cbn [fst snd] in *.
    destruct (IH st1 (o0 ++ o1) Ht1 Hh1 Hown) as (Ht2 & Hh2 & Ho2 & Hk2 & Hd2).
    split; [done|]. split; [done|]. split; [|split].
    + rewrite Ho2, Ho1, <- app_assoc. f_equal. simpl.
      by destruct (socket_of id st0).
    + intros a c Ha Hf. destruct (Hk1 a c Ha Hf) as (c1 & Hc1 & Hf1).
      by apply (Hk2 a c1).
    + intros id' a c' Hin Ha Hc'.
      apply elem_of_cons in Hin as [->|Hin]; [|by eapply Hd2].
      assert (Hlen : a < length (heap st1)).
      { rewrite <- (Forall2_length _ _ _ Hh1), (Forall2_length _ _ _ Hh2).
        by eapply lookup_lt_Some. }
      destruct (lookup_lt_is_Some_2 _ _ Hlen) as [c1 Hc1].
      destruct (Hk2 a c1 Hc1 (Hd1 a c1 Ha Hc1)) as (c2 & Hc2 & Hf2).
      congruence.
Qed.

(** X18 — Closing the server.  [close()] writes one close frame to the socket
    of every identity whose record holds one, in the order in which
    [for .. in] goes through the table (identities written as an array
    index first, by value, then the others as they were registered),
    and nothing to the others; when no identity is written as an array
    index or is [__proto__], that is the order of the table.  The table,
    the sockets and the buffers stay as they are, and afterwards the
    record of each identity other than [__proto__] waits for its peer
    exactly when it holds a socket. *)
Theorem close_asks_every_peer st :
  (close st).2
  = omap (fun id => (fun s => SockSend s (control_frame "close"))
                    <$> socket_of id st)
         (map fst (enumerate (_connections st)))
  ∧ (Forall (fun e => named e = true) (_connections st) →
     (close st).2
     = omap (fun id => (fun s => SockSend s (control_frame "close"))
                       <$> socket_of id st)
            (map fst (_connections st)))
  ∧ _connections (close st).1 = _connections st
  ∧ same_sockets (heap st) (heap (close st).1)
  ∧ (∀ id, socket_of id (close st).1 = socket_of id st)
  ∧ ∀ id a c, id ≠ "__proto__" →
              table_get id (_connections st) = Some a →
              heap (close st).1 !! a = Some c → asked_to_close c.
Proof.
  unfold close.
  destruct (close_fold (map fst (enumerate (_connections st))) st st []
              eq_refl (same_sockets_refl _)) as (Ht & Hh & Ho & _ & Hd).
  { apply Forall_forall. intros id. apply ServerFacts.enumerate_keys. }
  split; [done|].
  split; [intros Hnamed; by rewrite Ho, (ServerFacts.enumerate_named _ Hnamed)|].
  split; [done|]. split; [done|].
  split; [intros id; by apply socket_of_same|].
  intros id a c Hid Ha. apply (Hd id a c); [|done].
  apply table_get_elem in Ha. apply list_elem_of_fmap. exists (id, a).
  split; [done|]. by apply ServerFacts.enumerate_other.
Qed.










Lemma table_get_set_ne k k' a tbl :
  k' ≠ k → table_get k' (table_set k a tbl) = table_get k' tbl.
Proof.
  intros Hne. induction tbl as [|[k0 a0] tbl IH]; simpl.
  - by rewrite decide_False by done.
  - destruct (decide (k0 = k)) as [->|Hk]; simpl.
    + by rewrite !decide_False by done.
    + by rewrite IH.
Qed.

(** X14 — The constructor.  A new server told to expect some identities,
    none of them [__proto__], has a record of its own for exactly those:
    each holds no socket and an empty buffer, and none of them counts as
    connected; no socket is listened to, and the token is the configured
    one.  For a name it was not told to expect, [isConnected] answers
    [true] when the name is that of a member of [Object.prototype], and
    [false] otherwise. *)
Theorem create_registers_expected configured expected :
  "__proto__" ∉ expected →
  let st := create configured expected in
  (∀ id, is_Some (table_get id (_connections st)) ↔ id ∈ expected)
  ∧ (∀ id a, table_get id (_connections st) = Some a →
             heap st !! a = Some expected_record)
  ∧ (∀ id, isConnected id st = bool_decide (id ∉ expected) && inherited id)
  ∧ closure st = [] ∧ authToken st = configured.
Proof.
  intros _. cbv zeta. unfold create.
  cut (let st := foldl (fun st from =>
                   mk (table_set from (length (heap st)) (_connections st))
                      (heap st ++ [expected_record]) (closure st)
                      (authToken st) (timers st))
                 (mk [] [] [] configured 0) expected in
       (∀ id, is_Some (table_get id (_connections st)) ↔ id ∈ expected)
       ∧ (∀ id a, table_get id (_connections st) = Some a →
                  heap st !! a = Some expected_record)
       ∧ closure st = [] ∧ authToken st = configured).
  { cbv zeta. intros (Hkeys & Hrec & Hcl & Htok).
    split; [done|]. split; [done|]. split; [|done].
    intros id. unfold isConnected, read.
    destruct (table_get id _) as [a|] eqn:Ha.
    - rewrite (Hrec id a Ha). simpl.
      rewrite (bool_decide_eq_false_2 (id ∉ expected)); [done|].
      intros Hout. apply Hout, Hkeys. by rewrite Ha.
    - rewrite (bool_decide_eq_true_2 (id ∉ expected)); [by destruct (inherited id)|].
      intros Hin. apply Hkeys in Hin. rewrite Ha in Hin. by destruct Hin. }
  induction expected as [|from expected IH] using rev_ind; cbv zeta.
  - simpl. split; [|done]. intros id. split; [by intros [? ?]|].
    by intros ?%elem_of_nil.
  - rewrite foldl_app. simpl.
    destruct IH as (Hkeys & Hrec & Hcl & Htok).
    set (st := foldl _ _ expected) in *.
    split; [|split; [|done]].
    + intros id. rewrite elem_of_app, list_elem_of_singleton.
      destruct (decide (id = from)) as [->|Hne].
      * rewrite ServerFacts.table_get_set_eq. split; [by right|by eauto].
      * rewrite table_get_set_ne by done. rewrite Hkeys. tauto.
    + intros id a. destruct (decide (id = from)) as [->|Hne].
      * rewrite ServerFacts.table_get_set_eq. intros [= <-].
        by apply list_lookup_middle.
      * rewrite table_get_set_ne by done. intros Ha.
        specialize (Hrec id a Ha).
        rewrite lookup_app_l; [done|]. by eapply lookup_lt_Some.
Qed.

Section Handlers.
Variable setAuthToken : string → option string → option string * bool.

Lemma server_final_app st ins1 ins2 :
  final setAuthToken st (ins1 ++ ins2)
  = final setAuthToken (final setAuthToken st ins1) ins2.
Proof. revert st. induction ins1 as [|i ins1 IH]; intros st; [done|apply IH]. Qed.

(** Sends to an identity whose record has no socket only grow the
    buffer of that record. *)
Lemma sends_offline id a msgs st c :
  table_get id (_connections st) = Some a →
  heap st !! a = Some c → socket c = None →
  Forall (fun e => outs e = []) (exec setAuthToken st (sends_to id msgs))
  ∧ _connections (final setAuthToken st (sends_to id msgs)) = _connections st
  ∧ closure (final setAuthToken st (sends_to id msgs)) = closure st
  ∧ authToken (final setAuthToken st (sends_to id msgs)) = authToken st
  ∧ timers (final setAuthToken st (sends_to id msgs)) = timers st
  ∧ length (heap (final setAuthToken st (sends_to id msgs))) = length (heap st)
  ∧ ∃ c', heap (final setAuthToken st (sends_to id msgs)) !! a = Some c'
          ∧ socket c' = None ∧ pingTimeout c' = pingTimeout c
          ∧ outgoingBuffer c' = outgoingBuffer c ++ msgs.
Proof.
  revert st c. induction msgs as [|m msgs IH]; intros st c Ht Ha Hs.
  - simpl. split; [constructor|]. repeat split; try done.
    exists c. by rewrite app_nil_r.
  - assert (Hstep : step setAuthToken (InSend m (Some id)) st
              = (set_conn a (mkConn (socket c) (dataOk c) (closeOk c)
                               (closeCallback c) (pingTimeout c)
                               (outgoingBuffer c ++ [m]) (c_identity c)) st,
                 [])).
    { simpl. unfold _sendTo, read. by rewrite Ht, Ha, Hs. }
    assert (Hlt : a < length (heap st)) by (by eapply lookup_lt_Some).
    cbn [sends_to map exec final]. fold (sends_to id msgs).
    rewrite Hstep. cbn [fst].
    destruct (IH (set_conn a (mkConn (socket c) (dataOk c) (closeOk c)
                                (closeCallback c) (pingTimeout c)
                                (outgoingBuffer c ++ [m]) (c_identity c)) st)
                 (mkConn (socket c) (dataOk c) (closeOk c)
                    (closeCallback c) (pingTimeout c)
                    (outgoingBuffer c ++ [m]) (c_identity c)))
      as (Hout & Htbl & Hcl & Htok & Htm & Hlen & c' & Hc' & Hs' & Hp' & Hb');
      [done|simpl; by rewrite list_lookup_insert_eq|done|].
    split; [by constructor|].
    rewrite Htbl, Hcl, Htok, Htm, Hlen. simpl. rewrite length_insert.
    repeat split; try done.
    exists c'. simpl in Hb'. by rewrite <- app_assoc in Hb'.
Qed.

(** X15 — Offline delivery.  Messages sent to an identity whose record has no
    socket are only buffered; when a socket then connects and
    authenticates under that identity with the configured token, it is
    written everything the record had buffered, tagged as data, in the
    order it was sent.  From then on the identity counts as connected
    and a message for it goes to the socket at once. *)
Theorem offline_messages_delivered st id a c tok msg msgs :
  table_get id (_connections st) = Some a →
  heap st !! a = Some c → socket c = None →
  authToken st = Some tok →
  control msg = JStr "auth" → identity msg = JStr id → token msg = JStr tok →
  let s := length (closure st) in
  let st1 := final setAuthToken st (sends_to id msgs ++ [InConnect]) in
  let res := step setAuthToken (InFrame s (Parsed msg)) st1 in
  Forall (fun e => outs e = []) (exec setAuthToken st (sends_to id msgs))
  ∧ sent_on s res.2 = map tag_data (outgoingBuffer c ++ msgs)
  ∧ EmitConnected id ∈ res.2
  ∧ isConnected id res.1 = true
  ∧ ∀ m, send m (Some id) res.1
         = (res.1, [SockSend s (tag_data m)], Some (tag_data m)).
Proof.
  intros Ht Ha Hs Htok Hctl Hid Htk. cbv zeta.
  destruct (sends_offline id a msgs st c Ht Ha Hs)
    as (Hout & Htbl & Hcl & Hcfg & Htm & Hlen & c' & Hc' & Hs' & Hp' & Hb').
  split; [done|].
  rewrite server_final_app.
  set (st0 := final setAuthToken st (sends_to id msgs)) in *.
  cbn [final step fst]. unfold _handleConnection. cbn [fst].
  rewrite Hcl, Hlen, Htbl, Hcfg, Htm.
  set (s := length (closure st)). set (a' := length (heap st)).
  set (st2 := mk _ _ _ _ _).
  assert (Hlt : a < a') by (by eapply lookup_lt_Some).
  assert (Hs2 : closure st2 !! s = Some a').
  { simpl. by apply list_lookup_middle. }
  assert (Ha2 : heap st2 !! a' = Some (fresh_record s)).
  { simpl. apply list_lookup_middle. by rewrite Hlen. }
  assert (Hrun : on_message setAuthToken s (Parsed msg) st2
                 = authenticate s a' id st2).
  { unfold on_message. rewrite Hs2, Ha2. simpl.
    rewrite decide_False by (by rewrite Hctl).
    unfold auth_rejected. rewrite Hctl, Hid, Htk. simpl.
    rewrite Htok. simpl.
    rewrite ?bool_decide_eq_true_2 by done. simpl.
    by rewrite ?bool_decide_eq_false_2 by done. }
  rewrite Hrun, (ServerFacts.authenticate_live s a' id (fresh_record s) st2 Ha2 eq_refl).
  assert (Hold : oldConnection id (_connections st2)
                   (<[a' := mkConn (Some s) true false false PingOff
                               [] (Some id)]> (heap st2))
                 = Some c').
  { unfold oldConnection, read. simpl. rewrite Ht.
    rewrite list_lookup_insert_ne by lia. by rewrite lookup_app_l by lia. }
  simpl socket. simpl closeOk. simpl closeCallback. simpl pingTimeout.
  simpl outgoingBuffer. rewrite Hold. cbn [fst snd from_option].
  rewrite Hs', Hb'. cbn [app].
  split; [|split; [|split]].
  - change (sent_on s
              ([Console "Client successfully authenticated"]
               ++ (if decide (pingTimeout c' = PingOff) then []
                   else [ClearInterval (pingTimeout c')])
               ++ [SetInterval (timers st2) a']
               ++ map (fun m => SockSend s (tag_data m))
                      (outgoingBuffer c ++ msgs)
               ++ [EmitConnected id])
            = map tag_data (outgoingBuffer c ++ msgs)).
    rewrite !ServerFacts.sent_on_app, ServerFacts.sent_on_sends.
    destruct (decide (pingTimeout c' = PingOff)); simpl;
      by rewrite app_nil_r.
  - right. apply elem_of_app. right. right. apply elem_of_app. right. by left.
  - unfold isConnected, read. cbn [_connections heap].
    rewrite ServerFacts.table_get_set_eq.
    rewrite list_lookup_insert_eq
      by (rewrite length_insert; simpl; rewrite length_app; simpl; lia).
    done.
  - intros m. simpl. unfold _sendTo, read. cbn [_connections heap].
    rewrite ServerFacts.table_get_set_eq.
    rewrite list_lookup_insert_eq
      by (rewrite length_insert; simpl; rewrite length_app; simpl; lia).
    done.
Qed.



End Handlers.

Lemma offline_messages_delivered_witness :
  let st := Server.create (Some "secret") ["phone"] in
  let msgs := [Scenario.note "m1"; Scenario.note "m2"] in
  table_get "phone" (_connections st) = Some 0
  ∧ heap st !! 0 = Some expected_record
  ∧ sent_on 0 (step Scenario.pairing
                 (InFrame 0 (Parsed (Scenario.auth_frame "phone" "secret")))
                 (final Scenario.pairing st
                    (sends_to "phone" msgs ++ [InConnect]))).2
    = [Scenario.data_frame "m1"; Scenario.data_frame "m2"].
Proof.
  split; [reflexivity|]. split; [reflexivity|].
  exact (proj1 (proj2 (offline_messages_delivered Scenario.pairing
                         (Server.create (Some "secret") ["phone"])
                         "phone" 0 expected_record "secret"
                         (Scenario.auth_frame "phone" "secret")
                         [Scenario.note "m1"; Scenario.note "m2"]
                         eq_refl eq_refl eq_refl eq_refl
                         eq_refl eq_refl eq_refl))).
Defined.

Lemma socket_close_outcomes_witness :
  let st := Scenario.online_server in
  table_get "phone" (_connections st) = Some 1
  ∧ _findConnection 0 st = Some 1
  ∧ isConnected "phone" (on_close 0 (closeOne "phone" st).1).1 = true
  ∧ isConnected "phone" (on_close 0 st).1 = false.
Proof.
  split; [reflexivity|]. split; [reflexivity|].
  destruct (socket_close_outcomes Scenario.online_server "phone" 1
              (mkConn (Some 0) true false false (PingTimer 0) []
                 (Some "phone")) 0 eq_refl eq_refl eq_refl eq_refl)
    as (_ & _ & _ & Hstill & _ & Hlost).
  split; [exact Hstill|]. exact (proj1 (Hlost eq_refl)).
Defined.



Lemma create_registers_expected_witness :
  let st := create (Some "secret") ["phone"; "constructor"] in
  ("__proto__" ∉ ["phone"; "constructor"])
  ∧ isConnected "phone" st = false
  ∧ isConnected "constructor" st = false
  ∧ isConnected "toString" st = true
  ∧ isConnected "cloud" st = false.
Proof.
  assert (Hno : "__proto__" ∉ ["phone"; "constructor"]).
  { intros H. repeat (apply elem_of_cons in H as [H|H]; [discriminate H|]).
    by apply elem_of_nil in H. }
  cbv zeta. split; [exact Hno|].
  destruct (create_registers_expected (Some "secret") ["phone"; "constructor"]
              Hno) as (_ & _ & Hconn & _).
  pose proof (Hconn "phone") as H1. pose proof (Hconn "constructor") as H2.
  pose proof (Hconn "toString") as H3. pose proof (Hconn "cloud") as H4.
  split; [evaluated_from H1|]. split; [evaluated_from H2|].
  split; [evaluated_from H3|evaluated_from H4].
Defined.

(** Peers known by a number come first, by value: a broadcast and
    [close()] write to the socket of peer 2, then to that of peer 10,
    then to the phone's, which was registered before both. *)
Example numbered_peers_first :
  map fst (_connections Scenario.numbered_peers) = ["phone"; "10"; "2"]
  ∧ (send (Scenario.note "hi") None Scenario.numbered_peers).1.2
    = [SockSend 2 (Scenario.data_frame "hi");
       SockSend 1 (Scenario.data_frame "hi");
       SockSend 0 (Scenario.data_frame "hi")]
  ∧ (close Scenario.numbered_peers).2
    = [SockSend 2 (control_frame "close");
       SockSend 1 (control_frame "close");
       SockSend 0 (control_frame "close")].
Proof. repeat split; reflexivity. Qed.
End ServerMore.

(** ** The pipe sink: order of delivery *)

Module SinkMore.
Import Pipe.
Section Facts.
Context {Ev : Type}.
Implicit Types (k : Sink Ev) (ops : list (Op Ev)).

Lemma received_fan_out s (e : Ev) k :
  filter (fun x => x = s) (_sources k) = [s] →
  received s (fan_out e k) = [e].
Proof.
  unfold fan_out, received. intros Hone.
  assert (Hmap : ∀ l : list nat,
            omap (fun d : nat * Ev => if decide (d.1 = s) then Some d.2 else None)
                 (map (fun source => (source, e)) l)
            = map (fun _ => e) (filter (fun x => x = s) l)).
  { induction l as [|x l IH]; [done|]. simpl.
    destruct (decide (x = s)) as [->|Hne].
    - rewrite filter_cons_True by done. simpl. f_equal. exact IH.
    - rewrite filter_cons_False by done. exact IH. }
  by rewrite Hmap, Hone.
Qed.

(** X20 — Order of delivery.  A source that stays attached while events are
    sent, deferred callbacks run and other sources come and go, in any
    interleaving, is handed the events in the order they were sent,
    each at most once, none skipped: what it has received, followed by
    the events whose callback has not run yet, is what was pending at
    the start followed by everything sent since. *)
Theorem sink_delivers_in_order s ops k :
  filter (fun x => x = s) (_sources k) = [s] →
  forallb (fun o => negb (touches s o)) ops = true →
  received s (exec ops k).2 ++ timeouts (exec ops k).1
  = timeouts k ++ sent ops.
Proof.
  revert k. induction ops as [|o ops IH]; intros k Hone Hops.
  - simpl. by rewrite app_nil_r.
  - simpl in Hops. apply andb_true_iff in Hops as [Ho Hops].
    cbn [exec].
    assert (Hnext : ∀ k1 d1 (sent1 : list Ev),
      filter (fun x => x = s) (_sources k1) = [s] →
      received s d1 ++ timeouts k1 = timeouts k ++ sent1 →
      received s (let '(k2, d2) := exec ops k1 in (k2, d1 ++ d2)).2
      ++ timeouts (let '(k2, d2) := exec ops k1 in (k2, d1 ++ d2)).1
      = timeouts k ++ sent1 ++ sent ops).
    { intros k1 d1 sent1 Hone1 Heq. specialize (IH k1 Hone1 Hops).
      destruct (exec ops k1) as [k2 d2]. cbn [fst snd] in *.
      rewrite PipeFacts.received_app, <- app_assoc, IH.
      by rewrite !app_assoc, Heq. }
    destruct o as [s'|s'|e|]; cbn [step touches sent omap] in *.
    + apply negb_true_iff, bool_decide_eq_false in Ho.
      apply (Hnext (addSource s' k) [] []); [|by rewrite app_nil_r].
      simpl. rewrite filter_app, Hone.
      by rewrite filter_cons_False by (by intros ->).
    + apply negb_true_iff, bool_decide_eq_false in Ho.
      apply (Hnext (removeSource s' k) [] []); [|by rewrite app_nil_r].
      simpl. rewrite <- Hone. clear -Ho.
      induction (_sources k) as [|x l IHl]; [done|].
      destruct (decide (x = s)) as [->|Hne].
      * rewrite (filter_cons_True (fun x => x ≠ s')) by (by intros ->).
        rewrite !filter_cons_True by done. by rewrite IHl.
      * rewrite (filter_cons_False (fun x => x = s) x l) by done.
        destruct (decide (x = s')) as [->|Hne'].
        -- by rewrite filter_cons_False by (by intros H; apply H).
        -- rewrite (filter_cons_True (fun x => x ≠ s')) by done.
           by rewrite filter_cons_False by done.
    + apply (Hnext (sendEvent e k) [] [e]); [done|]. done.
    + unfold tick. destruct (timeouts k) as [|e later] eqn:Ht.
      * apply (Hnext k [] []); [done|]. by rewrite Ht.
      * apply (Hnext (mkSink (_sources k) later) (fan_out e k) []);
          [done|].
        rewrite (received_fan_out s e k Hone). simpl. by rewrite app_nil_r.
Qed.

End Facts.

Lemma sink_delivers_in_order_witness :
  let k := Pipe.mkSink [7] ["old"] in
  let ops := [SendEvent "a"; AddSource 9; Tick; SendEvent "b"; Tick;
              RemoveSource 9; Tick; SendEvent "c"] in
  received 7 (exec ops k).2 = ["old"; "a"; "b"]
  ∧ timeouts (exec ops k).1 = ["c"]
  ∧ received 7 (exec ops k).2 ++ timeouts (exec ops k).1
    = timeouts k ++ sent ops.
Proof.
  split; [reflexivity|]. split; [reflexivity|].
  apply (sink_delivers_in_order 7); reflexivity.
Defined.

End SinkMore.

(** ** The pipe manager: wiring of the ends *)

Module PipeMore.
Import PipeManager.
Section Facts.
Context {Ev : Type}.
Variable otherTiers : list Factory.Tier.
Implicit Types (st : PipeManager.t Ev) (sink : Pipe.Sink Ev)
  (ops : list (PipeManager.Op Ev)).

Lemma ends_filter name source st :
  filter (fun s => s ≠ source) (ends name st)
  = ends name (removeSource name source st).1.
Proof.
  unfold ends, removeSource. cbn [fst _pipeLocalSources _pipeProxySources].
  rewrite filter_app. f_equal.
  - destruct (decide (_pipeLocalSources st !! name = Some source)) as [Heq|Hne].
    + rewrite Heq, lookup_delete_eq. simpl.
      by rewrite filter_cons_False by (intros H; by apply H).
    + destruct (_pipeLocalSources st !! name) as [l|]; [|done]. simpl.
      rewrite filter_cons_True; [done|]. intros ->. by apply Hne.
  - destruct (decide (_pipeProxySources st !! name = Some source)) as [Heq|Hne].
    + rewrite Heq, lookup_delete_eq. simpl.
      by rewrite filter_cons_False by (intros H; by apply H).
    + destruct (_pipeProxySources st !! name) as [p|]; [|done]. simpl.
      rewrite filter_cons_True; [done|]. intros ->. by apply Hne.
Qed.

Lemma ends_removeSource_ne name name' source st :
  name' ≠ name → ends name' (removeSource name source st).1 = ends name' st.
Proof.
  intros Hne. unfold ends, removeSource.
  cbn [fst _pipeLocalSources _pipeProxySources]. f_equal.
  - destruct (decide _); [by rewrite lookup_delete_ne|done].
  - destruct (decide _); [by rewrite lookup_delete_ne|done].
Qed.

(** A step that touches neither the tables nor the sources of a sink. *)
Lemma wired_same_sources st st' :
  _pipeSinks st' = _pipeSinks st →
  _pipeLocalSources st' = _pipeLocalSources st →
  _pipeProxySources st' = _pipeProxySources st →
  (∀ k sink, sinks st !! k = Some sink →
     ∃ sink', sinks st' !! k = Some sink'
              ∧ Pipe._sources sink' = Pipe._sources sink) →
  wired st → wired st'.
Proof.
  intros Hs Hl Hp Hsrc Hw name k Hk. rewrite Hs in Hk.
  destruct (Hw name k Hk) as (sink & Hsink & Hperm).
  destruct (Hsrc k sink Hsink) as (sink' & Hsink' & Heq).
  exists sink'. split; [done|]. unfold ends. by rewrite Heq, Hl, Hp.
Qed.

(** A new source [n] of [name] is attached to the sink of [name], if
    one is registered. *)
Lemma wired_new_source name (n : nat) st st' :
  well_formed st → wired st →
  _pipeSinks st' = _pipeSinks st →
  sinks st' = match _pipeSinks st !! name with
              | Some k => alter (Pipe.addSource n) k (sinks st)
              | None => sinks st
              end →
  ends name st' ≡ₚ ends name st ++ [n] →
  (∀ name', name' ≠ name → ends name' st' = ends name' st) →
  wired st'.
Proof.
  intros (_ & _ & _ & Hinj) Hw Hreg Hsinks Hends Hother name' k Hk.
  rewrite Hreg in Hk. destruct (Hw name' k Hk) as (sink & Hsink & Hperm).
  rewrite Hsinks. destruct (decide (name' = name)) as [->|Hne].
  - rewrite Hk. exists (Pipe.addSource n sink).
    split; [by rewrite lookup_alter_eq, Hsink|].
    simpl. by rewrite Hends, Hperm.
  - exists sink. rewrite (Hother name' Hne). split; [|done].
    destruct (_pipeSinks st !! name) as [k0|] eqn:Hk0; [|done].
    rewrite lookup_alter_ne; [done|]. intros ->.
    by apply Hne, (Hinj name' name k).
Qed.

Lemma step_keeps_wired st o :
  well_formed st ∧ wired st →
  well_formed (step otherTiers st o) ∧ wired (step otherTiers st o).
Proof.
  intros [Hwf Hw]. pose proof Hwf as (Hks & Hls & Hps & Hinj).
  destruct o as [name|name|name|name|name source|k event|k];
    cbn [step].
  - (* getProxyNamedPipe *)
    unfold getProxyNamedPipe, read.
    destruct (_pipeProxySources st !! name) as [p|] eqn:Hp; [done|].
    destruct (inherited name); [done|].
    cbn [fst]. split.
    + repeat split; cbn [_pipeSinks _pipeLocalSources _pipeProxySources objects].
      * intros n k Hk. specialize (Hks n k Hk). lia.
      * intros n l Hl. specialize (Hls n l Hl). lia.
      * intros n p Hn. destruct (decide (n = name)) as [->|Hne].
        -- rewrite lookup_insert_eq in Hn. injection Hn as <-. lia.
        -- rewrite lookup_insert_ne in Hn by done. specialize (Hps n p Hn). lia.
      * exact Hinj.
    + apply (wired_new_source name (objects st) st); try done.
      * unfold ends. cbn [_pipeLocalSources _pipeProxySources].
        by rewrite lookup_insert_eq, Hp, app_nil_r.
      * intros name' Hne. unfold ends.
        cbn [_pipeLocalSources _pipeProxySources].
        by rewrite lookup_insert_ne.
  - (* getLocalSourceNamedPipe *)
    unfold getLocalSourceNamedPipe, read.
    destruct (_pipeLocalSources st !! name) as [l|] eqn:Hl; [done|].
    destruct (inherited name); [done|].
    cbn [fst]. split.
    + repeat split; cbn [_pipeSinks _pipeLocalSources _pipeProxySources objects].
      * intros n k Hk. specialize (Hks n k Hk). lia.
      * intros n l Hn. destruct (decide (n = name)) as [->|Hne].
        -- rewrite lookup_insert_eq in Hn. injection Hn as <-. lia.
        -- rewrite lookup_insert_ne in Hn by done. specialize (Hls n l Hn). lia.
      * intros n p Hn. specialize (Hps n p Hn). lia.
      * exact Hinj.
    + apply (wired_new_source name (objects st) st); try done.
      * unfold ends. cbn [_pipeLocalSources _pipeProxySources].
        rewrite lookup_insert_eq, Hl. simpl.
        apply (Permutation_app_comm [objects st]).
      * intros name' Hne. unfold ends.
        cbn [_pipeLocalSources _pipeProxySources].
        by rewrite lookup_insert_ne.
  - (* getLocalSinkNamedPipe *)
    unfold getLocalSinkNamedPipe, read.
    destruct (_pipeSinks st !! name) as [k|] eqn:Hk; [done|].
    destruct (inherited name); [done|].
    cbn [fst]. split.
    + repeat split; cbn [_pipeSinks _pipeLocalSources _pipeProxySources objects].
      * intros n k Hn. destruct (decide (n = name)) as [->|Hne].
        -- rewrite lookup_insert_eq in Hn. injection Hn as <-. lia.
        -- rewrite lookup_insert_ne in Hn by done. specialize (Hks n k Hn). lia.
      * intros n l Hl. specialize (Hls n l Hl). lia.
      * intros n p Hn. specialize (Hps n p Hn). lia.
      * intros n1 n2 k H1 H2.
        destruct (decide (n1 = name)) as [->|Hne1];
          destruct (decide (n2 = name)) as [->|Hne2]; [done| | |].
        -- rewrite lookup_insert_eq in H1. injection H1 as <-.
           rewrite lookup_insert_ne in H2 by done. specialize (Hks _ _ H2). lia.
        -- rewrite lookup_insert_eq in H2. injection H2 as <-.
           rewrite lookup_insert_ne in H1 by done. specialize (Hks _ _ H1). lia.
        -- rewrite lookup_insert_ne in H1, H2 by done. by eapply Hinj.
    + intros name' k' Hk'. cbn [_pipeSinks sinks] in *.
      destruct (decide (name' = name)) as [->|Hne].
      * rewrite lookup_insert_eq in Hk'. injection Hk' as <-.
        rewrite lookup_insert_eq. eexists. split; [reflexivity|].
        unfold ends. cbn [_pipeLocalSources _pipeProxySources].
        by destruct (_pipeLocalSources st !! name),
                    (_pipeProxySources st !! name).
      * rewrite lookup_insert_ne in Hk' by done.
        destruct (Hw name' k' Hk') as (sink & Hsink & Hperm).
        exists sink. split; [|done].
        rewrite lookup_insert_ne; [done|]. specialize (Hks _ _ Hk'). lia.
  - (* the sink of [name] is closed *)
    split.
    + repeat split; cbn [removeSink _pipeSinks _pipeLocalSources
                           _pipeProxySources objects]; try done.
      * intros n k Hn. apply lookup_delete_Some in Hn as [_ Hn]. by eapply Hks.
      * intros n1 n2 k H1 H2. apply lookup_delete_Some in H1 as [_ H1].
        apply lookup_delete_Some in H2 as [_ H2]. by eapply Hinj.
    + intros name' k Hk. cbn [removeSink _pipeSinks] in Hk.
      apply lookup_delete_Some in Hk as [_ Hk]. exact (Hw name' k Hk).
  - (* a source is closed *)
    split.
    + repeat split; cbn [removeSource fst _pipeSinks _pipeLocalSources
                           _pipeProxySources objects]; try done.
      * intros n l Hn. destruct (decide _); [|by eapply Hls].
        apply lookup_delete_Some in Hn as [_ Hn]. by eapply Hls.
      * intros n p Hn. destruct (decide _); [|by eapply Hps].
        apply lookup_delete_Some in Hn as [_ Hn]. by eapply Hps.
    + intros name' k Hk. cbn [removeSource fst _pipeSinks] in Hk.
      destruct (Hw name' k Hk) as (sink & Hsink & Hperm).
      destruct (decide (name' = name)) as [->|Hne].
      * exists (Pipe.removeSource source sink). split.
        -- cbn [removeSource fst sinks]. by rewrite Hk, lookup_alter_eq, Hsink.
        -- rewrite <- ends_filter. simpl. by rewrite Hperm.
      * exists sink. rewrite ends_removeSource_ne by done. split; [|done].
        cbn [removeSource fst sinks].
        destruct (_pipeSinks st !! name) as [k0|] eqn:Hk0; [|done].
        rewrite lookup_alter_ne; [done|]. intros ->.
        by apply Hne, (Hinj name' name k).
  - (* sendEvent *)
    split; [done|]. apply (wired_same_sources st); try done.
    intros k' sink Hsink. cbn [sendEvent sinks].
    destruct (decide (k' = k)) as [->|Hne].
    + exists (Pipe.sendEvent event sink).
      by rewrite lookup_alter_eq, Hsink.
    + exists sink. by rewrite lookup_alter_ne.
  - (* a deferred callback runs *)
    unfold tick. destruct (sinks st !! k) as [sink0|] eqn:Hk; [|done].
    destruct (Pipe.tick sink0) as [sink1 calls] eqn:Htick. cbn [fst].
    split; [done|]. apply (wired_same_sources st); try done.
    intros k' sink Hsink. cbn [sinks].
    destruct (decide (k' = k)) as [->|Hne].
    + exists sink1. rewrite lookup_insert_eq. split; [done|].
      rewrite Hk in Hsink. injection Hsink as <-.
      unfold Pipe.tick in Htick.
      destruct (Pipe.timeouts sink0); by injection Htick as <- _.
    + exists sink. by rewrite lookup_insert_ne.
Qed.

Lemma run_keeps_wired ops :
  well_formed (run otherTiers (Ev := Ev) ops) ∧ wired (run otherTiers ops).
Proof.
  unfold run. induction ops as [|o ops IH] using rev_ind.
  - split; [by repeat split|]. intros name k Hk. by simpl in Hk.
  - rewrite foldl_app. simpl. by apply step_keeps_wired.
Qed.

(** X21 — Wiring.  However the ends of pipes have been requested and closed,
    in whatever order, the sink registered for a name pushes to exactly
    the source ends registered for that name at that moment, the local
    one and the proxy one: an event sent into the sink, once its
    deferred callback runs, is handed to each of them once and to
    nothing else. *)
Theorem pipes_stay_wired ops name k :
  let st := run otherTiers ops in
  _pipeSinks st !! name = Some k →
  ∃ sink,
    sinks st !! k = Some sink
    ∧ Pipe._sources sink ≡ₚ ends name st
    ∧ ∀ event, Pipe.timeouts sink = [] →
        (tick k (sendEvent k event st)).2
        ≡ₚ map (fun source => (source, event)) (ends name st).
Proof.
  cbv zeta. intros Hk.
  destruct (run_keeps_wired ops) as [_ Hw].
  destruct (Hw name k Hk) as (sink & Hsink & Hperm).
  exists sink. split; [done|]. split; [done|].
  intros event Hidle. unfold tick, sendEvent. cbn [sinks].
  rewrite lookup_alter_eq, Hsink. simpl. unfold Pipe.tick. simpl.
  rewrite Hidle. simpl. unfold Pipe.fan_out. simpl. by rewrite Hperm.
Qed.

(** No table ever gets a property named like a member of
    [Object.prototype]: a request under such a name returns before
    anything is stored. *)
Lemma step_keeps_plain st o :
  plain_names st → plain_names (step otherTiers st o).
Proof.
  intros Hplain name Hname. destruct (Hplain name Hname) as (Hk & Hl & Hp).
  destruct o as [n|n|n|n|n source|k event|k]; cbn [step].
  - unfold getProxyNamedPipe, read.
    destruct (_pipeProxySources st !! n) as [p|]; [done|].
    destruct (inherited n) eqn:Hn; [done|]. cbn [fst].
    cbn [_pipeSinks _pipeLocalSources _pipeProxySources].
    rewrite lookup_insert_ne by (intros ->; congruence). done.
  - unfold getLocalSourceNamedPipe, read.
    destruct (_pipeLocalSources st !! n) as [l|]; [done|].
    destruct (inherited n) eqn:Hn; [done|]. cbn [fst].
    cbn [_pipeSinks _pipeLocalSources _pipeProxySources].
    rewrite lookup_insert_ne by (intros ->; congruence). done.
  - unfold getLocalSinkNamedPipe, read.
    destruct (_pipeSinks st !! n) as [k|]; [done|].
    destruct (inherited n) eqn:Hn; [done|]. cbn [fst].
    cbn [_pipeSinks _pipeLocalSources _pipeProxySources].
    rewrite lookup_insert_ne by (intros ->; congruence). done.
  - cbn [removeSink _pipeSinks _pipeLocalSources _pipeProxySources].
    split; [|done]. apply lookup_delete_None. by right.
  - cbn [removeSource fst _pipeSinks _pipeLocalSources _pipeProxySources].
    split; [done|]. split; destruct (decide _); try done;
      apply lookup_delete_None; by right.
  - done.
  - unfold tick. destruct (sinks st !! k) as [sink0|]; [|done].
    by destruct (Pipe.tick sink0).
Qed.

Lemma run_keeps_plain ops : plain_names (run otherTiers (Ev := Ev) ops).
Proof.
  unfold run. induction ops as [|o ops IH] using rev_ind; [done|].
  rewrite foldl_app. simpl. by apply step_keeps_plain.
Qed.

(** X22 — One object per end.  Under a name that is not the name of a
    member of [Object.prototype]: while an end of a pipe is registered,
    asking for it again builds nothing and returns a promise for the
    very object the first request returned; once that end has been
    closed, the next request builds a new object.  Under the name of
    such a member no end is ever built: every request returns a promise
    for the member, before and after a close, and closing a source under
    that name throws a [TypeError]. *)
Theorem ends_are_shared ops name :
  let st := run otherTiers ops in
  let sink1 := getLocalSinkNamedPipe name st in
  let proxy1 := getProxyNamedPipe name st in
  let local1 := getLocalSourceNamedPipe otherTiers name st in
  (inherited name = false →
   ∃ k p l,
     channel_of sink1.2 = Some k ∧ channel_of proxy1.2 = Some p
     ∧ channel_of local1.2 = Some l
     ∧ getLocalSinkNamedPipe name sink1.1 = (sink1.1, Promised k)
     ∧ getProxyNamedPipe name proxy1.1 = (proxy1.1, Promised p)
     ∧ getLocalSourceNamedPipe otherTiers name local1.1
       = (local1.1, Promised l)
     ∧ (getLocalSinkNamedPipe name (removeSink name sink1.1)).2
       = Plain (objects sink1.1)
     ∧ k < objects sink1.1
     ∧ (removeSource name p proxy1.1).2 = Done
     ∧ (getProxyNamedPipe name (removeSource name p proxy1.1).1).2
       = Plain (objects proxy1.1)
     ∧ p < objects proxy1.1
     ∧ (removeSource name l local1.1).2 = Done
     ∧ (getLocalSourceNamedPipe otherTiers name
          (removeSource name l local1.1).1).2
       = Plain (objects local1.1)
     ∧ l < objects local1.1)
  ∧ (inherited name = true →
     sink1 = (st, PromisedMember) ∧ proxy1 = (st, PromisedMember)
     ∧ local1 = (st, PromisedMember)
     ∧ (getLocalSinkNamedPipe name (removeSink name st)).2 = PromisedMember
     ∧ ∀ source,
         (removeSource name source st).2 = TypeError
         ∧ (getProxyNamedPipe name (removeSource name source st).1).2
           = PromisedMember
         ∧ (getLocalSourceNamedPipe otherTiers name
              (removeSource name source st).1).2
           = PromisedMember).
Proof.
  cbv zeta. destruct (run_keeps_wired ops) as [(Hks & Hls & Hps & _) _].
  pose proof (run_keeps_plain ops) as Hplain.
  set (st := run otherTiers ops) in *.
  split.
  - intros Hname.
    assert (Hsink : ∃ k, channel_of (getLocalSinkNamedPipe name st).2 = Some k
              ∧ _pipeSinks (getLocalSinkNamedPipe name st).1 !! name = Some k
              ∧ k < objects (getLocalSinkNamedPipe name st).1).
    { unfold getLocalSinkNamedPipe, read. rewrite Hname.
      destruct (_pipeSinks st !! name) as [k|] eqn:Hk;
        cbn [fst snd channel_of _pipeSinks objects].
      - exists k. split; [done|]. split; [done|]. by eapply Hks.
      - exists (objects st). split; [done|].
        split; [by rewrite lookup_insert_eq|lia]. }
    assert (Hproxy : ∃ p, channel_of (getProxyNamedPipe name st).2 = Some p
              ∧ _pipeProxySources (getProxyNamedPipe name st).1 !! name = Some p
              ∧ p < objects (getProxyNamedPipe name st).1).
    { unfold getProxyNamedPipe, read. rewrite Hname.
      destruct (_pipeProxySources st !! name) as [p|] eqn:Hp;
        cbn [fst snd channel_of _pipeProxySources objects].
      - exists p. split; [done|]. split; [done|]. by eapply Hps.
      - exists (objects st). split; [done|].
        split; [by rewrite lookup_insert_eq|lia]. }
    assert (Hlocal : ∃ l,
              channel_of (getLocalSourceNamedPipe otherTiers name st).2 = Some l
              ∧ _pipeLocalSources (getLocalSourceNamedPipe otherTiers name st).1
                !! name = Some l
              ∧ l < objects (getLocalSourceNamedPipe otherTiers name st).1).
    { unfold getLocalSourceNamedPipe, read. rewrite Hname.
      destruct (_pipeLocalSources st !! name) as [l|] eqn:Hl;
        cbn [fst snd channel_of _pipeLocalSources objects].
      - exists l. split; [done|]. split; [done|]. by eapply Hls.
      - exists (objects st). split; [done|].
        split; [by rewrite lookup_insert_eq|lia]. }
    destruct Hsink as (k & Hk1 & Hk2 & Hk3), Hproxy as (p & Hp1 & Hp2 & Hp3),
      Hlocal as (l & Hl1 & Hl2 & Hl3).
    exists k, p, l.
    split; [done|]. split; [done|]. split; [done|].
    split; [unfold getLocalSinkNamedPipe at 1, read; by rewrite Hk2|].
    split; [unfold getProxyNamedPipe at 1, read; by rewrite Hp2|].
    split; [unfold getLocalSourceNamedPipe at 1, read; by rewrite Hl2|].
    split.
    { unfold getLocalSinkNamedPipe at 1, read. cbn [removeSink _pipeSinks].
      by rewrite lookup_delete_eq, Hname. }
    split; [done|]. split.
    { unfold removeSource, read. cbn [snd]. rewrite Hname.
      by destruct (_pipeSinks (getProxyNamedPipe name st).1 !! name). }
    split.
    { unfold getProxyNamedPipe at 1, read.
      cbn [removeSource fst _pipeProxySources].
      rewrite decide_True by done. by rewrite lookup_delete_eq, Hname. }
    split; [done|]. split.
    { unfold removeSource, read. cbn [snd]. rewrite Hname.
      by destruct (_pipeSinks (getLocalSourceNamedPipe otherTiers name st).1
                   !! name). }
    split; [|done].
    unfold getLocalSourceNamedPipe at 1, read.
    cbn [removeSource fst _pipeLocalSources].
    rewrite decide_True by done. by rewrite lookup_delete_eq, Hname.
  - intros Hname. destruct (Hplain name Hname) as (Hk & Hl & Hp).
    split; [unfold getLocalSinkNamedPipe, read; by rewrite Hk, Hname|].
    split; [unfold getProxyNamedPipe, read; by rewrite Hp, Hname|].
    split; [unfold getLocalSourceNamedPipe, read; by rewrite Hl, Hname|].
    split.
    { unfold getLocalSinkNamedPipe, read. cbn [removeSink _pipeSinks].
      by rewrite lookup_delete_eq, Hname. }
    intros source. split; [|split].
    + unfold removeSource, read. cbn [snd]. by rewrite Hk, Hname.
    + unfold getProxyNamedPipe, read. cbn [removeSource fst _pipeProxySources].
      rewrite decide_False by (rewrite Hp; discriminate).
      by rewrite Hp, Hname.
    + unfold getLocalSourceNamedPipe, read.
      cbn [removeSource fst _pipeLocalSources].
      rewrite decide_False by (rewrite Hl; discriminate).
      by rewrite Hl, Hname.
Qed.

End Facts.

Lemma pipes_stay_wired_witness :
  let st := run Scenario.other_tiers Scenario.log_pipe in
  _pipeSinks st !! "log" = Some 1
  ∧ ∃ sink, sinks st !! 1 = Some sink
            ∧ Pipe._sources sink ≡ₚ [2; 0]
            ∧ (tick 1 (sendEvent 1 "hello" st)).2
              ≡ₚ [(2, "hello"); (0, "hello")].
Proof.
  split; [reflexivity|].
  destruct (pipes_stay_wired Scenario.other_tiers Scenario.log_pipe "log" 1
              eq_refl) as (sink & Hsink & Hperm & Hsend).
  exists sink. split; [exact Hsink|]. split; [exact Hperm|].
  apply (Hsend "hello").
  assert (Hsome : Some sink = Some (Pipe.mkSink [0; 2] [])).
  { rewrite <- Hsink. reflexivity. }
  injection Hsome as ->. reflexivity.
Defined.
End PipeMore.
